(** * KDMS: the boundary-data download script, the alert console and the
      AI report panel, with the pipeline components described by the design
      document.

    The browser code is embedded as state-passing functions: a React
    component is the record of its [useState] cells, an event handler is a
    function from that record and the replies of the network to the new record
    and the list of effects it performed.

    The pipeline components (Alert Dispatcher, Analysis Cache, Collector,
    Dispatch Recommender) run on the server, whose code is not part of the
    sources at hand; their definitions follow the design document and say
    so. Concurrent requests are interleavings of atomic steps, chosen by a
    schedule. *)

From stdpp Require Import base option list strings gmap sorting.
From Stdlib Require Import ZArith Lia Ascii.

Local Open Scope string_scope.
Local Open Scope list_scope.
Local Open Scope Z_scope.

(** ** JavaScript values, as far as the handlers look at them *)

Module Js.

(** Numbers are IEEE doubles. [Int z] is the double nearest to the integer
    [z]: [z] itself below 2^53 in size, its rounding [nearest_double z]
    from there on, an infinity from 2^1024 on. [Frac text] is a double that
    is not an integer, known by the text JavaScript prints for it ([0.5],
    [1.25e-7]). [NaN] is what [parseInt] returns when no digit was read.
    Zero has no sign: nothing here tells -0 from 0. *)
Inductive number :=
  | NaN
  | Int (z : Z)
  | Frac (text : string).

(** A string holds well-formed Unicode text as its UTF-8 bytes. *)
#[warnings="-register-all"]
Inductive value :=
  | Undefined
  | Null
  | Bool (b : bool)
  | Num (n : number)
  | Str (s : string)
  | Arr (items : list value)
  | Obj (fields : list (string * value)).

Inductive exn :=
  | TypeError        (* property read on null or undefined, call of what is
                        no function, object without a primitive value *)
  | NetworkError     (* fetch rejected *)
  | SyntaxError      (* response.json() rejected: the body is not JSON *)
  | RenderError.     (* React: objects are not valid as a React child *)

(** ToBoolean *)
Definition truthy (v : value) : bool :=
  match v with
  | Undefined | Null => false
  | Bool b => b
  | Num NaN => false
  | Num (Int z) => negb (z =? 0)
  | Num (Frac _) => true
  | Str s => negb (String.eqb s "")
  | Arr _ | Obj _ => true
  end.

(** [a || b] *)
Definition or (a b : value) : value := if truthy a then a else b.

(** Own property of a parsed JSON object; a key given twice keeps its last
    value, as JSON.parse does. *)
Fixpoint lookup_field (k : string) (fields : list (string * value))
    : option value :=
  match fields with
  | [] => None
  | (k', v) :: rest =>
      match lookup_field k rest with
      | Some later => Some later
      | None => if String.eqb k k' then Some v else None
      end
  end.

(** [v.k] for the keys the components read ([report], [stats],
    [generated_at], [predictions], [recipients], [message_en],
    [message_sw]); none of them is inherited from a prototype. *)
Definition get (v : value) (k : string) : exn + value :=
  match v with
  | Undefined | Null => inl TypeError
  | Obj fields => inr (default Undefined (lookup_field k fields))
  | _ => inr Undefined
  end.

(** The UTF-16 code units a byte of UTF-8 text stands for: one for the
    first byte of a character of the Basic Multilingual Plane, two (a
    surrogate pair) for the first byte of a character beyond it, none for a
    continuation byte. *)
Definition code_units (c : ascii) : nat :=
  let n := Ascii.nat_of_ascii c in
  if (n <? 128)%nat then 1%nat
  else if (n <? 192)%nat then 0%nat
  else if (n <? 240)%nat then 1%nat
  else 2%nat.

(** [s.length]: the number of UTF-16 code units of the string. *)
Fixpoint utf16_length (s : string) : nat :=
  match s with
  | EmptyString => 0%nat
  | String c rest => (code_units c + utf16_length rest)%nat
  end.

(** [v.length] *)
Definition length_of (v : value) : exn + value :=
  match v with
  | Undefined | Null => inl TypeError
  | Str s => inr (Num (Int (Z.of_nat (utf16_length s))))
  | Arr items => inr (Num (Int (Z.of_nat (List.length items))))
  | Obj fields => inr (default Undefined (lookup_field "length" fields))
  | _ => inr Undefined
  end.

(** The integers every double holds exactly, up to
    [Number.MAX_SAFE_INTEGER] in size. *)
Definition safe (z : Z) : Prop := - 9007199254740991 <= z <= 9007199254740991.

(** What stands for an infinity: the first power of two no double reaches. *)
Definition infinity : Z := 2 ^ 1024.

(** The double an integer is read as: the integer itself below 2^53; from
    there on 53 significant bits are kept, rounding to the nearest and, half
    way, to the even one; what rounds to 2^1024 or more is an infinity. *)
Definition nearest_double (m : Z) : Z :=
  let a := Z.abs m in
  if a <? 2 ^ 53 then m
  else
    let e := Z.log2 a - 52 in
    let q := a / 2 ^ e in
    let r := a mod 2 ^ e in
    let half := 2 ^ (e - 1) in
    let q' := if (half <? r) || ((r =? half) && Z.odd q) then q + 1 else q in
    Z.sgn m * Z.min (q' * 2 ^ e) infinity.

(** [a !== b] against the literal of a small integer *)
Definition strict_neq_num (v : value) (n : Z) : bool :=
  match v with
  | Num (Int z) => negb (nearest_double z =? n)
  | _ => true
  end.

Definition digit_char (d : Z) : string :=
  String (Ascii.ascii_of_nat (48 + Z.to_nat d)) "".

Fixpoint show_digits (fuel : nat) (z : Z) (acc : string) : string :=
  match fuel with
  | O => acc
  | S fuel' =>
      let acc' := digit_char (z mod 10) +:+ acc in
      if z <? 10 then acc' else show_digits fuel' (z / 10) acc'
  end.

(** The decimal digits of an integer. *)
Definition show_Z (z : Z) : string :=
  if z <? 0 then "-" +:+ show_digits (Z.to_nat (Z.log2 (- z)) + 1) (- z) ""
  else show_digits (Z.to_nat (Z.log2 z) + 1) z "".

(** The integer with the fewest significant digits that is read as the
    double [x]: multiples of [unit], a power of ten, are tried from the
    largest power down; of two that fit, the one nearer to [x]. *)
Fixpoint shortest (fuel : nat) (x unit : Z) : Z :=
  match fuel with
  | O => x
  | S fuel' =>
      let below := x / unit * unit in
      let above := below + unit in
      let below_reads := nearest_double below =? x in
      let above_reads := nearest_double above =? x in
      if below_reads && above_reads then
        if x - below <? above - x then below
        else if above - x <? x - below then above
        else if Z.even (below / unit) then below else above
      else if below_reads then below
      else if above_reads then above
      else shortest fuel' x (unit / 10)
  end.

Fixpoint strip_zeros (s : string) : string :=
  match s with
  | EmptyString => EmptyString
  | String c rest =>
      match strip_zeros rest with
      | EmptyString =>
          if Ascii.eqb c "0" then EmptyString else String c EmptyString
      | kept => String c kept
      end
  end.

(** Number::toString of a double [x >= 0] that is an integer: all its
    digits below 2^53; from there on the shortest digits that read back as
    [x], followed by zeros up to 21 digits and in exponent form beyond. *)
Definition show_double (x : Z) : string :=
  if x <? 2 ^ 53 then show_Z x
  else if infinity <=? x then "Infinity"
  else
    let n := Z.of_nat (String.length (show_Z x)) in
    let text := show_Z (shortest 17 x (10 ^ (n - 1))) in
    let n' := Z.of_nat (String.length text) in
    if n' <=? 21 then text
    else
      match strip_zeros text with
      | String d EmptyString => String d "e+" +:+ show_Z (n' - 1)
      | String d rest => String d "." +:+ rest +:+ "e+" +:+ show_Z (n' - 1)
      | EmptyString => text
      end.

(** [String(n)] *)
Definition show_number (n : number) : string :=
  match n with
  | NaN => "NaN"
  | Int z =>
      let x := nearest_double z in
      if x <? 0 then "-" +:+ show_double (- x) else show_double x
  | Frac text => text
  end.

Definition join (sep : string) (parts : list string) : string :=
  match parts with
  | [] => ""
  | p :: ps => fold_left (fun acc q => acc +:+ sep +:+ q) ps p
  end.

(** ToString, as a template literal, a key and an attribute apply it. An
    object parsed from JSON answers with [Object.prototype.toString] unless
    it has a [toString] of its own, which is no function: then no primitive
    value is found and a TypeError is thrown. An array joins its items, the
    nullish ones as empty strings. *)
Fixpoint to_string (v : value) : exn + string :=
  match v with
  | Undefined => inr "undefined"
  | Null => inr "null"
  | Bool true => inr "true"
  | Bool false => inr "false"
  | Num n => inr (show_number n)
  | Str s => inr s
  | Arr items =>
      let fix parts (l : list value) : exn + list string :=
        match l with
        | [] => inr []
        | x :: rest =>
            match match x with
                  | Undefined | Null => inr ""
                  | _ => to_string x
                  end with
            | inl e => inl e
            | inr s =>
                match parts rest with
                | inl e => inl e
                | inr ss => inr (s :: ss)
                end
            end
        end in
      match parts items with
      | inl e => inl e
      | inr ss => inr (join "," ss)
      end
  | Obj fields =>
      match lookup_field "toString" fields with
      | Some _ => inl TypeError
      | None => inr "[object Object]"
      end
  end.

(** A primitive value: neither an object nor an array. *)
Definition primitive (v : value) : bool :=
  match v with
  | Arr _ | Obj _ => false
  | _ => true
  end.

(** What React accepts as a child: text, numbers, what renders as nothing
    (booleans, null, undefined) and arrays of such; an object that is not
    an element makes it throw. *)
Fixpoint renderable (v : value) : bool :=
  match v with
  | Obj _ => false
  | Arr items => forallb renderable items
  | _ => true
  end.

(** *** parseInt(s), no radix given *)

Definition is_space (c : ascii) : bool :=
  let n := Ascii.nat_of_ascii c in
  ((n =? 32) || (n =? 9) || (n =? 10) || (n =? 11) || (n =? 12) || (n =? 13))%nat.

(** The white space and line terminators beyond ASCII, by their three
    bytes: U+1680, U+2000 to U+200A, U+2028, U+2029, U+202F, U+205F, U+3000
    and U+FEFF. *)
Definition is_wide_space (a b c : nat) : bool :=
  (((a =? 225) && (b =? 154) && (c =? 128))
   || ((a =? 226) && (b =? 128)
       && (((128 <=? c) && (c <=? 138)) || (c =? 168) || (c =? 169)
           || (c =? 175)))
   || ((a =? 226) && (b =? 129) && (c =? 159))
   || ((a =? 227) && (b =? 128) && (c =? 128))
   || ((a =? 239) && (b =? 187) && (c =? 191)))%nat.

(** What follows one white space character or line terminator at the head
    of [s]; [None] when [s] does not start with one. U+00A0 takes two
    bytes. *)
Definition after_space (s : string) : option string :=
  match s with
  | String a rest =>
      if is_space a then Some rest
      else
        match rest with
        | String b rest1 =>
            if ((Ascii.nat_of_ascii a =? 194)
                && (Ascii.nat_of_ascii b =? 160))%nat
            then Some rest1
            else
              match rest1 with
              | String c rest2 =>
                  if is_wide_space (Ascii.nat_of_ascii a)
                       (Ascii.nat_of_ascii b) (Ascii.nat_of_ascii c)
                  then Some rest2 else None
              | EmptyString => None
              end
        | EmptyString => None
        end
  | EmptyString => None
  end.

Definition digit_value (c : ascii) : option Z :=
  let n := Z.of_nat (Ascii.nat_of_ascii c) in
  if (48 <=? n) && (n <=? 57) then Some (n - 48)
  else if (97 <=? n) && (n <=? 122) then Some (n - 87)
  else if (65 <=? n) && (n <=? 90) then Some (n - 55)
  else None.

Fixpoint skip_spaces_within (fuel : nat) (s : string) : string :=
  match fuel with
  | O => s
  | S fuel' =>
      match after_space s with
      | Some rest => skip_spaces_within fuel' rest
      | None => s
      end
  end.

(** The leading white space is dropped; each step takes a byte at least. *)
Definition skip_spaces (s : string) : string :=
  skip_spaces_within (String.length s) s.

(** Reads the longest run of digits of the radix; [None] when there is none. *)
Fixpoint read_digits (radix : Z) (s : string) (acc : option Z) : option Z :=
  match s with
  | String c rest =>
      match digit_value c with
      | Some d =>
          if d <? radix
          then read_digits radix rest (Some (radix * default 0 acc + d))
          else acc
      | None => acc
      end
  | EmptyString => acc
  end.

Definition strip_sign (s : string) : Z * string :=
  match s with
  | String "-" rest => (-1, rest)
  | String "+" rest => (1, rest)
  | _ => (1, s)
  end.

Definition strip_radix (s : string) : Z * string :=
  match s with
  | String "0" (String "x" rest) | String "0" (String "X" rest) => (16, rest)
  | _ => (10, s)
  end.

(** The integer read is handed back as the double nearest to it, which
    [Int] stands for. *)
Definition parseInt (s : string) : number :=
  let '(sign, s1) := strip_sign (skip_spaces s) in
  let '(radix, s2) := strip_radix s1 in
  match read_digits radix s2 None with
  | Some n => Int (sign * n)
  | None => NaN
  end.

(** [!s] for a string *)
Definition is_empty (s : string) : bool := String.eqb s "".

(** [v === n] for a number [n]; [NaN] equals nothing. *)
Definition strict_eq_number (v : value) (n : number) : bool :=
  match v, n with
  | Num (Int a), Int b => nearest_double a =? nearest_double b
  | Num (Frac s), Frac t => String.eqb s t
  | _, _ => false
  end.

(** Fuel that is enough for [show_digits] to write all the digits of [z]. *)
Definition fuel_for (fuel : nat) (z : Z) : Prop :=
  (1 <= fuel)%nat /\ 0 <= z < 2 ^ Z.of_nat fuel.

End Js.

(** ** Handlers: state, effects and exceptions *)

Module Eff.

(** A computation over a world [W] that returns or throws. *)
Definition M (W A : Type) : Type := W -> W * (Js.exn + A).

Definition ret {W A} (a : A) : M W A := fun w => (w, inr a).

Definition throw {W A} (e : Js.exn) : M W A := fun w => (w, inl e).

Definition bind {W A B} (m : M W A) (k : A -> M W B) : M W B :=
  fun w =>
    match m w with
    | (w', inr a) => k a w'
    | (w', inl e) => (w', inl e)
    end.

Definition modify {W} (f : W -> W) : M W unit := fun w => (f w, inr tt).

(** A value that is already computed, or the exception its evaluation raised. *)
Definition lift {W A} (r : Js.exn + A) : M W A := fun w => (w, r).

(** [try { body } catch { handler }] *)
Definition try_catch {W A} (body : M W A) (handler : Js.exn -> M W A) : M W A :=
  fun w =>
    match body w with
    | (w', inl e) => handler e w'
    | done => done
    end.

(** [try { body } finally { final }], for a [final] that does not throw. *)
Definition finally {W A} (body : M W A) (final : W -> W) : M W A :=
  fun w => let '(w', r) := body w in (final w', r).

End Eff.

#[global] Instance eff_ret {W} : MRet (Eff.M W) := @Eff.ret W.
#[global] Instance eff_bind {W} : MBind (Eff.M W) :=
  fun A B k m => Eff.bind m k.

(** ** The download script *)

Module Download.

Definition url : string :=
  "https://data.humdata.org/dataset/02ec0e4c-ec76-4d04-ab4f-801fc1caaa38/resource/820061fa-8a03-455b-af86-d922aeb14cf0/download/ken_admbnda_adm1_iebc_20191031.geojson".

Definition fallbackUrl : string :=
  "https://data.humdata.org/dataset/02ec0e4c-ec76-4d04-ab4f-801fc1caaa38/resource/820061fa-8a03-455b-af86-d922aeb14cf0/download/ken_admbnda_adm1_iebc_20191031.geojson".

(** What one [https.get] comes to: the request emits ['error']; or the
    response callback runs with a status code and, when that is 200, the
    body is piped into the file up to the stream's ['finish']; or the
    callback runs with status 200 and one of the two streams emits ['error']
    on the way (the file cannot be opened, the connection breaks), an event
    the script has no listener for. *)
Inductive outcome :=
  | Failed (message : string)
  | Response (statusCode : Z)
  | Broken (message : string).

Inductive arg :=
  | Text (s : string)
  | Code (n : Z).

Inductive event :=
  | Log (args : list arg)          (* console.log *)
  | LogError (args : list arg)     (* console.error *)
  | Get (u : string)               (* https.get(u, ...) *)
  | Written (dest : string)        (* the body piped into dest, up to 'finish' *)
  | Uncaught (message : string).   (* an 'error' event without a listener: Node
                                      throws it and the process ends; dest
                                      is missing or incomplete *)

(** [download(url, dest, cb)]. [net k] is the outcome of the k-th request of
    the run, [k] the number of requests made so far, [cb] what the callback
    does when it is called. *)
Fixpoint download (fuel : nat) (net : nat -> outcome) (k : nat)
    (u dest : string) (cb : list event) : option (list event) :=
  match fuel with
  | O => None
  | S fuel' =>
      let started := [Log [Text "Downloading from:"; Text u]; Get u] in
      match net k with
      | Failed message =>
          Some (started ++ [LogError [Text "Error:"; Text message]])
      | Response statusCode =>
          if negb (statusCode =? 200) then
            let failed := started ++ [Log [Text "Failed:"; Code statusCode]] in
            if String.eqb u fallbackUrl then Some (failed ++ cb)
            else app failed <$> download fuel' net (S k) fallbackUrl dest cb
          else
            Some (started
                    ++ [Written dest;
                        Log [Text "Downloaded successfully to"; Text dest]]
                    ++ cb)
      | Broken message => Some (started ++ [Uncaught message])
      end
  end.

(** The script's last line. *)
Definition main (net : nat -> outcome) : option (list event) :=
  download 2 net 0 url "./public/kenya-counties.json" [Log [Text "Done"]].

Definition is_get (e : event) : bool :=
  match e with Get _ => true | _ => false end.

Definition is_written (e : event) : bool :=
  match e with Written _ => true | _ => false end.

Definition requests (t : list event) : list event := filter is_get t.

Definition done_printed (t : list event) : Prop := Log [Text "Done"] ∈ t.

Definition nothing_written (t : list event) : Prop := filter is_written t = [].

(** The run in which the primary and the fallback request both answer with a
    status other than 200: two requests go out, the second to the fallback
    URL, the callback prints and no file is written. *)
Definition both_fail_run (net : nat -> outcome) : Prop :=
  forall c0 c1 : Z,
    net 0%nat = Response c0 -> c0 <> 200 ->
    net 1%nat = Response c1 -> c1 <> 200 ->
    exists t,
      main net = Some t /\
      requests t = [Get url; Get fallbackUrl] /\
      done_printed t /\ nothing_written t.

(** The line the callback of the script prints. *)
Definition is_done (e : event) : bool :=
  match e with
  | Log [Text s] => String.eqb s "Done"
  | _ => false
  end.

Definition written (t : list event) : list event := filter is_written t.

End Download.

(** ** What the two React components share: fetch and its replies *)

Module Http.
Import Js.

(** What a [fetch] comes to: the promise rejects, or it resolves to a
    response with a status and a body; [None] is a body that is not JSON. *)
Inductive reply :=
  | Unreachable
  | Reply (status : Z) (body : option value).

Inductive effect :=
  | Post (path : string) (body : value)  (* fetch(path, {method: 'POST', body: JSON.stringify(body)}) *)
  | GetReq (path : string)               (* fetch(path) *)
  | Timer (ms : Z)                       (* setTimeout(..., ms) *)
  | ConsoleError (e : exn).              (* console.error(e) *)

(** [fetch(...).then(r => r.json())], once the request is out: the status
    is not looked at. *)
Definition json_of (r : reply) : exn + value :=
  match r with
  | Unreachable => inl NetworkError
  | Reply _ None => inl SyntaxError
  | Reply _ (Some v) => inr v
  end.

Definition is_post (e : effect) : bool :=
  match e with Post _ _ => true | _ => false end.

Definition is_timer (e : effect) : bool :=
  match e with Timer _ => true | _ => false end.

Definition is_get_request (e : effect) : bool :=
  match e with GetReq _ => true | _ => false end.

(** A component while a handler runs: its [useState] cells and the effects
    performed so far. *)
Record world (S : Type) := World { ui : S; effects : list effect }.
Arguments World {S} _ _.
Arguments ui {S} _.
Arguments effects {S} _.

Definition perform {S} (e : effect) : Eff.M (world S) unit :=
  Eff.modify (fun w => {| ui := ui w; effects := effects w ++ [e] |}).

Definition update {S} (f : S -> S) : Eff.M (world S) unit :=
  Eff.modify (fun w => {| ui := f (ui w); effects := effects w |}).

End Http.

(** ** The alert console *)

Module AlertConsole.
Import Js Http.

Record notice := Notice { msg : string; type : string }.

Definition nullish (v : value) : bool :=
  match v with Undefined | Null => true | _ => false end.

(** The [useState] cells of the component. *)
Record state := State {
  disasters : value;
  disId : string;
  preview : value;
  pastAlerts : value;
  loading : bool;
  generating : bool;
  toast : option notice;
  sending : bool }.

Definition initial : state :=
  {| disasters := Arr []; disId := ""; preview := Null; pastAlerts := Arr [];
     loading := false; generating := false; toast := None; sending := false |}.

Definition setPreview (v : value) : state -> state :=
  fun st => {| disasters := disasters st; disId := disId st; preview := v;
               pastAlerts := pastAlerts st; loading := loading st;
               generating := generating st; toast := toast st;
               sending := sending st |}.

Definition setPastAlerts (v : value) : state -> state :=
  fun st => {| disasters := disasters st; disId := disId st;
               preview := preview st; pastAlerts := v; loading := loading st;
               generating := generating st; toast := toast st;
               sending := sending st |}.

Definition setGenerating (b : bool) : state -> state :=
  fun st => {| disasters := disasters st; disId := disId st;
               preview := preview st; pastAlerts := pastAlerts st;
               loading := loading st; generating := b; toast := toast st;
               sending := sending st |}.

Definition setToast (t : option notice) : state -> state :=
  fun st => {| disasters := disasters st; disId := disId st;
               preview := preview st; pastAlerts := pastAlerts st;
               loading := loading st; generating := generating st; toast := t;
               sending := sending st |}.

(** [showToast(msg, type = 'success')]; the timer clears the toast four
    seconds later. *)
Definition showToast (m : string) (t : string) : Eff.M (world state) unit :=
  update (setToast (Some {| msg := m; type := t |}));;
  perform (Timer 4000).

(** [fetch(`${api}/alerts`).then(r => r.json()).then(setPastAlerts).catch(() => { })]:
    the request goes out at once; the list is replaced when the reply is
    JSON and left alone otherwise. It writes no other cell, so the moment
    at which it lands does not matter for the state reached. *)
Definition refreshAlerts (api : string) (alerts : reply) : Eff.M (world state) unit :=
  perform (GetReq (api +:+ "/alerts"));;
  match json_of alerts with
  | inr v => update (setPastAlerts v)
  | inl _ => mret tt
  end.

(** [`✅ Alert sent to ${data.recipients} recipient${data.recipients !== 1 ? 's' : ''}`];
    the template throws when [data.recipients] has no primitive value. *)
Definition sent_message (recipients : value) : exn + string :=
  match to_string recipients with
  | inl e => inl e
  | inr n =>
      inr ("✅ Alert sent to " +:+ n +:+ " recipient"
             +:+ (if strict_neq_num recipients 1 then "s" else ""))
  end.

(** [generatePreview], the click handler of the button "Generate & Send AI
    Alert". [send] is the reply to the POST, [alerts] the reply to the
    refresh of the history. *)
Definition generatePreview (api : string) (send alerts : reply)
    : Eff.M (world state) unit :=
  fun w =>
    if is_empty (disId (ui w)) then (w, inr tt)
    else
      (update (setGenerating true);;
       update (setPreview Null);;
       Eff.finally
         (Eff.try_catch
            (perform (Post (api +:+ "/alert/send")
                        (Obj [("disaster_id", Num (parseInt (disId (ui w))))]));;
             data ← Eff.lift (json_of send);
             update (setPreview data);;
             refreshAlerts api alerts;;
             recipients ← Eff.lift (get data "recipients");
             message ← Eff.lift (sent_message recipients);
             showToast message "success")
            (fun _ => showToast "❌ Failed to send alert" "error"))
         (fun w' => {| ui := setGenerating false (ui w');
                       effects := effects w' |})) w.

(** The handler run from a state, with the effects it performed. *)
Definition click (api : string) (send alerts : reply) (st : state)
    : world state :=
  fst (generatePreview api send alerts {| ui := st; effects := [] |}).

(** The right-hand card: the empty state, or the alert with what is handed
    to React for the two messages, their lengths and the recipients. *)
Inductive pane :=
  | EmptyState
  | SentAlert (message_en en_chars message_sw sw_chars recipients : value)
              (plural : bool).

(** The five values are children of the card, in this order; React throws
    on one that is an object. *)
Definition preview_pane (st : state) : exn + pane :=
  if negb (truthy (preview st)) then inr EmptyState
  else
    match get (preview st) "message_en", get (preview st) "message_sw",
          get (preview st) "recipients" with
    | inr en, inr sw, inr n =>
        match length_of (or en (Str "")), length_of (or sw (Str "")) with
        | inr en_chars, inr sw_chars =>
            if renderable en && renderable en_chars && renderable sw
               && renderable sw_chars && renderable n
            then inr (SentAlert en en_chars sw sw_chars n (strict_neq_num n 1))
            else inl RenderError
        | inl e, _ | _, inl e => inl e
        end
    | inl e, _, _ | _, inl e, _ | _, _, inl e => inl e
    end.

(** The select's [onChange]: [setDisId(e.target.value); setPreview(null)]. *)
Definition choose (v : string) : state -> state :=
  fun st => {| disasters := disasters st; disId := v; preview := Null;
               pastAlerts := pastAlerts st; loading := loading st;
               generating := generating st; toast := toast st;
               sending := sending st |}.

(** The request the handler makes for the disaster selected. *)
Definition send_request (api : string) (st : state) : effect :=
  Post (api +:+ "/alert/send")
    (Obj [("disaster_id", Num (parseInt (disId st)))]).

(** The request that sends the alert. *)
Definition is_send (api : string) (e : effect) : bool :=
  match e with
  | Post path _ => String.eqb path (api +:+ "/alert/send")
  | _ => false
  end.

(** Generating the preview sends nothing. *)
Definition preview_sends_nothing (api : string) (send alerts : reply)
    (st : state) : Prop :=
  filter (is_send api) (effects (click api send alerts st)) = [].

(** A reply with a JSON body is reported as sent and shown as a sent alert. *)
Definition json_reply_shown_as_sent (api : string) (status : Z) (data : value)
    (alerts : reply) (st : state) : Prop :=
  let st' := ui (click api (Reply status (Some data)) alerts st) in
  (exists m, toast st' = Some {| msg := m; type := "success" |})
  /\ (exists en ec sw sc n p, preview_pane st' = inr (SentAlert en ec sw sc n p)).

Definition setDisasters (v : value) : state -> state :=
  fun st => {| disasters := v; disId := disId st; preview := preview st;
               pastAlerts := pastAlerts st; loading := loading st;
               generating := generating st; toast := toast st;
               sending := sending st |}.

(** The effect run when the component mounts: the active disasters and the
    past alerts are fetched, each with its own [catch]. Both requests go
    out before either reply lands. *)
Definition mount (api : string) (active alerts : reply)
    : Eff.M (world state) unit :=
  perform (GetReq (api +:+ "/disasters?status=active"));;
  perform (GetReq (api +:+ "/alerts"));;
  match json_of active with
  | inr v => update (setDisasters v)
  | inl _ => mret tt
  end;;
  match json_of alerts with
  | inr v => update (setPastAlerts v)
  | inl _ => mret tt
  end.

Definition mounted (api : string) (active alerts : reply) (st : state)
    : world state :=
  fst (mount api active alerts {| ui := st; effects := [] |}).

(** The "Refresh" button of the alert history. *)
Definition refreshed (api : string) (alerts : reply) (st : state)
    : world state :=
  fst (refreshAlerts api alerts {| ui := st; effects := [] |}).

(** [items.find(d => d.id === n)] *)
Fixpoint find_by_id (n : number) (items : list value) : exn + value :=
  match items with
  | [] => inr Undefined
  | d :: rest =>
      match get d "id" with
      | inl e => inl e
      | inr i => if strict_eq_number i n then inr d else find_by_id n rest
      end
  end.

(** [disasters.find(d => d.id === parseInt(disId))]; a value that is not an
    array has no [find] to call. *)
Definition selectedDisaster (st : state) : exn + value :=
  match disasters st with
  | Arr items => find_by_id (parseInt (disId st)) items
  | _ => inl TypeError
  end.

(** What the select reports as [e.target.value] for an option: the
    attribute [value], or the label of the option when it has none. *)
Inductive reported :=
  | Attribute (s : string)
  | Label.

(** The [value] of the option of a disaster, [value={d.id}]: React writes
    the id as a string, and leaves the attribute out for an id that is null
    or undefined. *)
Definition option_value (d : value) : exn + reported :=
  match get d "id" with
  | inl e => inl e
  | inr i =>
      if nullish i then inr Label
      else match to_string i with
           | inl e => inl e
           | inr s => inr (Attribute s)
           end
  end.

(** [disabled={!disId || generating}] *)
Definition send_disabled (st : state) : bool :=
  is_empty (disId st) || generating st.

(** A row of the history table: what is read from the alert, in the order
    of the cells. The date is the raw [sent_at]. *)
Record row := Row {
  row_key : value;
  sent_at : value;
  disaster_id : value;
  message_en : value;
  recipients_count : value;
  status : value }.

(** [<tr key={a.id}>...</tr>] as the callback of [map] builds it: the six
    reads, the key written as a string and [new Date(a.sent_at)], which
    asks an object for its primitive value. *)
Definition history_row (a : value) : exn + row :=
  match get a "id", get a "sent_at", get a "disaster_id",
        get a "message_en", get a "recipients_count", get a "status" with
  | inr k, inr at_time, inr d, inr m, inr n, inr s =>
      match to_string at_time, to_string k with
      | inr _, inr _ =>
          inr {| row_key := k; sent_at := at_time; disaster_id := d;
                 message_en := m; recipients_count := n; status := s |}
      | inl e, _ | _, inl e => inl e
      end
  | inl e, _, _, _, _, _ | _, inl e, _, _, _, _ | _, _, inl e, _, _, _
  | _, _, _, inl e, _, _ | _, _, _, _, inl e, _ | _, _, _, _, _, inl e =>
      inl e
  end.

(** An alert as the server lists it: an object whose fields are primitive
    values. *)
Definition flat (a : value) : bool :=
  match a with
  | Obj fields => forallb (fun kv => primitive kv.2) fields
  | _ => false
  end.

(** The cells of a row that are children handed to React as they are; the
    date is a string by then. *)
Definition row_renders (r : row) : bool :=
  renderable (disaster_id r) && renderable (message_en r)
  && renderable (recipients_count r) && renderable (status r).

(** [items.map(a => <tr .../>)] *)
Fixpoint history_rows (items : list value) : exn + list row :=
  match items with
  | [] => inr []
  | a :: rest =>
      match history_row a with
      | inl e => inl e
      | inr r =>
          match history_rows rest with
          | inl e => inl e
          | inr rs => inr (r :: rs)
          end
      end
  end.

Inductive history :=
  | NoAlerts
  | Rows (rows : list row).

(** The body of the history table:
    [pastAlerts.length === 0 ? <no alerts> : pastAlerts.map(...)]; a value
    that is not an array has no [map] to call. The rows are all built
    before React looks at their cells. *)
Definition history_table (st : state) : exn + history :=
  match length_of (pastAlerts st) with
  | inl e => inl e
  | inr n =>
      if strict_eq_number n (Int 0) then inr NoAlerts
      else match pastAlerts st with
           | Arr items =>
               match history_rows items with
               | inl e => inl e
               | inr rs =>
                   if forallb row_renders rs then inr (Rows rs)
                   else inl RenderError
               end
           | _ => inl TypeError
           end
  end.

(** An option of the select:
    [<option key={d.id} value={d.id}>{d.type} — {d.location} ({d.severity})</option>]. *)
Record choice := Choice {
  choice_value : reported;
  choice_type : value;
  choice_location : value;
  choice_severity : value }.

Definition choice_of (d : value) : exn + choice :=
  match option_value d, get d "type", get d "location", get d "severity" with
  | inr v, inr t, inr l, inr s =>
      inr {| choice_value := v; choice_type := t; choice_location := l;
             choice_severity := s |}
  | inl e, _, _, _ | _, inl e, _, _ | _, _, inl e, _ | _, _, _, inl e => inl e
  end.

Definition choice_renders (c : choice) : bool :=
  renderable (choice_type c) && renderable (choice_location c)
  && renderable (choice_severity c).

(** [items.map(d => <option .../>)] *)
Fixpoint choice_list (items : list value) : exn + list choice :=
  match items with
  | [] => inr []
  | d :: rest =>
      match choice_of d with
      | inl e => inl e
      | inr c =>
          match choice_list rest with
          | inl e => inl e
          | inr cs => inr (c :: cs)
          end
      end
  end.

(** The options of the select, after the fixed first one. *)
Definition choices (st : state) : exn + list choice :=
  match disasters st with
  | Arr items =>
      match choice_list items with
      | inl e => inl e
      | inr cs => if forallb choice_renders cs then inr cs else inl RenderError
      end
  | _ => inl TypeError
  end.

(** Whether [v.toLocaleString()] returns, for a [v] that is not nullish:
    an object answers with its [toString], unless it has a [toLocaleString]
    or a [toString] of its own, which is no function; an array asks each
    item that is not nullish. *)
Fixpoint has_locale_string (v : value) : bool :=
  match v with
  | Obj fields =>
      match lookup_field "toLocaleString" fields,
            lookup_field "toString" fields with
      | None, None => true
      | _, _ => false
      end
  | Arr items => forallb has_locale_string items
  | _ => true
  end.

(** The card under the select, shown for the disaster selected. The number
    of people is what [toLocaleString] is called on. *)
Record card := Card {
  card_location : value;
  card_severity : value;
  card_colour : string;
  card_affected : value }.

Definition severity_colour (severity : value) : string :=
  match severity with
  | Str s =>
      if String.eqb s "High" then "var(--accent-red)"
      else if String.eqb s "Medium" then "var(--accent-amber)"
      else "var(--accent-green)"
  | _ => "var(--accent-green)"
  end.

(** [{selectedDisaster && (...)}] *)
Definition details (st : state) : exn + option card :=
  match selectedDisaster st with
  | inl e => inl e
  | inr d =>
      if negb (truthy d) then inr None
      else
        match get d "location", get d "severity", get d "affected_people" with
        | inr l, inr s, inr a =>
            let people := or a (Num (Int 0)) in
            if negb (has_locale_string people) then inl TypeError
            else if renderable l && renderable s
            then inr (Some {| card_location := l; card_severity := s;
                              card_colour := severity_colour s;
                              card_affected := people |})
            else inl RenderError
        | inl e, _, _ | _, inl e, _ | _, _, inl e => inl e
        end
  end.

(** What the console shows. *)
Record view := View {
  options : list choice;
  selected : option card;
  button_disabled : bool;
  button_busy : bool;
  right_pane : pane;
  table : history;
  shown_toast : option notice }.

(** One render of the component. When a part of it throws, there is no
    error boundary in the component to stop the exception: React takes the
    console off the screen, the toast with it. *)
Definition screen (st : state) : option view :=
  match choices st, details st, preview_pane st, history_table st with
  | inr os, inr d, inr p, inr h =>
      Some {| options := os; selected := d;
              button_disabled := send_disabled st;
              button_busy := generating st; right_pane := p; table := h;
              shown_toast := toast st |}
  | _, _, _, _ => None
  end.

End AlertConsole.

(** ** The AI report panel *)

Module AIReport.
Import Js Http.

(** The [useState] cells of the component. *)
Record state := State {
  report : value;
  predictions : value;
  stats : value;
  loading : bool;
  tab : string;
  generatedAt : value }.

Definition initial : state :=
  {| report := Null; predictions := Arr []; stats := Null; loading := false;
     tab := "sitRep"; generatedAt := Null |}.

Definition setReport (v : value) : state -> state :=
  fun st => {| report := v; predictions := predictions st; stats := stats st;
               loading := loading st; tab := tab st;
               generatedAt := generatedAt st |}.

Definition setPredictions (v : value) : state -> state :=
  fun st => {| report := report st; predictions := v; stats := stats st;
               loading := loading st; tab := tab st;
               generatedAt := generatedAt st |}.

Definition setStats (v : value) : state -> state :=
  fun st => {| report := report st; predictions := predictions st; stats := v;
               loading := loading st; tab := tab st;
               generatedAt := generatedAt st |}.

Definition setLoading (b : bool) : state -> state :=
  fun st => {| report := report st; predictions := predictions st;
               stats := stats st; loading := b; tab := tab st;
               generatedAt := generatedAt st |}.

Definition setGeneratedAt (v : value) : state -> state :=
  fun st => {| report := report st; predictions := predictions st;
               stats := stats st; loading := loading st; tab := tab st;
               generatedAt := v |}.

(** [Promise.all([a, b])]: both values, or a rejection. When both reject,
    the one logged is the first to settle; the model logs the first of the
    array. *)
Definition promise_all (a b : exn + value) : exn + value * value :=
  match a, b with
  | inr x, inr y => inr (x, y)
  | inl e, _ => inl e
  | _, inl e => inl e
  end.

(** [loadAll]; [national] and [predict] are the replies to the two requests. *)
Definition loadAll (api : string) (national predict : reply)
    : Eff.M (world state) unit :=
  update (setLoading true);;
  Eff.finally
    (Eff.try_catch
       (perform (GetReq (api +:+ "/report/national"));;
        perform (GetReq (api +:+ "/predict"));;
        both ← Eff.lift (promise_all (json_of national) (json_of predict));
        let natRes := fst both in
        let predRes := snd both in
        r ← Eff.lift (get natRes "report");
        update (setReport r);;
        s ← Eff.lift (get natRes "stats");
        update (setStats s);;
        g ← Eff.lift (get natRes "generated_at");
        update (setGeneratedAt g);;
        p ← Eff.lift (get predRes "predictions");
        update (setPredictions (or p (Arr []))))
       (fun e => perform (ConsoleError e)))
    (fun w => {| ui := setLoading false (ui w); effects := effects w |}).

(** The state the panel is in once a refresh started from [st] has run. *)
Definition refresh (api : string) (national predict : reply) (st : state)
    : state :=
  ui (fst (loadAll api national predict {| ui := st; effects := [] |})).

(** What a refresh holds on to: the prediction snapshot and the report
    state that goes with it. *)
Definition snapshot (st : state) : value * value * value * value :=
  (predictions st, report st, stats st, generatedAt st).

(** The request failed: the promise was rejected. *)
Definition failed (r : reply) : Prop := exists e, json_of r = inl e.

(** The call behind a request failed: it could not be reached, or it
    answered with a status that is no success, or with a body that is not
    JSON. *)
Definition call_failed (r : reply) : Prop :=
  match r with
  | Unreachable => True
  | Reply status body => ~ (200 <= status < 300) \/ body = None
  end.

(** A refresh whose predictions call failed leaves the snapshot as it
    was. *)
Definition failure_keeps_snapshot (api : string) (national predict : reply)
    (st : state) : Prop :=
  call_failed predict ->
  snapshot (refresh api national predict st) = snapshot st.

(** A failure of one request leaves the other request's result applied. *)
Definition siblings_independent (api : string) (national predict : reply)
    (st : state) : Prop :=
  (forall natRes r s g,
      failed predict -> json_of national = inr natRes ->
      get natRes "report" = inr r -> get natRes "stats" = inr s ->
      get natRes "generated_at" = inr g ->
      let st' := refresh api national predict st in
      report st' = r /\ stats st' = s /\ generatedAt st' = g)
  /\ (forall predRes p,
      failed national -> json_of predict = inr predRes ->
      get predRes "predictions" = inr p ->
      predictions (refresh api national predict st) = or p (Arr [])).

(** The two requests of a refresh, in the order they are made. *)
Definition both_requests (api : string) : list effect :=
  [GetReq (api +:+ "/report/national"); GetReq (api +:+ "/predict")].

(** A refresh run from a state, with the effects it performed. *)
Definition reload (api : string) (national predict : reply) (st : state)
    : world state :=
  fst (loadAll api national predict {| ui := st; effects := [] |}).

(** What the panel shows under the header: the branch taken and what is
    handed to it. *)
Inductive view :=
  | Spinner
  | Report (markdown : value)
  | NoReport
  | NoPredictions
  | Cards (shown : list value).

(** The tab content. A card reads [p.county] first, which throws for a
    prediction that is [null]; a value that is not an array has no [map]
    to call. *)
Definition body (st : state) : exn + view :=
  if loading st then inr Spinner
  else if String.eqb (tab st) "sitRep" then
    inr (if truthy (report st) then Report (report st) else NoReport)
  else
    match length_of (predictions st) with
    | inl e => inl e
    | inr n =>
        if strict_eq_number n (Int 0) then inr NoPredictions
        else match predictions st with
             | Arr items =>
                 if forallb (fun p => match get p "county" with
                                      | inr _ => true
                                      | inl _ => false
                                      end) items
                 then inr (Cards items) else inl TypeError
             | _ => inl TypeError
             end
    end.

(** [setTab(t.key)] *)
Definition setTab (t : string) : state -> state :=
  fun st => {| report := report st; predictions := predictions st;
               stats := stats st; loading := loading st; tab := t;
               generatedAt := generatedAt st |}.

End AIReport.

(** ** The Alert Dispatcher *)

Module AlertDispatcher.

(** A message is the list of its characters. *)
Abbreviation text := (list ascii).

Definition is_blank (c : ascii) : bool := Ascii.eqb c " ".

(** Modelled from the spec: the length rule of the Alert Dispatcher
    (section 4.5), whose code is not among the sources. The channel takes
    160 characters; a longer variant is cut at a word boundary. A cut at
    position [i] is at a word boundary when it is at either end of the
    message or one of the two characters around it is a blank. *)
Definition char_limit : nat := 160.

Definition word_boundary (m : text) (i : nat) : bool :=
  (i =? 0)%nat || (length m <=? i)%nat
  || match m !! (i - 1)%nat with Some c => is_blank c | None => false end
  || match m !! i with Some c => is_blank c | None => false end.

(** Drops the letters of an unfinished word from the end of a reversed
    prefix; nothing is left of a prefix without a blank. *)
Fixpoint drop_partial_word (reversed : text) : text :=
  match reversed with
  | [] => []
  | c :: rest => if is_blank c then reversed else drop_partial_word rest
  end.

(** Modelled from the spec: the longest prefix of at most [limit]
    characters that ends at a word boundary. *)
Definition cut_at_word (limit : nat) (m : text) : text :=
  let kept := take limit m in
  match m !! limit with
  | None => kept
  | Some c => if is_blank c then kept else rev (drop_partial_word (rev kept))
  end.

(** Modelled from the spec: a variant that fits is kept as it is; a longer
    one is cut and the cut is reported. *)
Definition fit (limit : nat) (m : text) : text * bool :=
  if (length m <=? limit)%nat then (m, false) else (cut_at_word limit m, true).

Inductive status := sent | failed.

(** Modelled from the spec: the Alert entity (section 3), with the flag the
    length rule sets. *)
Record alert := Alert {
  disaster : nat;
  tier : nat;
  message_en : text;
  message_sw : text;
  truncated : bool;
  recipients : nat;
  state : status }.

(** Modelled from the spec: the alert built from the two variants the AI
    collaborator returned; an over-length variant never rejects it. *)
Definition compose (d t : nat) (en sw : text) (n : nat) (s : status) : alert :=
  {| disaster := d; tier := t;
     message_en := fst (fit char_limit en);
     message_sw := fst (fit char_limit sw);
     truncated := snd (fit char_limit en) || snd (fit char_limit sw);
     recipients := n; state := s |}.

(** The scenario of section 8: an English variant of 210 characters. *)
Definition long_english : text :=
  String.list_ascii_of_string
    "FLOOD ALERT Tana River: water is rising fast near Garissa road. Move to higher ground now. Refuge is open at Hola Primary School and Bura Health Centre. Carry water, medicines and documents. Avoid every bridge.".

Definition short_swahili : text :=
  String.list_ascii_of_string "TAHADHARI YA MAFURIKO Tana River: hamia sehemu za juu sasa.".

(** *** Concurrent dispatch requests *)

Inductive outcome :=
  | Delivered          (* this request's send was accepted *)
  | GaveUp             (* retries exhausted, the alert stays failed *)
  | AlreadySatisfied   (* an alert exists for the disaster and tier *)
  | NotActive.         (* the disaster is not active *)

(** Where a dispatch request stands. From [Checking] to the step that
    finishes it, the request holds the mutex of its disaster. *)
Inductive phase :=
  | Waiting
  | Checking
  | Sending (en sw : text)
  | Retrying (budget : nat)
  | Finished (o : outcome).

Record request := Request { about : nat; round : nat; at_phase : phase }.

(** Modelled from the spec: the store and the mutexes keyed on disaster
    identity (section 5); [holder] maps a locked disaster to the index of the
    request that holds its mutex. *)
Record system := System {
  active : gset nat;
  retries : nat;
  holder : gmap nat nat;
  alerts : list alert;
  pool : list request }.

(** What the collaborators answer during one step: the two variants of the
    AI collaborator, and the SMS collaborator's count of accepted
    recipients, or [None] for its error. *)
Record answers := Answers { ai_en : text; ai_sw : text; sms : option nat }.

Definition in_critical (p : phase) : bool :=
  match p with
  | Checking | Sending _ _ | Retrying _ => true
  | Waiting | Finished _ => false
  end.

Definition concerns (d t : nat) (a : alert) : bool :=
  (disaster a =? d)%nat && (tier a =? t)%nat.

Definition is_sent (a : alert) : bool :=
  match state a with sent => true | failed => false end.

Definition mark_sent (d t n : nat) (a : alert) : alert :=
  if concerns d t a
  then {| disaster := disaster a; tier := tier a; message_en := message_en a;
          message_sw := message_sw a; truncated := truncated a;
          recipients := n; state := sent |}
  else a.

Definition move (s : system) (i : nat) (r : request) (p : phase)
    (h : gmap nat nat) (al : list alert) : system :=
  {| active := active s; retries := retries s; holder := h; alerts := al;
     pool := <[i := {| about := about r; round := round r; at_phase := p |}]>
               (pool s) |}.

(** Modelled from the spec: one step of request [i] (section 4.5). [None]
    when the request cannot move: it does not exist, it has finished, or
    it waits for a mutex that is held. *)
Definition step (s : system) (i : nat) (w : answers) : option system :=
  r ← pool s !! i;
  let d := about r in
  let t := round r in
  match at_phase r with
  | Waiting =>
      match holder s !! d with
      | Some _ => None
      | None => Some (move s i r Checking (<[d := i]> (holder s)) (alerts s))
      end
  | Checking =>
      if negb (bool_decide (d ∈ active s)) then
        Some (move s i r (Finished NotActive) (delete d (holder s)) (alerts s))
      else if existsb (concerns d t) (alerts s) then
        Some (move s i r (Finished AlreadySatisfied) (delete d (holder s))
                (alerts s))
      else Some (move s i r (Sending (ai_en w) (ai_sw w)) (holder s) (alerts s))
  | Sending en sw =>
      match sms w with
      | Some n =>
          Some (move s i r (Finished Delivered) (delete d (holder s))
                  (alerts s ++ [compose d t en sw n sent]))
      | None =>
          Some (move s i r (Retrying (retries s)) (holder s)
                  (alerts s ++ [compose d t en sw 0 failed]))
      end
  | Retrying O =>
      Some (move s i r (Finished GaveUp) (delete d (holder s)) (alerts s))
  | Retrying (S budget) =>
      match sms w with
      | Some n =>
          Some (move s i r (Finished Delivered) (delete d (holder s))
                  (mark_sent d t n <$> alerts s))
      | None => Some (move s i r (Retrying budget) (holder s) (alerts s))
      end
  | Finished _ => None
  end.

(** A schedule names, step after step, the request that moves and what the
    collaborators answer it; a step that cannot be taken is skipped. *)
Fixpoint run (s : system) (schedule : list (nat * answers)) : system :=
  match schedule with
  | [] => s
  | (i, w) :: rest => run (default s (step s i w)) rest
  end.

(** Dispatch requests issued together, each for a disaster and a tier. *)
Definition arrivals (act : gset nat) (budget : nat) (stored : list alert)
    (targets : list (nat * nat)) : system :=
  {| active := act; retries := budget; holder := ∅; alerts := stored;
     pool := (fun x => {| about := x.1; round := x.2; at_phase := Waiting |})
               <$> targets |}.

(** [n] requests for the same disaster and tier, issued together. *)
Definition burst (act : gset nat) (budget : nat) (stored : list alert)
    (d t n : nat) : system :=
  arrivals act budget stored (replicate n (d, t)).

(** How many elements of a list pass a test. *)
Fixpoint count {A} (f : A -> bool) (l : list A) : nat :=
  match l with
  | [] => 0
  | x :: rest => (if f x then 1 else 0) + count f rest
  end.

Definition sent_concerning (d t : nat) (a : alert) : bool :=
  concerns d t a && is_sent a.

Definition delivered_for (d t : nat) (r : request) : bool :=
  (about r =? d)%nat && (round r =? t)%nat
  && match at_phase r with Finished Delivered => true | _ => false end.

(** The alerts of a disaster and tier that reached [sent]. *)
Definition sent_for (d t : nat) (s : system) : nat :=
  count (sent_concerning d t) (alerts s).

(** The requests for a disaster and tier whose send was accepted. *)
Definition delivered_by (d t : nat) (s : system) : nat :=
  count (delivered_for d t) (pool s).

Definition is_finished (r : request) : bool :=
  match at_phase r with Finished _ => true | _ => false end.

Definition all_finished (s : system) : bool := forallb is_finished (pool s).

(** Normal operation: the SMS collaborator accepts every send. *)
Definition normal (schedule : list (nat * answers)) : bool :=
  forallb (fun x => match sms (snd x) with Some _ => true | None => false end)
    schedule.

(** The moves of [step], one by one: the phase the request comes to, the
    mutex table and the alerts after the move. *)
Inductive transition (s : system) (i : nat) (r : request) (w : answers)
    : phase -> gmap nat nat -> list alert -> Prop :=
  | acquires :
      at_phase r = Waiting -> holder s !! about r = None ->
      transition s i r w Checking (<[about r := i]> (holder s)) (alerts s)
  | finds_inactive :
      at_phase r = Checking -> about r ∉ active s ->
      transition s i r w (Finished NotActive) (delete (about r) (holder s))
        (alerts s)
  | finds_alert :
      at_phase r = Checking -> about r ∈ active s ->
      existsb (concerns (about r) (round r)) (alerts s) = true ->
      transition s i r w (Finished AlreadySatisfied)
        (delete (about r) (holder s)) (alerts s)
  | composes :
      at_phase r = Checking -> about r ∈ active s ->
      existsb (concerns (about r) (round r)) (alerts s) = false ->
      transition s i r w (Sending (ai_en w) (ai_sw w)) (holder s) (alerts s)
  | sends en sw n :
      at_phase r = Sending en sw -> sms w = Some n ->
      transition s i r w (Finished Delivered) (delete (about r) (holder s))
        (alerts s ++ [compose (about r) (round r) en sw n sent])
  | fails en sw :
      at_phase r = Sending en sw -> sms w = None ->
      transition s i r w (Retrying (retries s)) (holder s)
        (alerts s ++ [compose (about r) (round r) en sw 0 failed])
  | gives_up :
      at_phase r = Retrying 0 ->
      transition s i r w (Finished GaveUp) (delete (about r) (holder s))
        (alerts s)
  | retry_sends budget n :
      at_phase r = Retrying (S budget) -> sms w = Some n ->
      transition s i r w (Finished Delivered) (delete (about r) (holder s))
        (mark_sent (about r) (round r) n <$> alerts s)
  | retry_fails budget :
      at_phase r = Retrying (S budget) -> sms w = None ->
      transition s i r w (Retrying budget) (holder s) (alerts s).

(** Mutual exclusion: the mutex of a disaster is held by request [i]
    exactly when request [i] is in its critical section for that disaster. *)
Definition exclusive (s : system) : Prop :=
  forall d i,
    holder s !! d = Some i
    <-> exists r, pool s !! i = Some r /\ about r = d
                  /\ in_critical (at_phase r) = true.

(** At most one alert per disaster and tier. *)
Definition unique_alerts (s : system) : Prop :=
  forall d t, (count (concerns d t) (alerts s) <= 1)%nat.

(** What a request in its critical section knows of the alerts of its
    disaster and tier: none while it sends, one failed alert while it
    retries. *)
Definition informed (s : system) : Prop :=
  forall i r,
    pool s !! i = Some r ->
    match at_phase r with
    | Sending _ _ =>
        count (concerns (about r) (round r)) (alerts s) = 0%nat
    | Retrying _ =>
        count (concerns (about r) (round r)) (alerts s) = 1%nat
        /\ count (sent_concerning (about r) (round r)) (alerts s) = 0%nat
    | _ => True
    end.

Definition sound (s : system) : Prop :=
  exclusive s /\ unique_alerts s /\ informed s.

(** What is left for a request to do, at most. *)
Definition weight (budget : nat) (r : request) : nat :=
  match at_phase r with
  | Waiting => budget + 4
  | Checking => budget + 3
  | Sending _ _ => budget + 2
  | Retrying b => b + 1
  | Finished _ => 0
  end.

Definition work_left (s : system) : nat :=
  sum_list (weight (retries s) <$> pool s).

(** A request for an active disaster that has finished leaves an alert
    for its disaster and tier behind, its own or an earlier one. *)
Definition settled (d t : nat) (s : system) : Prop :=
  forall j r, pool s !! j = Some r -> about r = d -> round r = t ->
              is_finished r = true ->
              (1 <= count (concerns d t) (alerts s))%nat.

(** The disaster and tier a request is for. *)
Definition target (r : request) : nat * nat := (about r, round r).

End AlertDispatcher.

(** ** The Analysis Cache *)

Module AnalysisCache.

(** Modelled from the spec: the key of a cache entry (section 3): subject
    identity, subject fingerprint and analysis kind, the kinds numbered
    (risk scoring, prediction, alert text, dispatch rationale). *)
Definition key : Type := nat * nat * nat.

(** Modelled from the spec: the AnalysisCacheEntry entity (section 3); the
    value is the structured output of the AI collaborator as text. An
    entry is never deleted nor overwritten. *)
Record entry := Entry {
  entry_key : key;
  value : string;
  generated_at : nat;
  expiry : option nat }.

Definition fresh (now : nat) (e : entry) : bool :=
  match expiry e with
  | None => true
  | Some limit => (now <? limit)%nat
  end.

(** Modelled from the spec: the live entry of a key (sections 3 and 4.2):
    the latest stored one, if it has not expired; stale entries stay in
    the list. *)
Definition live (now : nat) (k : key) (entries : list entry) : option entry :=
  match filter (fun e => entry_key e = k) (rev entries) with
  | e :: _ => if fresh now e then Some e else None
  | [] => None
  end.

(** Where a call of [get_or_compute] stands. *)
Inductive phase :=
  | Calling                 (* has not looked the key up yet *)
  | Awaiting                (* waits for the computation in flight *)
  | Computing               (* runs compute_fn *)
  | Returned (v : string).

Record caller := Caller { wants : key; at_phase : phase }.

(** Modelled from the spec: the cache within one process (sections 4.2 and
    5). [in_flight] maps a key to the caller that computes it, [upstream]
    lists the invocations of compute_fn. The clock stands still while the
    calls of a burst run. *)
Record cache := Cache {
  now : nat;
  lifetime : option nat;
  entries : list entry;
  in_flight : gmap key nat;
  upstream : list key;
  callers : list caller }.

Definition store (s : cache) (k : key) (v : string) : list entry :=
  entries s ++ [{| entry_key := k; value := v; generated_at := now s;
                   expiry := (fun l => now s + l)%nat <$> lifetime s |}].

(** A waiter for key [k] takes the result of the computation it waited for. *)
Definition wake (k : key) (v : string) (c : caller) : caller :=
  match at_phase c with
  | Awaiting =>
      if bool_decide (wants c = k)
      then {| wants := wants c; at_phase := Returned v |}
      else c
  | _ => c
  end.

(** Modelled from the spec: one step of the [get_or_compute] call of caller
    [i] (section 4.2); [v] is what compute_fn returns if this step
    completes it. [None] when the caller cannot move by itself. *)
Definition step (s : cache) (i : nat) (v : string) : option cache :=
  c ← callers s !! i;
  let k := wants c in
  match at_phase c with
  | Calling =>
      match live (now s) k (entries s) with
      | Some e =>
          Some {| now := now s; lifetime := lifetime s; entries := entries s;
                  in_flight := in_flight s; upstream := upstream s;
                  callers := <[i := {| wants := k;
                                       at_phase := Returned (value e) |}]>
                               (callers s) |}
      | None =>
          match in_flight s !! k with
          | Some _ =>
              Some {| now := now s; lifetime := lifetime s;
                      entries := entries s; in_flight := in_flight s;
                      upstream := upstream s;
                      callers := <[i := {| wants := k; at_phase := Awaiting |}]>
                                   (callers s) |}
          | None =>
              Some {| now := now s; lifetime := lifetime s;
                      entries := entries s;
                      in_flight := <[k := i]> (in_flight s);
                      upstream := upstream s ++ [k];
                      callers := <[i := {| wants := k; at_phase := Computing |}]>
                                   (callers s) |}
          end
      end
  | Computing =>
      Some {| now := now s; lifetime := lifetime s; entries := store s k v;
              in_flight := delete k (in_flight s); upstream := upstream s;
              callers := <[i := {| wants := k; at_phase := Returned v |}]>
                           (wake k v <$> callers s) |}
  | Awaiting | Returned _ => None
  end.

(** A schedule names, step after step, the caller that moves and the value
    compute_fn would return to it; a step that cannot be taken is skipped. *)
Fixpoint run (s : cache) (schedule : list (nat * string)) : cache :=
  match schedule with
  | [] => s
  | (i, v) :: rest => run (default s (step s i v)) rest
  end.

(** [n] calls with the same key, issued together. *)
Definition burst (clock : nat) (ttl : option nat) (stored : list entry)
    (k : key) (n : nat) : cache :=
  {| now := clock; lifetime := ttl; entries := stored; in_flight := ∅;
     upstream := []; callers := replicate n {| wants := k; at_phase := Calling |} |}.

Definition invocations (k : key) (s : cache) : nat :=
  length (filter (fun k' => k' = k) (upstream s)).

Definition has_returned (c : caller) : bool :=
  match at_phase c with Returned _ => true | _ => false end.

Definition all_returned (s : cache) : bool := forallb has_returned (callers s).

(** How a key stands in the cache: nothing known and nothing running, a
    computation in flight run by one caller, or a live entry. *)
Inductive standing :=
  | Cold
  | Flying (by_caller : nat)
  | Warm (e : entry).

(** What holds of a key all along a run: the callers of the key are where
    its standing lets them be, and compute_fn was invoked once as soon as
    the key is no longer cold; [cold] tells whether the run found the key
    cold, and a key found warm is never computed. *)
Definition consistent (cold : bool) (k : key) (s : cache) (st : standing)
    : Prop :=
  match st with
  | Cold =>
      live (now s) k (entries s) = None /\ in_flight s !! k = None
      /\ invocations k s = 0%nat
      /\ forall j c, callers s !! j = Some c -> wants c = k ->
                     at_phase c = Calling
  | Flying i =>
      live (now s) k (entries s) = None /\ in_flight s !! k = Some i
      /\ invocations k s = 1%nat
      /\ (exists c, callers s !! i = Some c /\ wants c = k
                    /\ at_phase c = Computing)
      /\ forall j c, callers s !! j = Some c -> wants c = k ->
                     at_phase c = Calling \/ at_phase c = Awaiting
                     \/ (at_phase c = Computing /\ j = i)
  | Warm e =>
      live (now s) k (entries s) = Some e /\ in_flight s !! k = None
      /\ (invocations k s = 1%nat
          \/ (cold = false /\ invocations k s = 0%nat))
      /\ forall j c, callers s !! j = Some c -> wants c = k ->
                     at_phase c = Calling \/ at_phase c = Returned (value e)
  end.

(** What is left for a call to do, at most. *)
Definition weight (c : caller) : nat :=
  match at_phase c with
  | Calling => 3
  | Computing => 2
  | Awaiting => 1
  | Returned _ => 0
  end.

Definition work_left (s : cache) : nat := sum_list (weight <$> callers s).

(** What holds all along a run that found a live entry [e] for the key:
    the entry stays the live one, nothing is computed for the key, and each
    call for it has not looked yet or has returned the value of [e]. *)
Definition served (k : key) (e : entry) (s : cache) : Prop :=
  live (now s) k (entries s) = Some e
  /\ invocations k s = 0%nat
  /\ forall j c, callers s !! j = Some c -> wants c = k ->
                 at_phase c = Calling \/ at_phase c = Returned (value e).

(** The steps of a schedule that are taken, the skipped ones left out. *)
Fixpoint taken (s : cache) (schedule : list (nat * string)) : nat :=
  match schedule with
  | [] => 0
  | (i, v) :: rest =>
      match step s i v with
      | Some s' => S (taken s' rest)
      | None => taken s rest
      end
  end.

(** Modelled from the spec: the property of section 8 as it is worded,
    for any cache content: once the [n] calls of a burst have returned,
    compute_fn has been invoked exactly once and the results are
    identical. *)
Definition one_invocation_for_all (clock : nat) (ttl : option nat)
    (stored : list entry) (k : key) (n : nat) : Prop :=
  forall schedule,
    let s := run (burst clock ttl stored k n) schedule in
    all_returned s = true ->
    invocations k s = 1%nat
    /\ exists v, forall c, c ∈ callers s -> at_phase c = Returned v.

(** Modelled from the spec: [get_or_compute(key, compute_fn)] of a single
    caller (section 4.2): the live entry if there is one, else the value
    computed, stored as a new entry. The flag tells whether compute_fn was
    invoked. *)
Definition get_or_compute (s : cache) (k : key) (compute_fn : unit -> string)
    : list entry * string * bool :=
  match live (now s) k (entries s) with
  | Some e => (entries s, value e, false)
  | None => let v := compute_fn tt in (store s k v, v, true)
  end.

End AnalysisCache.

(** ** The Collector's threshold rules *)

Module Collector.

Inductive source := weather | fire | seismic | forecast | field_report.

Inductive kind := flood | wildfire | earthquake | drought | landslide | other.

Inductive origin := auto_detected | field_reported.

Inductive status := active | resolved.

#[global] Instance kind_eq_dec : EqDecision kind.
Proof. solve_decision. Defined.

#[global] Instance status_eq_dec : EqDecision status.
Proof. solve_decision. Defined.

(** Modelled from the spec: the Observation entity (section 3); of the
    payload, the reading a threshold rule compares (rainfall, number of
    fire hotspots, seismic magnitude in tenths). *)
Record observation := Observation {
  source_kind : source;
  seen_in : nat;
  reading : Z;
  collected_at : nat;
  fingerprint : nat }.

(** Modelled from the spec: the Disaster entity (section 3), with the
    fields the rules read or write. *)
Record disaster := Disaster {
  id : nat;
  type : kind;
  region : nat;
  came_from : origin;
  state : status;
  reported_at : nat }.

Record thresholds := Thresholds { rainfall : Z; hotspots : Z; magnitude : Z }.

(** Modelled from the spec: the threshold rules (section 4.1): rainfall
    above X, hotspot count above Y, seismic magnitude above Z. *)
Definition rule (th : thresholds) (o : observation) : option kind :=
  match source_kind o with
  | weather => if rainfall th <? reading o then Some flood else None
  | fire => if hotspots th <? reading o then Some wildfire else None
  | seismic => if magnitude th <? reading o then Some earthquake else None
  | forecast | field_report => None
  end.

Definition is_open (r : nat) (k : kind) (d : disaster) : bool :=
  bool_decide (state d = active) && bool_decide (type d = k)
  && (region d =? r)%nat.

(** Modelled from the spec: what the Collector does with one Observation
    once the adapters are done (section 4.1): a Disaster is created when
    the reading is above its threshold and no open Disaster of that type
    exists for the region. *)
Definition evaluate (th : thresholds) (store : list disaster) (o : observation)
    : list disaster :=
  match rule th o with
  | Some k =>
      if existsb (is_open (seen_in o) k) store then store
      else store ++ [{| id := length store; type := k; region := seen_in o;
                        came_from := auto_detected; state := active;
                        reported_at := collected_at o |}]
  | None => store
  end.

(** Modelled from the spec: the rule evaluation that ends a Collector
    cycle (section 4.1), applied to the Observations of the cycle in order. *)
Definition cycle (th : thresholds) (store : list disaster)
    (observations : list observation) : list disaster :=
  fold_left (evaluate th) observations store.

Definition open_count (r : nat) (k : kind) (store : list disaster) : nat :=
  length (filter (is_open r k) store).

Definition qualifies (th : thresholds) (r : nat) (k : kind) (o : observation)
    : bool :=
  (seen_in o =? r)%nat && bool_decide (rule th o = Some k).

(** The scenario of section 8: the region "Tana River" and two readings of
    rainfall above the threshold. *)
Definition tana_river : nat := 4.

Definition limits : thresholds :=
  {| rainfall := 50; hotspots := 10; magnitude := 45 |}.

Definition heavy_rain : observation :=
  {| source_kind := weather; seen_in := tana_river; reading := 82;
     collected_at := 1800; fingerprint := 771 |}.

Definition heavier_rain : observation :=
  {| source_kind := weather; seen_in := tana_river; reading := 96;
     collected_at := 3600; fingerprint := 905 |}.

End Collector.

(** ** The Dispatch Recommender *)

Module Recommender.

Inductive availability := available | deployed.

#[global] Instance availability_eq_dec : EqDecision availability.
Proof. solve_decision. Defined.

Definition coordinates : Type := Z * Z.

(** Modelled from the spec: the Worker entity (section 3). *)
Record worker := Worker {
  id : nat;
  role : string;
  home : nat;
  status : availability;
  current_disaster : option nat;
  position : coordinates }.

(** Modelled from the spec: what the ranking takes from outside (section
    4.6): the distance between two positions in metres, which roles suit
    which type of disaster, the two weights, and the range beyond which a
    worker counts as far. *)
Record policy := Policy {
  distance : coordinates -> coordinates -> Z;
  suits : string -> Collector.kind -> bool;
  role_weight : Z;
  distance_weight : Z;
  range : Z }.


(** Closeness, from 0 (at the range or beyond) up to the range (on the spot). *)
Definition closeness (p : policy) (m : Z) : Z := range p - Z.max 0 (Z.min m (range p)).

(** Modelled from the spec: the composite score (section 4.6). *)
Definition score (p : policy) (k : Collector.kind) (site : coordinates)
    (w : worker) : Z :=
  role_weight p * (if suits p (role w) k then range p else 0)
  + distance_weight p * closeness p (distance p (position w) site).


Definition better (p : policy) (k : Collector.kind) (site : coordinates)
    : relation worker :=
  fun a b => score p k site b <= score p k site a.

#[global] Instance better_dec p k site : RelDecision (better p k site).
Proof. intros a b. unfold better. apply _. Defined.








End Recommender.

(** * Properties *)

Ltac eff_unfold :=
  unfold mbind, mret, eff_bind, eff_ret, Eff.bind, Eff.ret, Eff.finally,
    Eff.try_catch, Eff.lift, Eff.modify, Http.update, Http.perform.

(** ** The download script *)

Section DownloadFacts.
Import Download.

Lemma fallback_is_primary : String.eqb url fallbackUrl = true.
Proof. reflexivity. Qed.

(** Two levels of calls are enough for any call of [download]: the second
    level is entered with the fallback URL, where a failure ends the run. *)
Lemma download_returns net k u dest cb :
  is_Some (download 2 net k u dest cb).
Proof.
  cbn [download]. destruct (net k) as [m | c | m]; [eauto | | eauto].
  destruct (negb (c =? 200)); [| eauto].
  destruct (String.eqb u fallbackUrl); [eauto |].
  destruct (net (S k)) as [m' | c' | m']; [cbn; eauto | | cbn; eauto].
  destruct (negb (c' =? 200)); [| cbn; eauto].
  rewrite String.eqb_refl. cbn. eauto.
Qed.

(** A primary request answered 200: the file is written, then the callback
    prints. *)
Example download_succeeds :
  main (fun _ => Response 200)
  = Some [Log [Text "Downloading from:"; Text url]; Get url;
          Written "./public/kenya-counties.json";
          Log [Text "Downloaded successfully to";
               Text "./public/kenya-counties.json"];
          Log [Text "Done"]].
Proof. reflexivity. Qed.

(** A request that emits an error: the error is logged and the callback
    is never called. *)
Example download_error :
  main (fun _ => Failed "ENOTFOUND")
  = Some [Log [Text "Downloading from:"; Text url]; Get url;
          LogError [Text "Error:"; Text "ENOTFOUND"]].
Proof. reflexivity. Qed.

(** A response 200 whose file cannot be opened: the stream's error has no
    listener, the run ends there, without the file and without "Done". *)
Example download_broken :
  main (fun _ => Broken "ENOENT")
  = Some [Log [Text "Downloading from:"; Text url]; Get url;
          Uncaught "ENOENT"].
Proof. reflexivity. Qed.

(** C9, as stated, fails: when every request is answered 404, the run makes
    one request, not two; no fallback attempt follows the primary one. *)
Lemma both_fail_run_refuted : ~ both_fail_run (fun _ => Response 404).
Proof.
  intros H.
  destruct (H 404 404 eq_refl ltac:(lia) eq_refl ltac:(lia))
    as (t & Hmain & Hreq & _).
  vm_compute in Hmain. injection Hmain as <-.
  vm_compute in Hreq. discriminate Hreq.
Qed.

(** C9, amended: when the primary request is answered with a status other
    than 200, the run is over after that one request: the failure is
    logged, the callback prints "Done", no file is written, and no fallback
    request is made, because the fallback URL is the primary URL. *)
Theorem primary_failure_ends_run (net : nat -> outcome) (c : Z) :
  net 0%nat = Response c -> c <> 200 ->
  fallbackUrl = url /\
  main net = Some [Log [Text "Downloading from:"; Text url]; Get url;
                   Log [Text "Failed:"; Code c]; Log [Text "Done"]] /\
  (forall t, main net = Some t ->
             requests t = [Get url] /\ done_printed t /\ nothing_written t).
Proof.
  intros Hnet Hc.
  assert (Hmain : main net
                  = Some [Log [Text "Downloading from:"; Text url]; Get url;
                          Log [Text "Failed:"; Code c]; Log [Text "Done"]]).
  { unfold main. cbn [download]. rewrite Hnet.
    destruct (Z.eqb_spec c 200) as [-> | _]; [lia |].
    cbn [negb]. rewrite String.eqb_refl. reflexivity. }
  split; [reflexivity | split; [exact Hmain |]].
  intros t Ht. rewrite Hmain in Ht. injection Ht as <-.
  split; [reflexivity | split; [| reflexivity]].
  unfold done_printed. set_solver.
Qed.

Lemma primary_failure_ends_run_witness :
  fallbackUrl = url /\
  main (fun _ => Response 503)
  = Some [Log [Text "Downloading from:"; Text url]; Get url;
          Log [Text "Failed:"; Code 503]; Log [Text "Done"]] /\
  (forall t, main (fun _ => Response 503) = Some t ->
             requests t = [Get url] /\ done_printed t /\ nothing_written t).
Proof.
  apply (primary_failure_ends_run (fun _ => Response 503) 503).
  - reflexivity.
  - lia.
Defined.

End DownloadFacts.

(** ** The alert console *)

Section AlertConsoleFacts.
Import Js Http AlertConsole.

(** The three ways a click with a disaster selected can go. *)
Lemma click_outcomes api send alerts st :
  is_empty (disId st) = false ->
  let failure := {| msg := "❌ Failed to send alert"; type := "error" |} in
  let history v :=
    match json_of alerts with inr l => l | inl _ => pastAlerts v end in
  match json_of send with
  | inl _ =>
      click api send alerts st
      = {| ui := setGenerating false
                   (setToast (Some failure) (setPreview Null st));
           effects := [send_request api st; Timer 4000] |}
  | inr data =>
      click api send alerts st
      = {| ui := setGenerating false
                   (setToast
                      (Some match get data "recipients" with
                            | inr n =>
                                match sent_message n with
                                | inr m => {| msg := m; type := "success" |}
                                | inl _ => failure
                                end
                            | inl _ => failure
                            end)
                      (setPastAlerts (history st) (setPreview data st)));
           effects := [send_request api st; GetReq (api +:+ "/alerts");
                       Timer 4000] |}
  end.
Proof.
  intros He failure history. unfold click, generatePreview, showToast,
    refreshAlerts. cbn [ui]. rewrite He. subst history.
  destruct (json_of send) as [e | data]; eff_unfold; cbn; [done |].
  destruct (json_of alerts) as [e' | l]; cbn;
    destruct (get data "recipients") as [e'' | n]; cbn; try done;
    destruct (sent_message n) as [e3 | m]; cbn; done.
Qed.

Lemma click_effects api send alerts st :
  is_empty (disId st) = false ->
  exists rest,
    effects (click api send alerts st) = send_request api st :: rest
    /\ Forall (fun e => is_post e = false) rest.
Proof.
  intros He. pose proof (click_outcomes api send alerts st He) as Hw.
  cbn zeta in Hw.
  destruct (json_of send) as [e | data]; rewrite Hw; cbn [effects];
    (eexists; split; [reflexivity | repeat constructor]).
Qed.

Lemma no_post_no_send api rest :
  Forall (fun e => is_post e = false) rest ->
  filter is_post rest = [] /\ filter (is_send api) rest = [].
Proof.
  induction 1 as [| e rest He _ [IH1 IH2]]; [done |].
  split.
  - rewrite filter_cons_False; [done |]. rewrite He. cbn. tauto.
  - rewrite filter_cons_False; [done |].
    destruct e; cbn in *; try tauto. discriminate He.
Qed.

(** C1, as stated, fails: with disaster 1 selected, the handler behind the
    preview posts to the send endpoint. *)
Lemma preview_sends_nothing_refuted :
  ~ preview_sends_nothing "http://localhost:8000"
      (Reply 200 (Some (Obj [("recipients", Num (Int 3))])))
      (Reply 200 (Some (Arr []))) (choose "1" initial).
Proof. unfold preview_sends_nothing. vm_compute. discriminate. Qed.

(** C1, amended: the console has one operation for preview and send. With
    no disaster selected it does nothing; with one selected, whatever the
    replies, it makes exactly one POST, to the send endpoint, with the id
    of the disaster. *)
Theorem generatePreview_posts_to_send (api : string) (send alerts : reply)
    (st : state) :
  if is_empty (disId st)
  then click api send alerts st = {| ui := st; effects := [] |}
  else filter is_post (effects (click api send alerts st))
         = [send_request api st]
       /\ filter (is_send api) (effects (click api send alerts st))
         = [send_request api st].
Proof.
  destruct (is_empty (disId st)) eqn:He.
  - unfold click, generatePreview. cbn [ui]. by rewrite He.
  - destruct (click_effects api send alerts st He) as (rest & -> & Hrest).
    destruct (no_post_no_send api rest Hrest) as [H1 H2].
    split.
    + rewrite filter_cons_True; [by rewrite H1 | done].
    + rewrite filter_cons_True; [by rewrite H2 |].
      cbn. by rewrite String.eqb_refl.
Qed.

Lemma get_not_nullish data k :
  nullish data = false -> exists v, get data k = inr v.
Proof. destruct data; cbn; intros; try discriminate; eauto. Qed.

Lemma length_of_or_text v : exists n, length_of (or v (Str "")) = inr n.
Proof. unfold or. destruct v as [| | [] | [| z | t] | | |]; cbn; eauto;
  repeat case_match; cbn; eauto. Qed.

(** C10, as stated, fails: the body [null] is JSON; reading [recipients]
    from it throws, the failure toast is shown and the pane stays empty. *)
Lemma json_reply_shown_as_sent_refuted :
  ~ json_reply_shown_as_sent "http://localhost:8000" 200 Null
      (Reply 200 (Some (Arr []))) (choose "1" initial).
Proof.
  intros [(m & Htoast) _]. vm_compute in Htoast. discriminate Htoast.
Qed.

Lemma null_reply_reported_failed :
  let st' := ui (click "http://localhost:8000" (Reply 200 (Some Null))
                   (Reply 200 (Some (Arr []))) (choose "1" initial)) in
  toast st' = Some {| msg := "❌ Failed to send alert"; type := "error" |}
  /\ preview_pane st' = inr EmptyState.
Proof. split; reflexivity. Qed.

Lemma click_json_reply api status data alerts st n :
  is_empty (disId st) = false -> get data "recipients" = inr n ->
  let st' := ui (click api (Reply status (Some data)) alerts st) in
  toast st'
  = Some match sent_message n with
         | inr m => {| msg := m; type := "success" |}
         | inl _ => {| msg := "❌ Failed to send alert"; type := "error" |}
         end
  /\ preview st' = data /\ generating st' = false
  /\ disasters st' = disasters st /\ disId st' = disId st.
Proof.
  intros He Hn st'. subst st'.
  pose proof (click_outcomes api (Reply status (Some data)) alerts st He)
    as Hw.
  cbn zeta in Hw. cbn [json_of] in Hw. rewrite Hw, Hn. done.
Qed.

(** The length shown under a message React accepts is one it accepts. *)
Lemma renderable_length v n :
  renderable v = true -> length_of (or v (Str "")) = inr n ->
  renderable n = true.
Proof.
  unfold or. destruct v as [| | [] | [| z | t] | s | items | fields];
    cbn; try discriminate; intros _;
    repeat case_match; cbn; intros [= <-]; done.
Qed.

(** What is on the screen is what the parts of the render give. *)
Lemma screen_shows st v :
  screen st = Some v ->
  shown_toast v = toast st /\ preview_pane st = inr (right_pane v)
  /\ history_table st = inr (table v) /\ choices st = inr (options v)
  /\ details st = inr (selected v).
Proof.
  unfold screen.
  destruct (choices st), (details st), (preview_pane st), (history_table st);
    try discriminate.
  by intros [= <-].
Qed.

(** A reply with status 200: the toast counts the recipients, in the
    singular for one. *)
Example one_recipient_toast :
  toast (ui (click "http://localhost:8000"
               (Reply 200 (Some (Obj [("message_en", Str "Flood: move uphill");
                                      ("recipients", Num (Int 1))])))
               Unreachable (choose "4" initial)))
  = Some {| msg := "✅ Alert sent to 1 recipient"; type := "success" |}.
Proof. reflexivity. Qed.

(** A reply whose English message is an object: the toast is set, but
    React throws on the object and nothing of the console is shown. *)
Example object_message_unmounts :
  let st' := ui (click "http://localhost:8000"
                   (Reply 200 (Some (Obj [("message_en",
                                           Obj [("text", Str "Flood")]);
                                          ("recipients", Num (Int 2))])))
                   Unreachable (choose "4" initial)) in
  toast st' = Some {| msg := "✅ Alert sent to 2 recipients";
                      type := "success" |}
  /\ preview_pane st' = inl RenderError
  /\ screen st' = None.
Proof. repeat split; reflexivity. Qed.

(** A [recipients] that has a [toString] of its own cannot be written into
    the toast: the template throws and the failure toast is shown. *)
Example unprintable_recipients :
  toast (ui (click "http://localhost:8000"
               (Reply 200 (Some (Obj [("recipients",
                                       Obj [("toString", Num (Int 1))])])))
               Unreachable (choose "4" initial)))
  = Some {| msg := "❌ Failed to send alert"; type := "error" |}.
Proof. reflexivity. Qed.

(** C10, amended: for every reply to the send request whose body is a JSON
    value other than [null], whatever its status, the console keeps the
    body as the preview and sets the toast "Alert sent to N recipients",
    with N the body's [recipients] written as a string (a [recipients] that
    cannot be written, an object with a [toString] of its own, gives the
    failure toast). The pane shows the body as a sent alert when the body is
    truthy and its two messages and [recipients] are valid React children;
    it stays empty when the body is falsy ([false], [0] or the empty
    string); when one of the three is an object React throws and the
    console, toast included, is taken off the screen. Whenever the console
    is on the screen it shows that toast and that pane, and it is there
    whenever it was before the click and the pane and the history table
    render. *)
Theorem json_reply_reported_sent (api : string) (status : Z) (data : value)
    (alerts : reply) (st : state) :
  is_empty (disId st) = false -> nullish data = false ->
  let st' := ui (click api (Reply status (Some data)) alerts st) in
  exists n en sw en_chars sw_chars,
    get data "recipients" = inr n
    /\ get data "message_en" = inr en
    /\ get data "message_sw" = inr sw
    /\ length_of (or en (Str "")) = inr en_chars
    /\ length_of (or sw (Str "")) = inr sw_chars
    /\ preview st' = data
    /\ toast st'
       = Some match to_string n with
              | inr count =>
                  {| msg := "✅ Alert sent to " +:+ count +:+ " recipient"
                            +:+ (if strict_neq_num n 1 then "s" else "");
                     type := "success" |}
              | inl _ =>
                  {| msg := "❌ Failed to send alert"; type := "error" |}
              end
    /\ preview_pane st'
       = (if truthy data
          then if renderable en && renderable sw && renderable n
               then inr (SentAlert en en_chars sw sw_chars n
                           (strict_neq_num n 1))
               else inl RenderError
          else inr EmptyState)
    /\ (forall v, screen st' = Some v ->
                  shown_toast v = toast st'
                  /\ preview_pane st' = inr (right_pane v))
    /\ (forall e, preview_pane st' = inl e -> screen st' = None)
    /\ (forall before h p,
          screen st = Some before ->
          history_table st' = inr h -> preview_pane st' = inr p ->
          screen st'
          = Some {| options := options before; selected := selected before;
                    button_disabled := false; button_busy := false;
                    right_pane := p; table := h;
                    shown_toast := toast st' |}).
Proof.
  intros He Hdata st'.
  destruct (get_not_nullish data "recipients" Hdata) as [n Hn].
  destruct (get_not_nullish data "message_en" Hdata) as [en Hen].
  destruct (get_not_nullish data "message_sw" Hdata) as [sw Hsw].
  destruct (length_of_or_text en) as [ec Hec].
  destruct (length_of_or_text sw) as [sc Hsc].
  destruct (click_json_reply api status data alerts st n He Hn)
    as (Htoast & Hprev & Hgen & Hdis & Hid).
  fold st' in Htoast, Hprev, Hgen, Hdis, Hid.
  exists n, en, sw, ec, sc. repeat (split; [done |]).
  split.
  { rewrite Htoast. unfold sent_message. by destruct (to_string n). }
  split.
  { unfold preview_pane. rewrite Hprev.
    destruct (truthy data); cbn [negb]; [| done].
    rewrite Hen, Hsw, Hn, Hec, Hsc.
    destruct (renderable en) eqn:Ren; cbn [andb]; [| done].
    rewrite (renderable_length en ec Ren Hec). cbn [andb].
    destruct (renderable sw) eqn:Rsw; cbn [andb]; [| done].
    by rewrite (renderable_length sw sc Rsw Hsc). }
  split.
  { intros v Hv. by destruct (screen_shows st' v Hv) as (? & ? & _). }
  split.
  { intros e Hp. unfold screen. rewrite Hp.
    by destruct (choices st'), (details st'). }
  intros before h p Hbefore Hh Hp.
  destruct (screen_shows st before Hbefore) as (_ & _ & _ & Hos & Hd).
  unfold screen.
  assert (Hos' : choices st' = inr (options before)).
  { unfold choices. rewrite Hdis. exact Hos. }
  assert (Hd' : details st' = inr (selected before)).
  { unfold details, selectedDisaster. rewrite Hdis, Hid. exact Hd. }
  rewrite Hos', Hd', Hp, Hh. unfold send_disabled.
  by rewrite Hid, He, Hgen.
Qed.

Lemma json_reply_reported_sent_witness :
  let data := Obj [("detail", Str "SMS gateway down")] in
  let st' := ui (click "http://localhost:8000" (Reply 500 (Some data))
                   Unreachable (choose "4" initial)) in
  exists n en sw en_chars sw_chars,
    get data "recipients" = inr n
    /\ get data "message_en" = inr en
    /\ get data "message_sw" = inr sw
    /\ length_of (or en (Str "")) = inr en_chars
    /\ length_of (or sw (Str "")) = inr sw_chars
    /\ preview st' = data
    /\ toast st'
       = Some match to_string n with
              | inr count =>
                  {| msg := "✅ Alert sent to " +:+ count +:+ " recipient"
                            +:+ (if strict_neq_num n 1 then "s" else "");
                     type := "success" |}
              | inl _ =>
                  {| msg := "❌ Failed to send alert"; type := "error" |}
              end
    /\ preview_pane st'
       = (if truthy data
          then if renderable en && renderable sw && renderable n
               then inr (SentAlert en en_chars sw sw_chars n
                           (strict_neq_num n 1))
               else inl RenderError
          else inr EmptyState)
    /\ (forall v, screen st' = Some v ->
                  shown_toast v = toast st'
                  /\ preview_pane st' = inr (right_pane v))
    /\ (forall e, preview_pane st' = inl e -> screen st' = None)
    /\ (forall before h p,
          screen (choose "4" initial) = Some before ->
          history_table st' = inr h -> preview_pane st' = inr p ->
          screen st'
          = Some {| options := options before; selected := selected before;
                    button_disabled := false; button_busy := false;
                    right_pane := p; table := h;
                    shown_toast := toast st' |}).
Proof.
  apply (json_reply_reported_sent "http://localhost:8000" 500
           (Obj [("detail", Str "SMS gateway down")]) Unreachable
           (choose "4" initial)); reflexivity.
Defined.

(** The error reply of the witness, on the screen: the success toast and
    the pane of a sent alert, without messages and without a count. *)
Example error_reply_on_screen :
  screen (ui (click "http://localhost:8000"
                (Reply 500 (Some (Obj [("detail", Str "SMS gateway down")])))
                Unreachable (choose "4" initial)))
  = Some {| options := []; selected := None; button_disabled := false;
            button_busy := false;
            right_pane := SentAlert Undefined (Num (Int 0)) Undefined
                            (Num (Int 0)) Undefined true;
            table := NoAlerts;
            shown_toast :=
              Some {| msg := "✅ Alert sent to undefined recipients";
                      type := "success" |} |}.
Proof. reflexivity. Qed.

End AlertConsoleFacts.

(** ** The AI report panel *)

Section AIReportFacts.
Import Js Http AIReport.

(** A rejected request, whichever of the two, ends the refresh in the
    [catch]: no cell but [loading] is written. *)
Lemma refresh_rejected api national predict st :
  failed national \/ failed predict ->
  refresh api national predict st = setLoading false st.
Proof.
  intros Hf. unfold refresh, loadAll. eff_unfold.
  assert (Hall : exists e, promise_all (json_of national) (json_of predict) = inl e).
  { unfold promise_all.
    destruct Hf as [[e ->] | [e ->]]; [eauto |].
    destruct (json_of national); eauto. }
  destruct Hall as [e ->]. reflexivity.
Qed.

Lemma refresh_resolved api national predict st natRes predRes r s g p :
  json_of national = inr natRes -> json_of predict = inr predRes ->
  get natRes "report" = inr r -> get natRes "stats" = inr s ->
  get natRes "generated_at" = inr g -> get predRes "predictions" = inr p ->
  refresh api national predict st
  = {| report := r; predictions := or p (Arr []); stats := s;
       loading := false; tab := tab st; generatedAt := g |}.
Proof.
  intros Hn Hp Hr Hs Hg Hpp. unfold refresh, loadAll. eff_unfold.
  rewrite Hn, Hp. cbn. rewrite Hr. cbn. rewrite Hs. cbn. rewrite Hg. cbn.
  rewrite Hpp. reflexivity.
Qed.

(** C4, as stated, fails: a predictions call that fails with status 500
    and a JSON body describing the error is taken for a result; the body
    has no [predictions], so the snapshot held is replaced by the empty
    list, and the report by the new one. *)
Lemma failure_keeps_snapshot_refuted :
  ~ failure_keeps_snapshot "/api"
      (Reply 200 (Some (Obj [("report", Str "# New"); ("stats", Obj [])])))
      (Reply 500 (Some (Obj [("detail", Str "AI quota exceeded")])))
      (setPredictions (Arr [Obj [("county", Str "Tana River")]])
         (setReport (Str "# Situation") initial)).
Proof.
  intros H. unfold failure_keeps_snapshot in H.
  assert (Hf : call_failed
                 (Reply 500 (Some (Obj [("detail", Str "AI quota exceeded")]))))
    by (left; lia).
  specialize (H Hf). vm_compute in H. discriminate H.
Qed.

(** What the refresh of the counterexample leaves: no prediction. *)
Example failed_call_empties_snapshot :
  predictions
    (refresh "/api"
       (Reply 200 (Some (Obj [("report", Str "# New"); ("stats", Obj [])])))
       (Reply 500 (Some (Obj [("detail", Str "AI quota exceeded")])))
       (setPredictions (Arr [Obj [("county", Str "Tana River")]])
          (setReport (Str "# Situation") initial)))
  = Arr [].
Proof. reflexivity. Qed.

(** C4, amended: when the predictions request of a refresh is rejected
    (the call cannot be reached, or its body is not JSON), the prediction
    snapshot and the report state that goes with it (report, statistics,
    time of generation) are after the refresh what they were before it. *)
Theorem failed_predict_keeps_snapshot (api : string) (national predict : reply)
    (st : state) :
  failed predict ->
  snapshot (refresh api national predict st) = snapshot st
  /\ predictions (refresh api national predict st) = predictions st
  /\ loading (refresh api national predict st) = false.
Proof.
  intros Hf. rewrite (refresh_rejected api national predict st (or_intror Hf)).
  done.
Qed.

Lemma failed_predict_keeps_snapshot_witness :
  let held := setPredictions (Arr [Obj [("county", Str "Tana River")]])
                (setReport (Str "# Situation") initial) in
  let national :=
    Reply 200 (Some (Obj [("report", Str "# New"); ("stats", Obj [])])) in
  snapshot (refresh "/api" national Unreachable held) = snapshot held
  /\ predictions (refresh "/api" national Unreachable held) = predictions held
  /\ loading (refresh "/api" national Unreachable held) = false.
Proof.
  apply (failed_predict_keeps_snapshot "/api").
  exists NetworkError. reflexivity.
Defined.

(** C5, as stated, fails: with the national report answered and the
    predictions answered by a body that is not JSON, the report is not
    applied. *)
Lemma siblings_independent_refuted :
  ~ siblings_independent "/api"
      (Reply 200 (Some (Obj [("report", Str "# New"); ("stats", Obj []);
                             ("generated_at", Str "2024-05-01T10:00:00")])))
      (Reply 200 None) initial.
Proof.
  intros [H _].
  specialize (H _ (Str "# New") (Obj []) (Str "2024-05-01T10:00:00")
                (ex_intro _ SyntaxError eq_refl) eq_refl eq_refl eq_refl
                eq_refl).
  destruct H as [H _]. vm_compute in H. discriminate H.
Qed.

(** C5, amended: the two requests of a refresh stand or fall together.
    When either is rejected, neither result is applied and only [loading]
    is written; when both resolve to values whose fields can be read, both
    results are applied. *)
Theorem loadAll_all_or_nothing (api : string) (national predict : reply)
    (st : state) :
  (failed national \/ failed predict ->
   refresh api national predict st = setLoading false st)
  /\ (forall natRes predRes r s g p,
        json_of national = inr natRes -> json_of predict = inr predRes ->
        get natRes "report" = inr r -> get natRes "stats" = inr s ->
        get natRes "generated_at" = inr g ->
        get predRes "predictions" = inr p ->
        refresh api national predict st
        = {| report := r; predictions := or p (Arr []); stats := s;
             loading := false; tab := tab st; generatedAt := g |}).
Proof.
  split; [apply refresh_rejected |].
  intros. by eapply refresh_resolved.
Qed.

Lemma loadAll_all_or_nothing_witness :
  refresh "/api" (Reply 200 (Some (Obj [("report", Str "# New")])))
    (Reply 502 None) initial
  = setLoading false initial.
Proof.
  apply (proj1 (loadAll_all_or_nothing "/api"
                  (Reply 200 (Some (Obj [("report", Str "# New")])))
                  (Reply 502 None) initial)).
  right. exists SyntaxError. reflexivity.
Defined.

End AIReportFacts.

(** ** The length rule of the Alert Dispatcher *)

Section LengthRuleFacts.
Import AlertDispatcher.

Lemma drop_partial_word_suffix (l : text) :
  exists dropped, l = dropped ++ drop_partial_word l
    /\ Forall (fun c => is_blank c = false) dropped.
Proof.
  induction l as [| c l (dropped & IH & Hd)]; [by exists [] |].
  cbn. destruct (is_blank c) eqn:Hc.
  - by exists [].
  - exists (c :: dropped). split; [cbn; by f_equal | by constructor].
Qed.

Lemma drop_partial_word_head (l : text) :
  match drop_partial_word l with
  | [] => True
  | c :: _ => is_blank c = true
  end.
Proof.
  induction l as [| c l IH]; [done |].
  cbn. destruct (is_blank c) eqn:Hc; [by cbn | done].
Qed.

(** Inside a run of letters no position is a word boundary. *)
Lemma no_boundary_inside (before letters after : text) (j : nat) :
  Forall (fun c => is_blank c = false) letters ->
  (length before < j < length before + length letters)%nat ->
  word_boundary (before ++ letters ++ after) j = false.
Proof.
  intros Hl Hj. unfold word_boundary.
  assert (Hin : forall i, (length before <= i < length before + length letters)%nat ->
                exists x, (before ++ letters ++ after) !! i = Some x
                          /\ is_blank x = false).
  { intros i Hi.
    destruct (lookup_lt_is_Some_2 letters (i - length before)%nat) as [x Hx];
      [lia |].
    exists x. split.
    - rewrite lookup_app_r by lia. by rewrite lookup_app_l by lia.
    - rewrite Forall_forall in Hl. apply Hl. by eapply list_elem_of_lookup_2. }
  destruct (Hin (j - 1)%nat) as (x & -> & ->); [lia |].
  destruct (Hin j) as (y & -> & ->); [lia |].
  rewrite !length_app.
  destruct (Nat.eqb_spec j 0); [lia |].
  destruct (Nat.leb_spec (length before + (length letters + length after)) j);
    [lia | done].
Qed.

(** The cut of an over-length message: within the limit, a prefix of the
    message, at a word boundary, and the longest such. *)
Lemma cut_at_word_spec (limit : nat) (m : text) :
  (limit < length m)%nat ->
  (length (cut_at_word limit m) <= limit)%nat
  /\ cut_at_word limit m `prefix_of` m
  /\ word_boundary m (length (cut_at_word limit m)) = true
  /\ (forall j, (length (cut_at_word limit m) < j <= limit)%nat ->
                word_boundary m j = false).
Proof.
  intros Hlen. unfold cut_at_word.
  destruct (m !! limit) as [c |] eqn:Hc;
    [| apply lookup_ge_None in Hc; lia].
  pose proof (take_drop_middle m limit c Hc) as Hm.
  assert (Hk : length (take limit m) = limit) by (rewrite length_take; lia).
  destruct (is_blank c) eqn:Hb.
  - rewrite Hk. split; [lia |]. split; [apply prefix_take |].
    split; [| intros j Hj; lia].
    unfold word_boundary. rewrite Hc, Hb. by rewrite !orb_true_r.
  - destruct (drop_partial_word_suffix (rev (take limit m)))
      as (dropped & Hrev & Hd).
    pose proof (drop_partial_word_head (rev (take limit m))) as Hhead.
    set (w := drop_partial_word (rev (take limit m))) in *.
    assert (Hkept : take limit m = rev w ++ rev dropped).
    { rewrite <- rev_app_distr, <- Hrev. by rewrite rev_involutive. }
    assert (Hsplit : m = rev w ++ (rev dropped ++ [c]) ++ drop (S limit) m).
    { rewrite <- Hm at 1. rewrite Hkept. by rewrite <- !app_assoc. }
    assert (Hlens : (length (rev w) + length (rev dropped) = limit)%nat).
    { rewrite <- Hk, Hkept. by rewrite length_app. }
    assert (Hletters : Forall (fun x => is_blank x = false) (rev dropped ++ [c])).
    { apply Forall_app. split; [| by repeat constructor].
      rewrite Forall_forall in Hd. apply Forall_forall. intros x Hx.
      apply Hd. rewrite <- (rev_involutive dropped).
      apply list_elem_of_In, in_rev. rewrite rev_involutive.
      by apply list_elem_of_In. }
    split; [lia |]. split; [by exists ((rev dropped ++ [c]) ++ drop (S limit) m) |].
    split.
    + destruct w as [| b w']; [done |].
      unfold word_boundary. cbn [rev] in *.
      assert (Hb' : m !! (length (rev w' ++ [b]) - 1)%nat = Some b).
      { rewrite Hsplit at 1. rewrite lookup_app_l by (rewrite length_app; cbn; lia).
        rewrite length_app. cbn.
        replace (length (rev w') + 1 - 1)%nat with (length (rev w') + 0)%nat by lia.
        by rewrite lookup_app_r, Nat.add_comm, Nat.add_sub by lia. }
      rewrite Hb', Hhead. by rewrite orb_true_r.
    + intros j Hj. rewrite Hsplit.
      apply no_boundary_inside; [done |].
      rewrite length_app. cbn. lia.
Qed.

Lemma fit_overlength (m : text) :
  (char_limit < length m)%nat ->
  (length (fit char_limit m).1 <= char_limit)%nat
  /\ (fit char_limit m).1 `prefix_of` m
  /\ word_boundary m (length (fit char_limit m).1) = true
  /\ (forall j, (length (fit char_limit m).1 < j <= char_limit)%nat ->
                word_boundary m j = false)
  /\ (fit char_limit m).2 = true.
Proof.
  intros Hlen. unfold fit.
  destruct (Nat.leb_spec (length m) char_limit) as [Hle | _]; [lia |].
  cbn [fst snd].
  destruct (cut_at_word_spec char_limit m Hlen) as (H1 & H2 & H3 & H4).
  done.
Qed.

(** C3: when a variant returned by the AI collaborator is longer than 160
    characters, the message stored for that language is a prefix of it of
    at most 160 characters that ends at a word boundary (the longest such
    prefix), and the alert is flagged as truncated; the alert is stored all
    the same when its send is accepted. *)
Theorem overlength_variant_is_cut (d t n : nat) (en sw : text) (s : status) :
  let a := compose d t en sw n s in
  ((char_limit < length en)%nat ->
   (length (message_en a) <= 160)%nat
   /\ message_en a `prefix_of` en
   /\ word_boundary en (length (message_en a)) = true
   /\ (forall j, (length (message_en a) < j <= 160)%nat ->
                 word_boundary en j = false)
   /\ truncated a = true)
  /\ ((char_limit < length sw)%nat ->
      (length (message_sw a) <= 160)%nat
      /\ message_sw a `prefix_of` sw
      /\ word_boundary sw (length (message_sw a)) = true
      /\ (forall j, (length (message_sw a) < j <= 160)%nat ->
                    word_boundary sw j = false)
      /\ truncated a = true)
  /\ (forall sys i r w,
        pool sys !! i = Some r -> about r = d -> round r = t ->
        at_phase r = Sending en sw -> sms w = Some n -> s = sent ->
        exists sys', step sys i w = Some sys'
                     /\ alerts sys' = alerts sys ++ [a]).
Proof.
  intros a. split; [| split].
  - intros Hlen.
    destruct (fit_overlength en Hlen) as (H1 & H2 & H3 & H4 & H5).
    unfold a, compose. cbn [message_en truncated].
    rewrite H5. done.
  - intros Hlen.
    destruct (fit_overlength sw Hlen) as (H1 & H2 & H3 & H4 & H5).
    unfold a, compose. cbn [message_sw truncated].
    rewrite H5, orb_true_r. done.
  - intros sys i r w Hr <- <- Hph Hsms ->.
    unfold step. rewrite Hr. cbn. rewrite Hph, Hsms. eauto.
Qed.

Lemma overlength_variant_is_cut_witness :
  let a := compose 12 1 long_english short_swahili 1200 sent in
  length long_english = 210%nat
  /\ (length (message_en a) <= 160)%nat
  /\ message_en a `prefix_of` long_english
  /\ word_boundary long_english (length (message_en a)) = true
  /\ (forall j, (length (message_en a) < j <= 160)%nat ->
                word_boundary long_english j = false)
  /\ truncated a = true.
Proof.
  split; [reflexivity |].
  apply (proj1 (overlength_variant_is_cut 12 1 1200 long_english
                  short_swahili sent)).
  apply Nat.ltb_lt. reflexivity.
Defined.

End LengthRuleFacts.

(** ** The Collector's threshold rules *)

Section CollectorFacts.
Import Collector.

Lemma open_count_app r k (l1 l2 : list disaster) :
  open_count r k (l1 ++ l2) = (open_count r k l1 + open_count r k l2)%nat.
Proof. unfold open_count. by rewrite filter_app, length_app. Qed.

Lemma existsb_open_count r k (store : list disaster) :
  existsb (is_open r k) store = negb (open_count r k store =? 0)%nat.
Proof.
  unfold open_count. induction store as [| d store IH]; [done |].
  cbn [existsb]. destruct (is_open r k d) eqn:Hd.
  - rewrite filter_cons_True by (by rewrite Hd). done.
  - rewrite filter_cons_False by (rewrite Hd; tauto). done.
Qed.

Lemma open_count_one r k (d : disaster) :
  open_count r k [d] = if is_open r k d then 1%nat else 0%nat.
Proof.
  unfold open_count. destruct (is_open r k d) eqn:Hd.
  - by rewrite filter_cons_True by (by rewrite Hd).
  - by rewrite filter_cons_False by (rewrite Hd; tauto).
Qed.

Lemma is_open_created r k r' k' n at_time :
  is_open r k {| id := n; type := k'; region := r'; came_from := auto_detected;
                 state := active; reported_at := at_time |}
  = (r' =? r)%nat && bool_decide (Some k' = Some k).
Proof.
  unfold is_open. cbn [state type region].
  repeat case_bool_decide; try congruence; by destruct (r' =? r)%nat.
Qed.

(** One Observation: the count of open Disasters of a type in a region
    goes from 0 to 1 on a qualifying reading, and does not move otherwise. *)
Lemma evaluate_open_count th store o r k :
  open_count r k (evaluate th store o)
  = if (open_count r k store =? 0)%nat && qualifies th r k o then 1%nat
    else open_count r k store.
Proof.
  unfold evaluate, qualifies.
  destruct (rule th o) as [k' |] eqn:Hrule.
  - rewrite existsb_open_count.
    destruct (Nat.eqb_spec (open_count (seen_in o) k' store) 0) as [Hz | Hnz];
      cbn [negb].
    + rewrite open_count_app, open_count_one, is_open_created.
      destruct ((seen_in o =? r)%nat && bool_decide (Some k' = Some k)) eqn:Hq.
      * apply andb_true_iff in Hq as [Hr Hk].
        apply Nat.eqb_eq in Hr. apply bool_decide_eq_true in Hk.
        injection Hk as <-. subst r. by rewrite Hz.
      * rewrite andb_false_r. lia.
    + destruct ((seen_in o =? r)%nat && bool_decide (Some k' = Some k)) eqn:Hq;
        [| by rewrite andb_false_r].
      apply andb_true_iff in Hq as [Hr Hk].
      apply Nat.eqb_eq in Hr. apply bool_decide_eq_true in Hk.
      injection Hk as <-. subst r.
      by destruct (Nat.eqb_spec (open_count (seen_in o) k' store) 0).
  - rewrite (bool_decide_eq_false_2 (None = Some k)) by done.
    by rewrite !andb_false_r.
Qed.

Lemma cycle_open_count th observations : forall store r k,
  open_count r k (cycle th store observations)
  = if (open_count r k store =? 0)%nat
       && existsb (qualifies th r k) observations
    then 1%nat else open_count r k store.
Proof.
  unfold cycle.
  induction observations as [| o rest IH]; intros store r k; cbn [fold_left existsb].
  - by rewrite andb_false_r.
  - rewrite IH, evaluate_open_count.
    destruct (Nat.eqb_spec (open_count r k store) 0) as [Hz | Hnz]; cbn [andb].
    + destruct (qualifies th r k o); cbn [orb Nat.eqb andb]; [done |].
      by rewrite Hz.
    + destruct (Nat.eqb_spec (open_count r k store) 0); [done | done].
Qed.

(** C7: an Observation creates a Disaster only when its reading is above
    the threshold and no open Disaster of that type exists for its region;
    over a cycle the number of open Disasters of a type in a region goes
    from 0 to 1 when some Observation qualifies and stays what it was
    otherwise; so after a first qualifying cycle a second cycle, whatever it
    ingests, leaves that number at 1. *)
Theorem no_duplicate_open_disaster (th : thresholds) (store : list disaster)
    (o : observation) (first second : list observation) (r : nat) (k : kind) :
  (evaluate th store o = store
   \/ exists d, evaluate th store o = store ++ [d]
                /\ rule th o = Some (type d) /\ region d = seen_in o
                /\ state d = active /\ came_from d = auto_detected
                /\ open_count (region d) (type d) store = 0%nat)
  /\ open_count r k (cycle th store first)
     = (if (open_count r k store =? 0)%nat
           && existsb (qualifies th r k) first
        then 1%nat else open_count r k store)
  /\ (open_count r k store = 0%nat ->
      existsb (qualifies th r k) first = true ->
      open_count r k (cycle th store first) = 1%nat
      /\ open_count r k (cycle th (cycle th store first) second) = 1%nat).
Proof.
  split; [| split].
  - unfold evaluate. destruct (rule th o) as [k' |]; [| by left].
    rewrite existsb_open_count.
    destruct (Nat.eqb_spec (open_count (seen_in o) k' store) 0) as [Hz | Hnz];
      cbn [negb]; [| by left].
    right. eexists. split; [reflexivity |]. by cbn.
  - apply cycle_open_count.
  - intros Hz Hq.
    assert (H1 : open_count r k (cycle th store first) = 1%nat).
    { by rewrite cycle_open_count, Hz, Hq. }
    split; [done |]. by rewrite cycle_open_count, H1.
Qed.

Lemma no_duplicate_open_disaster_witness :
  cycle limits [] [heavy_rain]
  = [{| id := 0; type := flood; region := tana_river;
        came_from := auto_detected; state := active; reported_at := 1800 |}]
  /\ open_count tana_river flood (cycle limits [] [heavy_rain]) = 1%nat
  /\ open_count tana_river flood
       (cycle limits (cycle limits [] [heavy_rain]) [heavier_rain]) = 1%nat.
Proof.
  split; [reflexivity |].
  apply (proj2 (proj2 (no_duplicate_open_disaster limits [] heavy_rain
                         [heavy_rain] [heavier_rain] tana_river flood)));
    reflexivity.
Defined.

End CollectorFacts.

(** ** The Dispatch Recommender *)

Section RecommenderFacts.
Import Recommender.

#[local] Instance better_transitive p k site : Transitive (better p k site).
Proof. intros a b c. unfold better. lia. Qed.

#[local] Instance better_total p k site : Total (better p k site).
Proof. intros a b. unfold better. lia. Qed.









End RecommenderFacts.

(** ** The Analysis Cache *)

Section AnalysisCacheFacts.
Import AnalysisCache.

Lemma live_snoc clock k (stored : list entry) e :
  live clock k (stored ++ [e])
  = if decide (entry_key e = k)
    then (if fresh clock e then Some e else None)
    else live clock k stored.
Proof.
  unfold live. rewrite rev_app_distr. cbn [rev app].
  rewrite filter_cons. by destruct (decide (entry_key e = k)).
Qed.

Lemma count_snoc k (u : list key) k' :
  length (filter (fun x => x = k) (u ++ [k']))
  = (length (filter (fun x => x = k) u) + if decide (k' = k) then 1 else 0)%nat.
Proof.
  rewrite filter_app, length_app. f_equal.
  rewrite filter_cons. by destruct (decide (k' = k)).
Qed.

Lemma wake_wants k v c : wants (wake k v c) = wants c.
Proof. unfold wake. by repeat case_match. Qed.

Lemma wake_other k v c : wants c <> k -> wake k v c = c.
Proof. intros Hk. unfold wake. repeat case_match; try done.
  by case_bool_decide. Qed.

(** A step that leaves a key's entries, computation and callers alone
    leaves its standing alone. *)
Lemma consistent_ext cold k s s' st :
  live (now s') k (entries s') = live (now s) k (entries s) ->
  in_flight s' !! k = in_flight s !! k ->
  invocations k s' = invocations k s ->
  (forall j c, wants c = k ->
               callers s' !! j = Some c <-> callers s !! j = Some c) ->
  consistent cold k s st -> consistent cold k s' st.
Proof.
  intros Hl Hf Hn Hc. destruct st as [| i0 | e]; cbn; rewrite Hl, Hf, Hn.
  - intros (? & ? & ? & H). repeat (split; [done |]).
    intros j c Hj Hw. apply (H j c); [by apply Hc | done].
  - intros (? & ? & ? & (c0 & H0 & Hw0 & Hp0) & H). repeat (split; [done |]).
    split; [exists c0; split; [by apply Hc | done] |].
    intros j c Hj Hw. apply (H j c); [by apply Hc | done].
  - intros (? & ? & ? & H). repeat (split; [done |]).
    intros j c Hj Hw. apply (H j c); [by apply Hc | done].
Qed.

Lemma insert_other_key k (l : list caller) i c c' j x :
  l !! i = Some c -> wants c <> k -> wants c' <> k -> wants x = k ->
  <[i := c']> l !! j = Some x <-> l !! j = Some x.
Proof.
  intros Hi Hc Hc' Hx. destruct (decide (i = j)) as [<- | Hne].
  - rewrite list_lookup_insert_Some. split.
    + intros [(_ & -> & _) | (? & _)]; done.
    + intros Hj. congruence.
  - by rewrite list_lookup_insert_ne.
Qed.

Lemma wake_other_key k k' v (l : list caller) j x :
  k' <> k -> wants x = k ->
  (wake k' v <$> l) !! j = Some x <-> l !! j = Some x.
Proof.
  intros Hk Hx. rewrite list_lookup_fmap.
  destruct (l !! j) as [y |]; cbn; [| done].
  split; intros [= H].
  - assert (wants y = k) by (by rewrite <- (wake_wants k' v y), H).
    rewrite wake_other in H by congruence. by subst.
  - subst. by rewrite wake_other by congruence.
Qed.

(** A step of a caller of another key. *)
Lemma step_other_key cold k s i v s' c st :
  step s i v = Some s' -> callers s !! i = Some c -> wants c <> k ->
  consistent cold k s st -> consistent cold k s' st.
Proof.
  intros Hstep Hi Hk. unfold step in Hstep. rewrite Hi in Hstep.
  cbn in Hstep. destruct (at_phase c) eqn:Hph; try discriminate.
  - destruct (live (now s) (wants c) (entries s)) as [e |];
      [| destruct (in_flight s !! wants c)];
      injection Hstep as <-; apply consistent_ext; cbn; try done.
    + intros j x Hx. by eapply insert_other_key.
    + intros j x Hx. by eapply insert_other_key.
    + by rewrite lookup_insert_ne.
    + unfold invocations. cbn. rewrite count_snoc.
      destruct (decide (wants c = k)); [done | lia].
    + intros j x Hx. by eapply insert_other_key.
  - injection Hstep as <-. apply consistent_ext; cbn.
    + unfold store. rewrite live_snoc. cbn.
      by destruct (decide (wants c = k)).
    + by rewrite lookup_delete_ne.
    + done.
    + intros j x Hx.
      rewrite <- (wake_other_key k (wants c) v (callers s) j x Hk Hx).
      destruct (decide (i = j)) as [<- | Hne].
      * rewrite list_lookup_insert_Some, list_lookup_fmap, Hi. cbn.
        split.
        -- intros [(_ & <- & _) | (? & _)]; done.
        -- intros [= <-]. by rewrite wake_wants in Hx.
      * by rewrite list_lookup_insert_ne.
Qed.

Lemma stored_is_fresh s k v :
  lifetime s <> Some 0%nat ->
  fresh (now s) {| entry_key := k; value := v; generated_at := now s;
                   expiry := (fun l => now s + l)%nat <$> lifetime s |} = true.
Proof.
  intros Hl. unfold fresh. cbn. destruct (lifetime s) as [l |]; [| done].
  cbn. apply Nat.ltb_lt. destruct l; [done | lia].
Qed.

(** A step of a caller of the key. *)
Lemma step_same_key cold k s i v s' c st :
  lifetime s <> Some 0%nat ->
  step s i v = Some s' -> callers s !! i = Some c -> wants c = k ->
  consistent cold k s st -> exists st', consistent cold k s' st'.
Proof.
  intros Hlife Hstep Hi Hk Hc. unfold step in Hstep. rewrite Hi in Hstep.
  cbn in Hstep. rewrite Hk in Hstep.
  pose proof (lookup_lt_Some _ _ _ Hi) as Hlen.
  destruct (at_phase c) eqn:Hph; try discriminate.
  - destruct (live (now s) k (entries s)) as [e |] eqn:Hlive.
    + (* a hit *)
      injection Hstep as <-.
      destruct st as [| i0 | e0]; cbn in Hc;
        destruct Hc as (Hl & Hc); try congruence.
      destruct Hc as (Hf & Hn & Hcs).
      assert (e0 = e) as -> by congruence.
      exists (Warm e). cbn. repeat (split; [done |]).
      intros j x [(-> & <- & _) | (Hne & Hj)]%list_lookup_insert_Some Hx;
        [by right | by eapply Hcs].
    + destruct (in_flight s !! k) as [i1 |] eqn:Hfl; injection Hstep as <-.
      * (* joins the computation in flight *)
        destruct st as [| i0 | e0]; cbn in Hc;
          destruct Hc as (Hl & Hf & Hc); try congruence.
        destruct Hc as (Hn & (c0 & H0 & Hw0 & Hp0) & Hcs).
        exists (Flying i0). cbn. repeat (split; [done |]). split.
        -- exists c0. split; [| done].
           rewrite list_lookup_insert_ne; [done |]. intros <-. congruence.
        -- intros j x [(-> & <- & _) | (Hne & Hj)]%list_lookup_insert_Some Hx;
             [by right; left | by eapply Hcs].
      * (* starts the computation *)
        destruct st as [| i0 | e0]; cbn in Hc;
          destruct Hc as (Hl & Hf & Hc); try congruence.
        destruct Hc as (Hn & Hcs).
        exists (Flying i). cbn. split; [done |].
        split; [by rewrite lookup_insert_eq |]. split.
        { unfold invocations in *. cbn. rewrite count_snoc, Hn.
          by rewrite decide_True. }
        split.
        -- eexists. split; [by apply list_lookup_insert_eq | done].
        -- intros j x [(-> & <- & _) | (Hne & Hj)]%list_lookup_insert_Some Hx;
             [by right; right | left; by eapply Hcs].
  - (* the computation completes *)
    injection Hstep as <-.
    destruct st as [| i0 | e0]; cbn in Hc.
    + destruct Hc as (_ & _ & _ & Hcs).
      specialize (Hcs i c Hi Hk). congruence.
    + destruct Hc as (Hl & Hf & Hn & _ & Hcs).
      assert (i0 = i) as ->.
      { destruct (Hcs i c Hi Hk) as [? | [? | [_ ?]]]; congruence. }
      eexists (Warm _). cbn. split.
      { unfold store. rewrite live_snoc. cbn. rewrite decide_True by done.
        by rewrite stored_is_fresh. }
      split; [by rewrite lookup_delete_eq |]. split; [by left |].
      intros j x [(-> & <- & _) | (Hne & Hj)]%list_lookup_insert_Some Hx;
        [by right |].
      apply list_lookup_fmap_Some in Hj as (y & -> & Hy).
      rewrite wake_wants in Hx.
      destruct (Hcs j y Hy Hx) as [Hp | [Hp | [_ ?]]]; [| | congruence].
      * left. unfold wake. by rewrite Hp.
      * right. unfold wake. rewrite Hp. by rewrite bool_decide_eq_true_2.
    + destruct Hc as (_ & _ & _ & Hcs).
      destruct (Hcs i c Hi Hk); congruence.
Qed.

Lemma step_consistent cold k s i v s' st :
  lifetime s <> Some 0%nat -> step s i v = Some s' ->
  consistent cold k s st -> exists st', consistent cold k s' st'.
Proof.
  intros Hlife Hstep Hc.
  destruct (callers s !! i) as [c |] eqn:Hi;
    [| unfold step in Hstep; by rewrite Hi in Hstep].
  destruct (decide (wants c = k)) as [Hk | Hk].
  - by eapply step_same_key.
  - exists st. by eapply step_other_key.
Qed.

Lemma step_frame s i v s' :
  step s i v = Some s' ->
  lifetime s' = lifetime s /\ now s' = now s
  /\ wants <$> callers s' = wants <$> callers s.
Proof.
  unfold step. destruct (callers s !! i) as [c |] eqn:Hi; [| done].
  cbn. intros Hstep.
  assert (Hw : forall p, wants <$> <[i := {| wants := wants c; at_phase := p |}]>
                                     (callers s)
                         = wants <$> callers s).
  { intros p. rewrite list_fmap_insert. apply list_insert_id.
    by rewrite list_lookup_fmap, Hi. }
  destruct (at_phase c); try discriminate.
  - destruct (live (now s) (wants c) (entries s));
      [| destruct (in_flight s !! wants c)];
      injection Hstep as <-; cbn; by rewrite Hw.
  - injection Hstep as <-. cbn. repeat (split; [done |]).
    rewrite list_fmap_insert. rewrite <- list_fmap_compose.
    rewrite (list_fmap_ext (wants ∘ wake (wants c) v) wants (callers s))
      by (intros; apply wake_wants).
    apply list_insert_id. by rewrite list_lookup_fmap, Hi.
Qed.

Lemma run_consistent cold k schedule : forall s,
  lifetime s <> Some 0%nat ->
  (exists st, consistent cold k s st) ->
  exists st, consistent cold k (run s schedule) st.
Proof.
  induction schedule as [| [i v] rest IH]; intros s Hlife Hc; [done |].
  cbn [run]. destruct (step s i v) as [s' |] eqn:Hstep; cbn [default].
  - destruct Hc as [st Hc].
    destruct (step_frame s i v s' Hstep) as (Hl & _).
    apply (IH s'); [congruence | by eapply step_consistent].
  - by apply IH.
Qed.

Lemma run_wants schedule : forall s,
  wants <$> callers (run s schedule) = wants <$> callers s.
Proof.
  induction schedule as [| [i v] rest IH]; intros s; [done |].
  cbn [run]. destruct (step s i v) as [s' |] eqn:Hstep; cbn [default];
    [| apply IH].
  transitivity (wants <$> callers s'); [apply IH |].
  by destruct (step_frame s i v s' Hstep) as (_ & _ & ?).
Qed.

Lemma burst_cold cold clock ttl stored k n :
  live clock k stored = None ->
  consistent cold k (burst clock ttl stored k n) Cold.
Proof.
  intros Hl. cbn. repeat (split; [done |]).
  intros j c Hj _. apply lookup_replicate in Hj as [-> _]. done.
Qed.

Lemma burst_wants clock ttl stored k n schedule j c :
  callers (run (burst clock ttl stored k n) schedule) !! j = Some c ->
  wants c = k.
Proof.
  intros Hj.
  assert (H : (wants <$> callers (run (burst clock ttl stored k n) schedule))
              !! j = Some (wants c)) by (by rewrite list_lookup_fmap, Hj).
  rewrite run_wants in H. cbn in H. rewrite fmap_replicate in H.
  by apply lookup_replicate in H as [-> _].
Qed.

Lemma burst_length clock ttl stored k n schedule :
  length (callers (run (burst clock ttl stored k n) schedule)) = n.
Proof.
  rewrite <- (length_fmap wants), run_wants. cbn.
  by rewrite length_fmap, length_replicate.
Qed.

Lemma sum_list_insert (l : list nat) i x y :
  l !! i = Some y -> (sum_list (<[i := x]> l) + y = sum_list l + x)%nat.
Proof.
  revert i. induction l as [| a l IH]; intros [| i] H; try done.
  - injection H as ->. cbn. lia.
  - change (<[S i := x]> (a :: l)) with (a :: <[i := x]> l).
    change ((a :: l) !! S i) with (l !! i) in H.
    specialize (IH i H). cbn [sum_list_with]. lia.
Qed.

Lemma weight_wake k v (l : list caller) :
  (sum_list (weight <$> (wake k v <$> l)) <= sum_list (weight <$> l))%nat.
Proof.
  induction l as [| c l IH]; [done |].
  assert (weight (wake k v c) <= weight c)%nat.
  { unfold wake, weight. destruct (at_phase c) eqn:Hph; rewrite ?Hph; try lia.
    destruct (bool_decide (wants c = k)); cbn; rewrite ?Hph; lia. }
  rewrite !fmap_cons. cbn [sum_list_with]. unfold id in *. lia.
Qed.

Lemma work_left_insert (l : list caller) i c c' :
  l !! i = Some c ->
  (sum_list (weight <$> <[i := c']> l) + weight c
   = sum_list (weight <$> l) + weight c')%nat.
Proof.
  intros Hi. rewrite list_fmap_insert. apply sum_list_insert.
  by rewrite list_lookup_fmap, Hi.
Qed.

(** Every step uses up some of the work left. *)
Lemma step_work_left s i v s' :
  step s i v = Some s' -> (work_left s' < work_left s)%nat.
Proof.
  unfold step. destruct (callers s !! i) as [c |] eqn:Hi; [| done].
  cbn. intros Hstep. unfold work_left.
  destruct (at_phase c) eqn:Hph; try discriminate.
  - assert (weight c = 3%nat) as Hw by (unfold weight; by rewrite Hph).
    destruct (live (now s) (wants c) (entries s));
      [| destruct (in_flight s !! wants c)];
      injection Hstep as <-; cbn [callers];
      match goal with
      | |- context [<[i := ?x]> _] =>
          pose proof (work_left_insert (callers s) i c x Hi) as Hs
      end; cbn [weight at_phase] in Hs; lia.
  - assert (weight c = 2%nat) as Hw by (unfold weight; by rewrite Hph).
    injection Hstep as <-. cbn [callers].
    assert (Hi' : (wake (wants c) v <$> callers s) !! i = Some c).
    { rewrite list_lookup_fmap, Hi. cbn. unfold wake. by rewrite Hph. }
    pose proof (work_left_insert _ i c
                  {| wants := wants c; at_phase := Returned v |} Hi') as Hs.
    pose proof (weight_wake (wants c) v (callers s)).
    cbn [weight at_phase] in Hs. lia.
Qed.

Lemma forallb_false_lookup {A} (f : A -> bool) (l : list A) :
  forallb f l = false -> exists j c, l !! j = Some c /\ f c = false.
Proof.
  induction l as [| a l IH]; [done |]. cbn.
  destruct (f a) eqn:Ha; cbn.
  - intros (j & c & Hj & Hc)%IH. by exists (S j), c.
  - intros _. by exists 0%nat, a.
Qed.

(** While a call has not returned, some caller can move. *)
Lemma some_caller_moves cold k s st v :
  consistent cold k s st ->
  Forall (fun k' => k' = k) (wants <$> callers s) ->
  all_returned s = false ->
  exists i s', step s i v = Some s'.
Proof.
  intros Hc Hkeys (j & c & Hj & Hr)%forallb_false_lookup.
  assert (Hk : wants c = k).
  { apply (Forall_lookup_1 _ _ j _ Hkeys). by rewrite list_lookup_fmap, Hj. }
  assert (Hmove : forall i' c', callers s !! i' = Some c' ->
                    at_phase c' = Calling \/ at_phase c' = Computing ->
                    exists s', step s i' v = Some s').
  { intros i' c' Hi' Hp. unfold step. rewrite Hi'. cbn.
    destruct Hp as [-> | ->]; [| eauto].
    destruct (live (now s) (wants c') (entries s)); [eauto |].
    destruct (in_flight s !! wants c'); eauto. }
  destruct (at_phase c) eqn:Hph.
  - exists j. eapply Hmove; eauto.
  - destruct st as [| i0 | e]; cbn in Hc.
    + destruct Hc as (_ & _ & _ & Hcs). specialize (Hcs j c Hj Hk). congruence.
    + destruct Hc as (_ & _ & _ & (c0 & H0 & _ & Hp0) & _).
      exists i0. eapply Hmove; eauto.
    + destruct Hc as (_ & _ & _ & Hcs).
      destruct (Hcs j c Hj Hk); congruence.
  - exists j. eapply Hmove; eauto.
  - unfold has_returned in Hr. by rewrite Hph in Hr.
Qed.

(** From a state in which every call is for the key, some schedule brings
    every call to its result. *)
Lemma some_schedule_returns cold k (v : string) (m : nat) : forall s,
  (work_left s <= m)%nat -> lifetime s <> Some 0%nat ->
  (exists st, consistent cold k s st) ->
  Forall (fun k' => k' = k) (wants <$> callers s) ->
  exists schedule, all_returned (run s schedule) = true.
Proof.
  induction m as [| m IH]; intros s Hm Hl [st Hc] Hk;
    (destruct (all_returned s) eqn:Hall; [by exists [] |]);
    destruct (some_caller_moves cold k s st v Hc Hk Hall) as (i & s' & Hstep);
    pose proof (step_work_left s i v s' Hstep) as Hlt; [lia |].
  destruct (step_frame s i v s' Hstep) as (Hl' & _ & Hw').
  destruct (IH s') as [schedule Hs].
  - lia.
  - congruence.
  - by eapply step_consistent.
  - by rewrite Hw'.
  - exists ((i, v) :: schedule). cbn [run]. by rewrite Hstep.
Qed.

Lemma burst_warm clock ttl stored k n e :
  live clock k stored = Some e ->
  consistent false k (burst clock ttl stored k n) (Warm e).
Proof.
  intros Hl. cbn. repeat (split; [done |]). split; [by right |].
  intros j c Hj _. apply lookup_replicate in Hj as [-> _]. by left.
Qed.

(** The standing of the key at the start of a burst. *)
Lemma burst_consistent clock ttl stored k n :
  exists st,
    consistent (bool_decide (live clock k stored = None)) k
      (burst clock ttl stored k n) st.
Proof.
  destruct (live clock k stored) as [e |] eqn:Hl.
  - exists (Warm e). rewrite bool_decide_eq_false_2 by done.
    by apply burst_warm.
  - exists Cold. by apply burst_cold.
Qed.

(** Three calls for one key: call 1 computes, call 0 waits for it, call 2
    asks after the entry is stored. *)
Example three_callers_one_computation :
  let s := run (burst 720 (Some 180%nat) [] (4, 771, 0)%nat 3)
             [(1%nat, "risk 71"); (0%nat, "risk 64"); (2%nat, "risk 80");
              (1%nat, "risk 71"); (2%nat, "risk 80")] in
  upstream s = [(4, 771, 0)%nat]
  /\ at_phase <$> callers s
     = [Returned "risk 71"; Returned "risk 71"; Returned "risk 71"]
  /\ value <$> entries s = ["risk 71"].
Proof. vm_compute. done. Qed.

(** A live entry found at the start serves every call of the burst. *)
Lemma step_served k e s i v s' :
  Forall (fun k' => k' = k) (wants <$> callers s) ->
  served k e s -> step s i v = Some s' -> served k e s'.
Proof.
  intros Hk (Hlive & Hinv & Hcs). unfold step.
  destruct (callers s !! i) as [c |] eqn:Hi; [| done]. cbn.
  assert (Hck : wants c = k).
  { apply (Forall_lookup_1 _ _ i _ Hk). by rewrite list_lookup_fmap, Hi. }
  destruct (Hcs i c Hi Hck) as [Hp | Hp]; rewrite Hp; [| done].
  rewrite Hck, Hlive. intros [= <-]. unfold served. cbn.
  repeat (split; [done |]).
  intros j c' Hj Hw.
  destruct (decide (j = i)) as [-> | Hne].
  - rewrite list_lookup_insert_eq in Hj
      by (by eapply lookup_lt_Some).
    injection Hj as <-. by right.
  - rewrite list_lookup_insert_ne in Hj by done. by eapply Hcs.
Qed.

Lemma run_served k e schedule : forall s,
  Forall (fun k' => k' = k) (wants <$> callers s) ->
  served k e s -> served k e (run s schedule).
Proof.
  induction schedule as [| [i v] rest IH]; intros s Hk Hs; [done |].
  cbn [run]. destruct (step s i v) as [s' |] eqn:Hstep; cbn [default].
  - destruct (step_frame s i v s' Hstep) as (_ & _ & Hw).
    apply IH; [unfold id; by rewrite Hw | by eapply step_served].
  - by apply IH.
Qed.

Lemma burst_served clock ttl stored k n e :
  live clock k stored = Some e -> served k e (burst clock ttl stored k n).
Proof.
  intros Hl. unfold served. cbn. repeat (split; [done |]).
  intros j c Hj _. apply lookup_replicate in Hj as [-> _]. by left.
Qed.

(** Every step taken uses up some of the work that is left. *)
Lemma taken_bound schedule : forall s,
  (taken s schedule + work_left (run s schedule) <= work_left s)%nat.
Proof.
  induction schedule as [| [i v] schedule IH]; intros s; cbn [taken run];
    [lia |].
  destruct (step s i v) as [s' |] eqn:Hstep; cbn [default].
  - pose proof (step_work_left s i v s' Hstep). specialize (IH s').
    unfold id. lia.
  - apply IH.
Qed.

Lemma burst_work_left clock ttl stored k n :
  work_left (burst clock ttl stored k n) = (3 * n)%nat.
Proof.
  unfold work_left. cbn [burst callers]. rewrite fmap_replicate.
  cbn [weight at_phase].
  induction n as [| n IH]; [done |].
  cbn [replicate].
  change (sum_list (3%nat :: replicate n 3%nat))
    with (3 + sum_list (replicate n 3%nat))%nat.
  rewrite IH. lia.
Qed.

(** The key already stored and live: the two calls return the stored
    value and compute_fn is not invoked. *)
Example warm_key_not_computed :
  let s := run (burst 720 (Some 180%nat)
                  [{| entry_key := (4, 771, 0)%nat; value := "risk 64";
                      generated_at := 700; expiry := Some 880%nat |}]
                  (4, 771, 0)%nat 2)
             [(0%nat, "risk 71"); (1%nat, "risk 80")] in
  upstream s = []
  /\ at_phase <$> callers s = [Returned "risk 64"; Returned "risk 64"].
Proof. vm_compute. done. Qed.

(** A lifetime of zero: the entry is stale as soon as it is stored, and a
    call that looks the key up after the computation computes again. *)
Example zero_lifetime_computes_twice :
  let s := run (burst 720 (Some 0%nat) [] (4, 771, 0)%nat 2)
             [(0%nat, "risk 71"); (0%nat, "risk 71"); (1%nat, "risk 80");
              (1%nat, "risk 80")] in
  upstream s = [(4, 771, 0)%nat; (4, 771, 0)%nat]
  /\ at_phase <$> callers s = [Returned "risk 71"; Returned "risk 80"].
Proof. vm_compute. done. Qed.

(** No call at all: nothing is computed. *)
Example no_call_no_computation :
  let s := run (burst 720 (Some 180%nat) [] (4, 771, 0)%nat 0) [] in
  all_returned s = true /\ invocations (4, 771, 0)%nat s = 0%nat.
Proof. vm_compute. done. Qed.

(** C6, as stated, fails: for a key whose entry is stored and live, two
    concurrent calls return without any invocation of compute_fn, not
    one. *)
Lemma one_invocation_for_all_refuted :
  ~ one_invocation_for_all 720 (Some 180%nat)
      [{| entry_key := (4, 771, 0)%nat; value := "risk 64";
          generated_at := 700; expiry := Some 880%nat |}]
      (4, 771, 0)%nat 2.
Proof.
  intros H.
  destruct (H [(0%nat, "risk 71"); (1%nat, "risk 80")] eq_refl) as [Hinv _].
  vm_compute in Hinv. discriminate Hinv.
Qed.

(** C6, amended: [n] concurrent calls of [get_or_compute] with one key, the
    lifetime of an entry not being zero. However the calls interleave and
    whatever compute_fn returns: compute_fn is invoked at most once for the
    key and the results handed out are identical; as long as a call has not
    returned some call can move, and no more than [3 * n] steps are ever
    taken, so that every run carried on ends with all [n] calls returned;
    then the [n] results are the same, compute_fn has been invoked exactly
    once when the cache held no live entry for the key and [n] is not zero,
    and not at all when the cache held a live entry, whose value every call
    returns. *)
Theorem single_flight (clock : nat) (ttl : option nat) (stored : list entry)
    (k : key) (n : nat) :
  ttl <> Some 0%nat ->
  (forall schedule,
      let s := run (burst clock ttl stored k n) schedule in
      (invocations k s <= 1)%nat
      /\ length (callers s) = n
      /\ (exists v, forall c, c ∈ callers s -> has_returned c = true ->
                              at_phase c = Returned v)
      /\ (taken (burst clock ttl stored k n) schedule + work_left s
          <= 3 * n)%nat
      /\ (all_returned s = false ->
          forall v, exists i s', step s i v = Some s')
      /\ ((forall i v, step s i v = None) -> all_returned s = true)
      /\ (all_returned s = true ->
          (exists v, forall c, c ∈ callers s -> at_phase c = Returned v)
          /\ (live clock k stored = None -> (0 < n)%nat ->
              invocations k s = 1%nat)
          /\ (forall e, live clock k stored = Some e ->
                invocations k s = 0%nat
                /\ forall c, c ∈ callers s ->
                             at_phase c = Returned (value e))))
  /\ exists schedule,
      all_returned (run (burst clock ttl stored k n) schedule) = true.
Proof.
  intros Httl. split.
  - intros schedule s.
    destruct (run_consistent _ k schedule (burst clock ttl stored k n) Httl
                (burst_consistent clock ttl stored k n))
      as [st Hc].
    fold s in Hc.
    pose proof (burst_length clock ttl stored k n schedule) as Hlen.
    fold s in Hlen.
    assert (Hkeys : forall j c, callers s !! j = Some c -> wants c = k)
      by (intros j c; apply burst_wants).
    assert (Hwants : Forall (fun k' => k' = k) (wants <$> callers s)).
    { apply Forall_lookup. intros j k' Hj.
      apply list_lookup_fmap_Some in Hj as (c & -> & Hj). by eapply Hkeys. }
    assert (Hreturned : forall c, all_returned s = true -> c ∈ callers s ->
                                  has_returned c = true).
    { intros c Hall Hin. unfold all_returned in Hall.
      rewrite forallb_forall in Hall. by apply Hall, list_elem_of_In. }
    assert (Hbound : (taken (burst clock ttl stored k n) schedule
                      + work_left s <= 3 * n)%nat).
    { pose proof (taken_bound schedule (burst clock ttl stored k n)) as Hb.
      fold s in Hb. by rewrite burst_work_left in Hb. }
    assert (Hmoves : all_returned s = false ->
                     forall v, exists i s', step s i v = Some s').
    { intros Hall v. by eapply some_caller_moves. }
    assert (Hquiet : (forall i v, step s i v = None) ->
                     all_returned s = true).
    { intros Hstuck. destruct (all_returned s) eqn:Hall; [done |].
      destruct (Hmoves eq_refl "") as (i & s' & Hstep).
      by rewrite Hstuck in Hstep. }
    assert (Hserved : forall e, live clock k stored = Some e ->
                        served k e s).
    { intros e He. apply run_served.
      - cbn. rewrite fmap_replicate. by apply Forall_replicate.
      - by apply burst_served. }
    assert (Hwarm : all_returned s = true ->
                    forall e, live clock k stored = Some e ->
                      invocations k s = 0%nat
                      /\ forall c, c ∈ callers s ->
                                   at_phase c = Returned (value e)).
    { intros Hall e He. destruct (Hserved e He) as (_ & Hinv & Hcs).
      split; [done |]. intros c Hin.
      pose proof (Hreturned c Hall Hin) as Hr.
      apply list_elem_of_lookup in Hin as [j Hj].
      destruct (Hcs j c Hj (Hkeys j c Hj)) as [Hp | Hp]; [| done].
      unfold has_returned in Hr. by rewrite Hp in Hr. }
    destruct st as [| i0 | e]; cbn in Hc.
    + destruct Hc as (_ & _ & Hinv & Hcs).
      assert (Hnone : forall c, c ∈ callers s -> has_returned c = true ->
                                False).
      { intros c (j & Hj)%list_elem_of_lookup Hr. unfold has_returned in Hr.
        by rewrite (Hcs j c Hj (Hkeys j c Hj)) in Hr. }
      split; [lia |]. split; [done |]. split.
      { exists "". intros c Hin Hr. destruct (Hnone c Hin Hr). }
      do 3 (split; [done |]).
      intros Hall. split; [| split; [| by apply Hwarm]].
      * exists "". intros c Hin. destruct (Hnone c Hin); eauto.
      * intros _ Hn.
        destruct (lookup_lt_is_Some_2 (callers s) 0%nat) as [c0 H0];
          [lia |].
        destruct (Hnone c0); [by eapply list_elem_of_lookup_2 |].
        apply Hreturned; [done | by eapply list_elem_of_lookup_2].
    + destruct Hc as (_ & _ & Hinv & (ci & Hi & _ & Hpi) & Hcs).
      assert (Hnot : all_returned s = true -> False).
      { intros Hall.
        assert (Hr : has_returned ci = true).
        { apply Hreturned; [done | by eapply list_elem_of_lookup_2]. }
        unfold has_returned in Hr. by rewrite Hpi in Hr. }
      split; [lia |]. split; [done |]. split.
      { exists "". intros c (j & Hj)%list_elem_of_lookup Hr.
        unfold has_returned in Hr.
        destruct (Hcs j c Hj (Hkeys j c Hj)) as [Hp | [Hp | [Hp _]]];
          by rewrite Hp in Hr. }
      do 3 (split; [done |]).
      intros Hall. destruct (Hnot Hall).
    + destruct Hc as (_ & _ & Hinv & Hcs).
      assert (Hsame : forall c, c ∈ callers s -> has_returned c = true ->
                                at_phase c = Returned (value e)).
      { intros c (j & Hj)%list_elem_of_lookup Hr. unfold has_returned in Hr.
        destruct (Hcs j c Hj (Hkeys j c Hj)) as [Hp | Hp]; [| done].
        by rewrite Hp in Hr. }
      split; [destruct Hinv as [-> | [_ ->]]; lia |].
      split; [done |]. split; [by exists (value e) |].
      do 3 (split; [done |]).
      intros Hall. split; [| split; [| by apply Hwarm]].
      * exists (value e). intros c Hin. apply Hsame; [done |].
        by apply Hreturned.
      * intros Hcold _. destruct Hinv as [? | [Hw _]]; [done |].
        by rewrite bool_decide_eq_true_2 in Hw.
  - destruct (burst_consistent clock ttl stored k n) as [st Hst].
    apply (some_schedule_returns
             (bool_decide (live clock k stored = None)) k ""
             (work_left (burst clock ttl stored k n)));
      [done | done | by exists st |].
    cbn. rewrite fmap_replicate. by apply Forall_replicate.
Qed.

Lemma single_flight_witness :
  (forall schedule,
      let s := run (burst 720 (Some 180%nat) [] (4, 771, 0)%nat 3) schedule in
      (invocations (4, 771, 0)%nat s <= 1)%nat
      /\ length (callers s) = 3%nat
      /\ (exists v, forall c, c ∈ callers s -> has_returned c = true ->
                              at_phase c = Returned v)
      /\ (taken (burst 720 (Some 180%nat) [] (4, 771, 0)%nat 3) schedule
          + work_left s <= 3 * 3)%nat
      /\ (all_returned s = false ->
          forall v, exists i s', step s i v = Some s')
      /\ ((forall i v, step s i v = None) -> all_returned s = true)
      /\ (all_returned s = true ->
          (exists v, forall c, c ∈ callers s -> at_phase c = Returned v)
          /\ (live 720 (4, 771, 0)%nat [] = None -> (0 < 3)%nat ->
              invocations (4, 771, 0)%nat s = 1%nat)
          /\ (forall e, live 720 (4, 771, 0)%nat [] = Some e ->
                invocations (4, 771, 0)%nat s = 0%nat
                /\ forall c, c ∈ callers s ->
                             at_phase c = Returned (value e))))
  /\ exists schedule,
      all_returned (run (burst 720 (Some 180%nat) [] (4, 771, 0)%nat 3)
                      schedule) = true.
Proof.
  apply (single_flight 720 (Some 180%nat) [] (4, 771, 0)%nat 3).
  discriminate.
Defined.

End AnalysisCacheFacts.

(** ** Concurrent dispatch requests *)

Section DispatchFacts.
Import AlertDispatcher.

Lemma step_transition s i w s' :
  step s i w = Some s' ->
  exists r p h al,
    pool s !! i = Some r /\ transition s i r w p h al
    /\ s' = move s i r p h al.
Proof.
  unfold step. destruct (pool s !! i) as [r |] eqn:Hi; [| done].
  cbn. intros Hstep. exists r.
  destruct (at_phase r) as [| | en sw | [| b] | o] eqn:Hp; try discriminate.
  - destruct (holder s !! about r) eqn:Hh; [done |].
    injection Hstep as <-. do 3 eexists. split; [done |].
    split; [by apply acquires | done].
  - destruct (bool_decide (about r ∈ active s)) eqn:Ha; cbn in Hstep.
    + apply bool_decide_eq_true in Ha.
      destruct (existsb (concerns (about r) (round r)) (alerts s)) eqn:He;
        injection Hstep as <-; do 3 eexists; (split; [done |]);
        (split; [| done]); [by apply finds_alert | by apply composes].
    + apply bool_decide_eq_false in Ha. injection Hstep as <-.
      do 3 eexists. split; [done |]. split; [by apply finds_inactive | done].
  - destruct (sms w) as [n |] eqn:Hs; injection Hstep as <-;
      do 3 eexists; (split; [done |]); (split; [| done]);
      [by eapply sends | by eapply fails].
  - injection Hstep as <-. do 3 eexists. split; [done |].
    split; [by apply gives_up | done].
  - destruct (sms w) as [n |] eqn:Hs; injection Hstep as <-;
      do 3 eexists; (split; [done |]); (split; [| done]);
      [by eapply retry_sends | by eapply retry_fails].
Qed.

Lemma count_app {A} (f : A -> bool) (l1 l2 : list A) :
  count f (l1 ++ l2) = (count f l1 + count f l2)%nat.
Proof. induction l1 as [| x l1 IH]; cbn; [done | rewrite IH; lia]. Qed.

Lemma count_added {A} (f : A -> bool) (l : list A) x :
  count f (l ++ [x]) = (count f l + if f x then 1 else 0)%nat.
Proof. rewrite count_app. cbn. lia. Qed.

Lemma count_fmap {A} (f h : A -> bool) (g : A -> A) (l : list A) :
  (forall x, f (g x) = h x) -> count f (g <$> l) = count h l.
Proof.
  intros Hfg. induction l as [| x l IH]; [done |].
  rewrite fmap_cons. cbn [count]. by rewrite Hfg, IH.
Qed.

Lemma count_insert {A} (f : A -> bool) (l : list A) i x y :
  l !! i = Some x ->
  (count f (<[i := y]> l) + (if f x then 1 else 0)
   = count f l + if f y then 1 else 0)%nat.
Proof.
  revert i. induction l as [| a l IH]; intros [| i] H; try done.
  - injection H as ->. cbn. lia.
  - change (<[S i := y]> (a :: l)) with (a :: <[i := y]> l).
    change ((a :: l) !! S i) with (l !! i) in H.
    specialize (IH i H). cbn [count]. lia.
Qed.

Lemma count_le {A} (f g : A -> bool) (l : list A) :
  (forall x, f x = true -> g x = true) -> (count f l <= count g l)%nat.
Proof.
  intros Hfg. induction l as [| x l IH]; cbn; [lia |].
  destruct (f x) eqn:Hf; [rewrite (Hfg x Hf) |]; destruct (g x); lia.
Qed.

Lemma existsb_count {A} (f : A -> bool) (l : list A) :
  existsb f l = negb (count f l =? 0)%nat.
Proof.
  induction l as [| x l IH]; [done |]. cbn. by destruct (f x).
Qed.

Lemma count_pos_lookup {A} (f : A -> bool) (l : list A) j x :
  l !! j = Some x -> f x = true -> (1 <= count f l)%nat.
Proof.
  revert j. induction l as [| a l IH]; intros [| j] H Hf; try done.
  - injection H as ->. cbn. rewrite Hf. lia.
  - change ((a :: l) !! S j) with (l !! j) in H.
    specialize (IH j H Hf). cbn [count]. lia.
Qed.

Lemma exclusive_stay s i r p al :
  exclusive s -> pool s !! i = Some r ->
  in_critical (at_phase r) = true -> in_critical p = true ->
  exclusive (move s i r p (holder s) al).
Proof.
  intros Hm Hi Hc Hp d j. cbn.
  pose proof (lookup_lt_Some _ _ _ Hi) as Hlen.
  destruct (decide (j = i)) as [-> | Hne].
  - rewrite list_lookup_insert_eq by done. split.
    + intros (r0 & Hr0 & Hab & _)%Hm. eexists. split; [done |].
      cbn. split; [congruence | done].
    + intros (r' & [= <-] & Hab & _). cbn in Hab. apply Hm. eauto.
  - rewrite list_lookup_insert_ne by done. apply Hm.
Qed.

Lemma exclusive_enter s i r p al :
  exclusive s -> pool s !! i = Some r ->
  in_critical (at_phase r) = false -> in_critical p = true ->
  holder s !! about r = None ->
  exclusive (move s i r p (<[about r := i]> (holder s)) al).
Proof.
  intros Hm Hi Hc Hp Hfree d j. cbn.
  pose proof (lookup_lt_Some _ _ _ Hi) as Hlen.
  destruct (decide (about r = d)) as [<- | Hd].
  - rewrite lookup_insert_eq. split.
    + intros [= <-]. rewrite list_lookup_insert_eq by done. eauto.
    + intros (r' & Hr' & Hab & Hcr).
      destruct (decide (j = i)) as [-> | Hne]; [done |].
      rewrite list_lookup_insert_ne in Hr' by done.
      assert (holder s !! about r = Some j) by (apply Hm; eauto).
      congruence.
  - rewrite lookup_insert_ne by done.
    destruct (decide (j = i)) as [-> | Hne].
    + rewrite list_lookup_insert_eq by done. split.
      * intros (r0 & Hr0 & _ & Hcr)%Hm. congruence.
      * intros (r' & [= <-] & Hab & _). done.
    + rewrite list_lookup_insert_ne by done. apply Hm.
Qed.

Lemma exclusive_leave s i r p al :
  exclusive s -> pool s !! i = Some r ->
  in_critical (at_phase r) = true -> in_critical p = false ->
  exclusive (move s i r p (delete (about r) (holder s)) al).
Proof.
  intros Hm Hi Hc Hp d j. cbn.
  pose proof (lookup_lt_Some _ _ _ Hi) as Hlen.
  assert (Hheld : holder s !! about r = Some i) by (apply Hm; eauto).
  destruct (decide (about r = d)) as [<- | Hd].
  - rewrite lookup_delete_eq. split; [done |].
    intros (r' & Hr' & Hab & Hcr).
    destruct (decide (j = i)) as [-> | Hne].
    + rewrite list_lookup_insert_eq in Hr' by done.
      injection Hr' as <-. cbn in Hcr. congruence.
    + rewrite list_lookup_insert_ne in Hr' by done.
      assert (holder s !! about r = Some j) by (apply Hm; eauto).
      congruence.
  - rewrite lookup_delete_ne by done.
    destruct (decide (j = i)) as [-> | Hne].
    + rewrite list_lookup_insert_eq by done. split.
      * intros (r0 & Hr0 & Hab & _)%Hm. congruence.
      * intros (r' & [= <-] & Hab & _). done.
    + rewrite list_lookup_insert_ne by done. apply Hm.
Qed.

(** Two requests in their critical sections for one disaster are one. *)
Lemma critical_unique s i j r r' :
  exclusive s -> pool s !! i = Some r -> pool s !! j = Some r' ->
  in_critical (at_phase r) = true -> in_critical (at_phase r') = true ->
  about r = about r' -> i = j.
Proof.
  intros Hm Hi Hj Hc Hc' Hab.
  assert (holder s !! about r = Some i) by (apply Hm; eauto).
  assert (holder s !! about r = Some j) by (apply Hm; eauto).
  congruence.
Qed.

Lemma concerns_compose d t d' t' en sw n st :
  concerns d t (compose d' t' en sw n st) = (d' =? d)%nat && (t' =? t)%nat.
Proof. done. Qed.

Lemma concerns_mark_sent d t d' t' n a :
  concerns d t (mark_sent d' t' n a) = concerns d t a.
Proof. unfold mark_sent. by destruct (concerns d' t' a). Qed.

Lemma sent_concerning_marked d t n a :
  sent_concerning d t (mark_sent d t n a) = concerns d t a.
Proof.
  unfold sent_concerning, mark_sent.
  destruct (concerns d t a) eqn:Hc; [| by rewrite Hc].
  unfold concerns in *. cbn. by rewrite Hc.
Qed.

Lemma sent_concerning_mark_other d t d' t' n a :
  d <> d' \/ t <> t' ->
  sent_concerning d t (mark_sent d' t' n a) = sent_concerning d t a.
Proof.
  intros Hd. unfold sent_concerning, mark_sent.
  destruct (concerns d' t' a) eqn:Hc; [| done].
  unfold concerns in *. cbn.
  apply andb_true_iff in Hc as [Hd' Ht']. apply Nat.eqb_eq in Hd', Ht'.
  destruct (Nat.eqb_spec (disaster a) d); [| done].
  destruct (Nat.eqb_spec (tier a) t); [| done].
  destruct Hd; congruence.
Qed.

Lemma exclusive_move s i r w p h al :
  transition s i r w p h al -> pool s !! i = Some r ->
  exclusive s -> exclusive (move s i r p h al).
Proof.
  intros Ht Hi Hm.
  destruct Ht as [Hp Hh | Hp | Hp | Hp | en sw n Hp | en sw Hp | Hp
                  | b n Hp | b Hp].
  - apply exclusive_enter; by rewrite ?Hp.
  - apply exclusive_leave; by rewrite ?Hp.
  - apply exclusive_leave; by rewrite ?Hp.
  - apply exclusive_stay; by rewrite ?Hp.
  - apply exclusive_leave; by rewrite ?Hp.
  - apply exclusive_stay; by rewrite ?Hp.
  - apply exclusive_leave; by rewrite ?Hp.
  - apply exclusive_leave; by rewrite ?Hp.
  - apply exclusive_stay; by rewrite ?Hp.
Qed.

Lemma unique_alerts_move s i r w p h al :
  transition s i r w p h al -> pool s !! i = Some r ->
  informed s -> unique_alerts s -> unique_alerts (move s i r p h al).
Proof.
  intros Ht Hi Hk Hu d t. cbn. specialize (Hu d t).
  pose proof (Hk i r Hi) as Hr.
  destruct Ht as [Hp Hh | Hp | Hp | Hp | en sw n Hp | en sw Hp | Hp
                  | b n Hp | b Hp]; try done; rewrite Hp in Hr.
  - rewrite count_added, concerns_compose.
    destruct (Nat.eqb_spec (about r) d) as [<- | ?]; cbn [andb]; [| lia].
    destruct (Nat.eqb_spec (round r) t) as [<- | ?]; lia.
  - rewrite count_added, concerns_compose.
    destruct (Nat.eqb_spec (about r) d) as [<- | ?]; cbn [andb]; [| lia].
    destruct (Nat.eqb_spec (round r) t) as [<- | ?]; lia.
  - by rewrite (count_fmap _ (concerns d t)) by (intros; apply concerns_mark_sent).
Qed.

Lemma sent_concerning_compose_other d t d' t' en sw n st :
  d <> d' -> sent_concerning d t (compose d' t' en sw n st) = false.
Proof.
  intros Hd. unfold sent_concerning. rewrite concerns_compose.
  by destruct (Nat.eqb_spec d' d).
Qed.

Lemma informed_move s i r w p h al :
  transition s i r w p h al -> pool s !! i = Some r ->
  exclusive s -> informed s -> informed (move s i r p h al).
Proof.
  intros Ht Hi Hm Hk j rj Hj. cbn in Hj.
  pose proof (Hk i r Hi) as Hr.
  apply list_lookup_insert_Some in Hj as [(-> & <- & _) | (Hne & Hj)].
  - (* the request that moved *)
    cbn.
    destruct Ht as [Hp Hh | Hp | Hp | Hp Ha He | en sw n Hp | en sw Hp | Hp
                    | b n Hp | b Hp]; try done; rewrite Hp in Hr.
    + rewrite existsb_count in He.
      by destruct (Nat.eqb_spec (count (concerns (about r) (round r)) (alerts s)) 0).
    + rewrite !count_added, concerns_compose, !Nat.eqb_refl, Hr.
      split; [done |].
      pose proof (count_le (sent_concerning (about r) (round r))
                    (concerns (about r) (round r)) (alerts s)) as Hle.
      unfold sent_concerning at 2. cbn.
      rewrite andb_false_r.
      assert (count (sent_concerning (about r) (round r)) (alerts s) <= 0)%nat.
      { rewrite <- Hr. apply Hle. unfold sent_concerning.
        intros x Hx. by apply andb_true_iff in Hx as [? _]. }
      lia.
    + done.
  - (* another request *)
    pose proof (Hk j rj Hj) as Hrj. cbn.
    assert (Hother : in_critical (at_phase r) = true ->
                     in_critical (at_phase rj) = true ->
                     about rj <> about r).
    { intros Hc Hcj Hab. apply Hne.
      by apply (critical_unique s i j r rj). }
    destruct Ht as [Hp Hh | Hp | Hp | Hp Ha He | en sw n Hp | en sw Hp | Hp
                    | b n Hp | b Hp]; try done; rewrite Hp in Hother;
      specialize (Hother eq_refl);
      destruct (at_phase rj) as [| | enj swj | bj | oj]; try done;
      specialize (Hother eq_refl).
    + rewrite count_added, concerns_compose.
      destruct (Nat.eqb_spec (about r) (about rj)); [congruence | cbn; lia].
    + rewrite !count_added, concerns_compose, sent_concerning_compose_other
        by done.
      destruct (Nat.eqb_spec (about r) (about rj)); [congruence | cbn; lia].
    + rewrite count_added, concerns_compose.
      destruct (Nat.eqb_spec (about r) (about rj)); [congruence | cbn; lia].
    + rewrite !count_added, concerns_compose, sent_concerning_compose_other
        by done.
      destruct (Nat.eqb_spec (about r) (about rj)); [congruence | cbn; lia].
    + by rewrite (count_fmap _ (concerns (about rj) (round rj)))
        by (intros; apply concerns_mark_sent).
    + rewrite (count_fmap _ (concerns (about rj) (round rj)))
        by (intros; apply concerns_mark_sent).
      by rewrite (count_fmap _ (sent_concerning (about rj) (round rj)))
        by (intros; apply sent_concerning_mark_other; by left).
Qed.

Lemma sound_step s i w s' :
  step s i w = Some s' -> sound s -> sound s'.
Proof.
  intros (r & p & h & al & Hi & Ht & ->)%step_transition (Hm & Hu & Hk).
  split; [by eapply exclusive_move |].
  split; [by eapply unique_alerts_move | by eapply informed_move].
Qed.

Lemma sound_run schedule : forall s, sound s -> sound (run s schedule).
Proof.
  induction schedule as [| [i w] rest IH]; intros s Hs; [done |].
  cbn [run]. destruct (step s i w) as [s' |] eqn:Hstep; cbn [default].
  - apply IH. by eapply sound_step.
  - by apply IH.
Qed.

Lemma sound_arrivals act budget stored targets :
  (forall d t, (count (concerns d t) stored <= 1)%nat) ->
  sound (arrivals act budget stored targets).
Proof.
  intros Hu. split; [| split; [done |]].
  - intros d i. cbn. rewrite lookup_empty. split; [done |].
    intros (r & Hr & _ & Hc).
    apply list_lookup_fmap_Some in Hr as (x & -> & _). done.
  - intros i r Hr. cbn in Hr.
    by apply list_lookup_fmap_Some in Hr as (x & -> & _).
Qed.

Lemma not_yet_delivered s i r w p h al d t :
  transition s i r w p h al -> delivered_for d t r = false.
Proof.
  unfold delivered_for.
  intros [Hp Hh | Hp | Hp | Hp Ha He | en sw n Hp | en sw Hp | Hp
          | b n Hp | b Hp]; rewrite Hp; by rewrite andb_false_r.
Qed.

(** The requests that were delivered are as many as the alerts that
    reached [sent]. *)
Lemma delivered_move s i r w p h al d t :
  transition s i r w p h al -> pool s !! i = Some r -> informed s ->
  delivered_by d t s = sent_for d t s ->
  delivered_by d t (move s i r p h al) = sent_for d t (move s i r p h al).
Proof.
  intros Ht Hi Hk Heq. unfold delivered_by, sent_for in *. cbn.
  pose proof (count_insert (delivered_for d t) (pool s) i r
                {| about := about r; round := round r; at_phase := p |} Hi)
    as Hc.
  rewrite (not_yet_delivered s i r w p h al d t Ht) in Hc.
  pose proof (Hk i r Hi) as Hr.
  unfold delivered_for at 3 in Hc. cbn in Hc.
  destruct Ht as [Hp Hh | Hp | Hp | Hp Ha He | en sw n Hp | en sw Hp | Hp
                  | b n Hp | b Hp]; rewrite Hp in Hr;
    rewrite ?andb_false_r, ?andb_true_r in Hc; try lia.
  - rewrite count_added. unfold sent_concerning at 2.
    rewrite concerns_compose. cbn. rewrite andb_true_r. lia.
  - rewrite count_added. unfold sent_concerning at 2. cbn.
    rewrite andb_false_r. lia.
  - destruct ((about r =? d)%nat && (round r =? t)%nat) eqn:Hsame.
    + apply andb_true_iff in Hsame as [Hd Hr']. apply Nat.eqb_eq in Hd, Hr'.
      subst d t.
      rewrite (count_fmap _ (concerns (about r) (round r)))
        by (intros; apply sent_concerning_marked).
      lia.
    + rewrite (count_fmap _ (sent_concerning d t)); [lia |].
      intros a. apply sent_concerning_mark_other.
      apply andb_false_iff in Hsame as [Hd | Hr'];
        apply Nat.eqb_neq in Hd || apply Nat.eqb_neq in Hr'; auto.
Qed.

(** Alerts are never taken away. *)
Lemma alerts_grow s i r w p h al d t :
  transition s i r w p h al ->
  (count (concerns d t) (alerts s) <= count (concerns d t) al)%nat.
Proof.
  intros [Hp Hh | Hp | Hp | Hp Ha He | en sw n Hp | en sw Hp | Hp
          | b n Hp | b Hp]; try done.
  - rewrite count_added. lia.
  - rewrite count_added. lia.
  - by rewrite (count_fmap _ (concerns d t))
      by (intros; apply concerns_mark_sent).
Qed.

Lemma settled_move s i r w p h al d t :
  transition s i r w p h al -> pool s !! i = Some r -> d ∈ active s ->
  informed s -> settled d t s -> settled d t (move s i r p h al).
Proof.
  intros Ht Hi Hact Hk Hf j rj Hj Hd Hr Hfin. cbn in *.
  pose proof (alerts_grow s i r w p h al d t Ht) as Hgrow.
  pose proof (Hk i r Hi) as Hinf.
  apply list_lookup_insert_Some in Hj as [(-> & <- & _) | (Hne & Hj)].
  - cbn in Hd, Hr, Hfin. subst d t.
    unfold is_finished in Hfin. cbn in Hfin.
    destruct Ht as [Hp Hh | Hp Hna | Hp Ha He | Hp Ha He | en sw n Hp
                    | en sw Hp | Hp | b n Hp | b Hp];
      try done; rewrite Hp in Hinf.
    + rewrite existsb_count in He.
      destruct (Nat.eqb_spec (count (concerns (about r) (round r)) (alerts s)) 0);
        [done | lia].
    + rewrite count_added, concerns_compose, !Nat.eqb_refl. cbn. lia.
    + lia.
    + lia.
  - specialize (Hf j rj Hj Hd Hr Hfin). lia.
Qed.

(** In normal operation every alert of the disaster and tier is sent. *)
Lemma all_sent_move s i r w p h al d t :
  transition s i r w p h al -> is_Some (sms w) ->
  count (concerns d t) (alerts s) = sent_for d t s ->
  count (concerns d t) al = sent_for d t (move s i r p h al).
Proof.
  intros Ht [n0 Hsms] Heq. unfold sent_for in *. cbn.
  destruct Ht as [Hp Hh | Hp | Hp | Hp Ha He | en sw n Hp Hs | en sw Hp Hs
                  | Hp | b n Hp Hs | b Hp Hs]; try done; try congruence.
  - rewrite !count_added. unfold sent_concerning at 2. cbn.
    rewrite andb_true_r. lia.
  - rewrite (count_fmap _ (concerns d t))
      by (intros; apply concerns_mark_sent).
    destruct ((about r =? d)%nat && (round r =? t)%nat) eqn:Hsame.
    + apply andb_true_iff in Hsame as [Hd Hr']. apply Nat.eqb_eq in Hd, Hr'.
      subst d t.
      by rewrite (count_fmap _ (concerns (about r) (round r)))
        by (intros; apply sent_concerning_marked).
    + rewrite (count_fmap _ (sent_concerning d t)); [done |].
      intros a. apply sent_concerning_mark_other.
      apply andb_false_iff in Hsame as [Hd | Hr'];
        apply Nat.eqb_neq in Hd || apply Nat.eqb_neq in Hr'; auto.
Qed.

Lemma step_frame_requests s i w s' :
  step s i w = Some s' ->
  active s' = active s /\ retries s' = retries s
  /\ target <$> pool s' = target <$> pool s.
Proof.
  intros (r & p & h & al & Hi & _ & ->)%step_transition. cbn.
  repeat (split; [done |]).
  rewrite list_fmap_insert. apply list_insert_id.
  by rewrite list_lookup_fmap, Hi.
Qed.

Lemma delivered_run d t schedule : forall s,
  sound s -> delivered_by d t s = sent_for d t s ->
  delivered_by d t (run s schedule) = sent_for d t (run s schedule).
Proof.
  induction schedule as [| [i w] rest IH]; intros s Hs Heq; [done |].
  cbn [run]. destruct (step s i w) as [s' |] eqn:Hstep; cbn [default];
    [| by apply IH].
  apply IH; [by eapply sound_step |].
  apply step_transition in Hstep as (r & p & h & al & Hi & Ht & ->).
  eapply delivered_move; [done.. | apply Hs | done].
Qed.

Lemma normal_run d t schedule : forall s,
  sound s -> d ∈ active s -> normal schedule = true ->
  settled d t s -> count (concerns d t) (alerts s) = sent_for d t s ->
  settled d t (run s schedule)
  /\ count (concerns d t) (alerts (run s schedule))
     = sent_for d t (run s schedule).
Proof.
  induction schedule as [| [i w] rest IH]; intros s Hs Hact Hn Hf Hall;
    [done |].
  cbn [normal forallb] in Hn. apply andb_true_iff in Hn as [Hw Hn].
  cbn [run]. destruct (step s i w) as [s' |] eqn:Hstep; cbn [default];
    [| by apply IH].
  pose proof (sound_step s i w s' Hstep Hs) as Hs'.
  destruct (step_frame_requests s i w s' Hstep) as (Hact' & _).
  apply step_transition in Hstep as (r & p & h & al & Hi & Ht & ->).
  apply IH; [done | exact Hact | done | |].
  - eapply settled_move; [done.. | apply Hs | done].
  - eapply all_sent_move; [done | | done].
    cbn in Hw. destruct (sms w); [eauto | done].
Qed.

Lemma targets_run schedule : forall s,
  target <$> pool (run s schedule) = target <$> pool s.
Proof.
  induction schedule as [| [i w] rest IH]; intros s; [done |].
  cbn [run]. destruct (step s i w) as [s' |] eqn:Hstep; cbn [default];
    [| apply IH].
  transitivity (target <$> pool s'); [apply IH |].
  by destruct (step_frame_requests s i w s' Hstep) as (_ & _ & ?).
Qed.

Lemma work_left_move (l : list request) budget i r r' :
  l !! i = Some r ->
  (sum_list (weight budget <$> <[i := r']> l) + weight budget r
   = sum_list (weight budget <$> l) + weight budget r')%nat.
Proof.
  intros Hi. rewrite list_fmap_insert. apply sum_list_insert.
  by rewrite list_lookup_fmap, Hi.
Qed.

(** Every step uses up some of the work left. *)
Lemma dispatch_step_work_left s i w s' :
  step s i w = Some s' -> (work_left s' < work_left s)%nat.
Proof.
  intros (r & p & h & al & Hi & Ht & ->)%step_transition.
  unfold work_left. cbn [retries pool move].
  pose proof (work_left_move (pool s) (retries s) i r
                {| about := about r; round := round r; at_phase := p |} Hi)
    as Hs.
  unfold weight at 2 4 in Hs. cbn [at_phase] in Hs.
  destruct Ht as [Hp Hh | Hp | Hp | Hp Ha He | en sw n Hp | en sw Hp | Hp
                  | b n Hp | b Hp]; rewrite Hp in Hs; lia.
Qed.

(** While a request has not finished, some request can move. *)
Lemma some_request_moves s w :
  exclusive s -> all_finished s = false ->
  exists i s', step s i w = Some s'.
Proof.
  intros Hm (j & r & Hj & Hr)%forallb_false_lookup.
  assert (Hcrit : forall i' r', pool s !! i' = Some r' ->
                    in_critical (at_phase r') = true ->
                    exists s', step s i' w = Some s').
  { intros i' r' Hi' Hc. unfold step. rewrite Hi'. cbn.
    destruct (at_phase r') as [| | en sw | [| b] | o]; try done.
    - destruct (negb (bool_decide (about r' ∈ active s))); [eauto |].
      destruct (existsb (concerns (about r') (round r')) (alerts s)); eauto.
    - destruct (sms w); eauto.
    - eauto.
    - destruct (sms w); eauto. }
  unfold is_finished in Hr.
  destruct (at_phase r) as [| | en sw | b | o] eqn:Hp; try done;
    try (exists j; eapply Hcrit; [done | by rewrite Hp]).
  destruct (holder s !! about r) as [i0 |] eqn:Hh.
  - apply Hm in Hh as (r0 & H0 & _ & Hc0).
    exists i0. by eapply Hcrit.
  - exists j. unfold step. rewrite Hj. cbn. rewrite Hp, Hh. eauto.
Qed.

(** From a sound state some schedule of normal operation brings every
    request to its end. *)
Lemma some_schedule_finishes (w : answers) (m : nat) : forall s,
  is_Some (sms w) -> (work_left s <= m)%nat -> sound s ->
  exists schedule,
    normal schedule = true /\ all_finished (run s schedule) = true.
Proof.
  intros s Hw. revert s.
  induction m as [| m IH]; intros s Hm Hs;
    (destruct (all_finished s) eqn:Hall; [by exists [] |]);
    destruct (some_request_moves s w (proj1 Hs) Hall) as (i & s' & Hstep);
    pose proof (dispatch_step_work_left s i w s' Hstep) as Hlt; [lia |].
  destruct (IH s') as (schedule & Hn & Hfin);
    [lia | by eapply sound_step |].
  exists ((i, w) :: schedule). split.
  - unfold normal in *. cbn [forallb snd]. rewrite Hn.
    destruct Hw as [n ->]. done.
  - cbn [run]. by rewrite Hstep.
Qed.

Lemma arrivals_none_delivered act budget stored targets d t :
  delivered_by d t (arrivals act budget stored targets) = 0%nat.
Proof.
  unfold delivered_by. cbn.
  induction targets as [| x targets IH]; [done |].
  rewrite fmap_cons. cbn [count]. rewrite IH.
  unfold delivered_for. cbn. by rewrite andb_false_r.
Qed.

Lemma sent_le_alerts d t (l : list alert) :
  (count (sent_concerning d t) l <= count (concerns d t) l)%nat.
Proof.
  apply count_le. unfold sent_concerning. intros a Ha.
  by apply andb_true_iff in Ha as [? _].
Qed.

(** Three requests for one disaster and tier: request 1 takes the mutex
    and sends; the others find its alert. *)
Example three_requests_one_alert :
  let w := {| ai_en := long_english; ai_sw := short_swahili;
              sms := Some 1200%nat |} in
  let s := run (burst {[12%nat]} 2 [] 12 1 3)
             [(1%nat, w); (0%nat, w); (1%nat, w); (2%nat, w); (1%nat, w);
              (2%nat, w); (2%nat, w); (0%nat, w); (0%nat, w)] in
  at_phase <$> pool s
  = [Finished AlreadySatisfied; Finished Delivered; Finished AlreadySatisfied]
  /\ state <$> alerts s = [sent] /\ truncated <$> alerts s = [true]
  /\ recipients <$> alerts s = [1200%nat].
Proof. vm_compute. done. Qed.

(** The SMS collaborator fails once: the alert is recorded as failed, the
    retry turns that same alert to [sent]. *)
Example failed_send_then_retry :
  let ok := {| ai_en := short_swahili; ai_sw := short_swahili;
               sms := Some 40%nat |} in
  let down := {| ai_en := short_swahili; ai_sw := short_swahili;
                 sms := None |} in
  let s1 := run (burst {[12%nat]} 2 [] 12 1 2)
              [(0%nat, ok); (0%nat, ok); (0%nat, down)] in
  let s2 := run s1 [(1%nat, ok); (0%nat, ok); (1%nat, ok); (1%nat, ok)] in
  state <$> alerts s1 = [failed]
  /\ at_phase <$> pool s1 = [Retrying 2; Waiting]
  /\ state <$> alerts s2 = [sent]
  /\ at_phase <$> pool s2 = [Finished Delivered; Finished AlreadySatisfied].
Proof. vm_compute. done. Qed.

(** C2: dispatch requests issued together, [n] of them or more for one
    disaster and tier: however their steps interleave and whatever the
    collaborators answer, at most one alert of that disaster and tier is
    ever [sent], and as many requests were delivered as alerts were sent;
    in normal operation (the SMS collaborator accepts), for an active
    disaster with no earlier alert of that tier, once every request has
    finished exactly one alert is [sent] and exactly one of the requests
    produced it; and the requests can always be run to their end. *)
Theorem at_most_one_alert_sent (act : gset nat) (budget : nat)
    (stored : list alert) (targets : list (nat * nat)) (d t : nat) :
  (forall d' t', (count (concerns d' t') stored <= 1)%nat) ->
  (forall schedule,
      let s := run (arrivals act budget stored targets) schedule in
      (sent_for d t s <= 1)%nat
      /\ (count (concerns d t) stored = 0%nat ->
          delivered_by d t s = sent_for d t s)
      /\ ((d, t) ∈ targets -> d ∈ act ->
          count (concerns d t) stored = 0%nat ->
          normal schedule = true -> all_finished s = true ->
          sent_for d t s = 1%nat /\ delivered_by d t s = 1%nat))
  /\ exists schedule,
      normal schedule = true
      /\ all_finished (run (arrivals act budget stored targets) schedule)
         = true.
Proof.
  intros Hstored.
  pose proof (sound_arrivals act budget stored targets Hstored) as Hs0.
  split.
  - intros schedule s.
    pose proof (sound_run schedule _ Hs0) as Hs. fold s in Hs.
    destruct Hs as (Hm & Hu & Hk).
    assert (Hle : (sent_for d t s <= 1)%nat).
    { unfold sent_for. pose proof (sent_le_alerts d t (alerts s)).
      specialize (Hu d t). lia. }
    assert (Hd : count (concerns d t) stored = 0%nat ->
                 delivered_by d t s = sent_for d t s).
    { intros Hnone. apply delivered_run; [done |].
      rewrite arrivals_none_delivered. unfold sent_for. cbn.
      pose proof (sent_le_alerts d t stored). lia. }
    split; [done |]. split; [done |].
    intros Hin Hact Hnone Hn Hfin.
    destruct (normal_run d t schedule (arrivals act budget stored targets))
      as [Hset Hall]; try done.
    { intros j r Hj _ _ Hf. cbn in Hj.
      by apply list_lookup_fmap_Some in Hj as (x & -> & _). }
    { unfold sent_for. cbn. pose proof (sent_le_alerts d t stored). lia. }
    fold s in Hset, Hall.
    apply list_elem_of_lookup in Hin as [j Hj].
    assert (Hr : exists r, pool s !! j = Some r /\ target r = (d, t)).
    { assert (H : (target <$> pool s) !! j = Some (d, t)).
      { unfold s. rewrite targets_run. cbn.
        rewrite <- list_fmap_compose, list_lookup_fmap, Hj. done. }
      apply list_lookup_fmap_Some in H as (r & Hr & Hp). eauto. }
    destruct Hr as (r & Hr & Ht). injection Ht as Hd' Ht'.
    assert (Hf : is_finished r = true).
    { unfold all_finished in Hfin. rewrite forallb_forall in Hfin.
      apply Hfin, list_elem_of_In. by eapply list_elem_of_lookup_2. }
    specialize (Hset j r Hr Hd' Ht' Hf). specialize (Hu d t).
    assert (sent_for d t s = 1%nat) by lia.
    split; [done |]. rewrite Hd; done.
  - apply (some_schedule_finishes
             {| ai_en := []; ai_sw := []; sms := Some 1%nat |}
             (work_left (arrivals act budget stored targets)));
      [by eexists | done | done].
Qed.

Lemma at_most_one_alert_sent_witness :
  (forall schedule,
      let s := run (burst {[12%nat]} 2 [] 12 1 3) schedule in
      (sent_for 12 1 s <= 1)%nat
      /\ (count (concerns 12 1) [] = 0%nat ->
          delivered_by 12 1 s = sent_for 12 1 s)
      /\ ((12%nat, 1%nat) ∈ replicate 3 (12%nat, 1%nat) -> 12%nat ∈ ({[12%nat]} : gset nat) ->
          count (concerns 12 1) [] = 0%nat ->
          normal schedule = true -> all_finished s = true ->
          sent_for 12 1 s = 1%nat /\ delivered_by 12 1 s = 1%nat))
  /\ exists schedule,
      normal schedule = true
      /\ all_finished (run (burst {[12%nat]} 2 [] 12 1 3) schedule) = true.
Proof.
  apply (at_most_one_alert_sent {[12%nat]} 2 [] (replicate 3 (12%nat, 1%nat))
           12 1).
  intros d' t'. cbn. lia.
Defined.

End DispatchFacts.

(** ** Numbers to text and back *)

Section NumberFacts.
Import Js.

Ltac digit_cases d H :=
  let Hc := fresh "Hc" in
  assert (d = 0 \/ d = 1 \/ d = 2 \/ d = 3 \/ d = 4 \/ d = 5 \/ d = 6 \/ d = 7
          \/ d = 8 \/ d = 9) as Hc by lia;
  repeat (destruct Hc as [-> | Hc]); [..| subst d]; try (exfalso; lia);
  clear H.

Lemma read_digit_char (d : Z) (rest : string) (a : option Z) :
  0 <= d <= 9 ->
  read_digits 10 (digit_char d +:+ rest) a
  = read_digits 10 rest (Some (10 * default 0 a + d)).
Proof. intros Hd. digit_cases d Hd; reflexivity. Qed.

Lemma fuel_for_div (fuel : nat) (z : Z) :
  fuel_for (S fuel) z -> 10 <= z -> fuel_for fuel (z / 10).
Proof.
  intros [_ [Hz Hlt]] H10.
  assert (Hq : 1 <= z / 10) by (apply Z.div_le_lower_bound; lia).
  assert (Hq2 : z / 10 < 2 ^ Z.of_nat fuel).
  { apply Z.div_lt_upper_bound; [lia |].
    rewrite Nat2Z.inj_succ, Z.pow_succ_r in Hlt by lia. lia. }
  split; [| lia].
  destruct fuel; [| lia]. cbn in Hq2. lia.
Qed.

(** Reading back the digits written for [z] gives [z]. *)
Lemma read_show_digits (fuel : nat) : forall z acc,
  fuel_for fuel z ->
  read_digits 10 (show_digits fuel z acc) None = read_digits 10 acc (Some z).
Proof.
  induction fuel as [| fuel IH]; intros z acc Hf; [destruct Hf; lia |].
  cbn [show_digits].
  assert (Hm : 0 <= z mod 10 <= 9) by (pose proof (Z.mod_pos_bound z 10); lia).
  destruct (Z.ltb_spec z 10) as [Hlt | Hge].
  - rewrite read_digit_char by done. cbn [default].
    destruct Hf as [_ [Hz _]].
    rewrite Z.mod_small by lia. reflexivity.
  - rewrite IH by (by apply fuel_for_div).
    rewrite read_digit_char by done. cbn [default].
    unfold id. replace (10 * (z / 10) + z mod 10) with z; [done |].
    apply Z.div_mod. lia.
Qed.

(** The first digit written is not [0], unless the number is [0]. *)
Lemma show_digits_head (fuel : nat) : forall z acc,
  fuel_for fuel z ->
  (z = 0 /\ show_digits fuel z acc = digit_char 0 +:+ acc)
  \/ (exists m rest, 1 <= m <= 9
                     /\ show_digits fuel z acc = digit_char m +:+ rest).
Proof.
  induction fuel as [| fuel IH]; intros z acc Hf; [destruct Hf; lia |].
  cbn [show_digits].
  destruct (Z.ltb_spec z 10) as [Hlt | Hge].
  - destruct Hf as [_ [Hz _]]. rewrite Z.mod_small by lia.
    destruct (decide (z = 0)) as [-> | Hnz]; [by left |].
    right. exists z, acc. split; [lia | done].
  - destruct (IH (z / 10) (digit_char (z mod 10) +:+ acc)
                (fuel_for_div fuel z Hf Hge)) as [[Hq _] | Hm]; [| by right].
    assert (1 <= z / 10) by (apply Z.div_le_lower_bound; lia). lia.
Qed.

(** What [parseInt] does after the sign, on the digits written for [n]. *)
Lemma after_space_plain (a : ascii) (rest : string) :
  is_space a = false -> (Ascii.nat_of_ascii a < 194)%nat ->
  after_space (String a rest) = None.
Proof.
  intros Hs Ha. unfold after_space. rewrite Hs.
  destruct rest as [| b [| c rest2]]; [done | |].
  - destruct (Nat.eqb_spec (Ascii.nat_of_ascii a) 194); [lia | done].
  - destruct (Nat.eqb_spec (Ascii.nat_of_ascii a) 194); [lia |].
    cbn [andb]. unfold is_wide_space.
    destruct (Nat.eqb_spec (Ascii.nat_of_ascii a) 225); [lia |].
    destruct (Nat.eqb_spec (Ascii.nat_of_ascii a) 226); [lia |].
    destruct (Nat.eqb_spec (Ascii.nat_of_ascii a) 227); [lia |].
    destruct (Nat.eqb_spec (Ascii.nat_of_ascii a) 239); [lia |].
    done.
Qed.

(** A text that starts with a digit or a sign has no space to skip. *)
Lemma skip_spaces_plain (a : ascii) (rest : string) :
  is_space a = false -> (Ascii.nat_of_ascii a < 194)%nat ->
  skip_spaces (String a rest) = String a rest.
Proof.
  intros Hs Ha. unfold skip_spaces. cbn [String.length skip_spaces_within].
  by rewrite after_space_plain.
Qed.

Lemma read_unsigned_show (fuel : nat) (n : Z) :
  fuel_for fuel n ->
  skip_spaces (show_digits fuel n "") = show_digits fuel n ""
  /\ strip_sign (show_digits fuel n "") = (1, show_digits fuel n "")
  /\ (let '(radix, digits) := strip_radix (show_digits fuel n "") in
      read_digits radix digits None) = Some n.
Proof.
  intros Hf. pose proof (read_show_digits fuel n "" Hf) as Hread.
  cbn [read_digits] in Hread.
  destruct (show_digits_head fuel n "" Hf) as [[-> Hs] | (m & rest & Hm & Hs)].
  - rewrite Hs in *. done.
  - rewrite Hs in *.
    digit_cases m Hm;
      (split; [apply skip_spaces_plain;
                 [reflexivity | by apply Nat.ltb_lt]
              | split; [reflexivity | exact Hread]]).
Qed.

Lemma fuel_for_log2 (n : Z) :
  0 <= n -> fuel_for (Z.to_nat (Z.log2 n) + 1) n.
Proof.
  intros Hn. split; [lia |]. split; [done |].
  rewrite Nat2Z.inj_add, Z2Nat.id by apply Z.log2_nonneg.
  destruct (decide (n = 0)) as [-> | Hnz]; [done |].
  replace (Z.log2 n + Z.of_nat 1) with (Z.succ (Z.log2 n)) by lia.
  apply Z.log2_spec. lia.
Qed.

Lemma parseInt_unsigned (s : string) (n : Z) :
  skip_spaces s = s -> strip_sign s = (1, s) ->
  (let '(radix, digits) := strip_radix s in read_digits radix digits None)
  = Some n ->
  parseInt s = Int n.
Proof.
  intros Hskip Hsign. unfold parseInt. rewrite Hskip, Hsign.
  destruct (strip_radix s) as [radix digits]. intros ->. f_equal; lia.
Qed.

Lemma parseInt_negative (s : string) (n : Z) :
  (let '(radix, digits) := strip_radix s in read_digits radix digits None)
  = Some n ->
  parseInt (String "-" s) = Int (- n).
Proof.
  unfold parseInt.
  rewrite skip_spaces_plain by (reflexivity || by apply Nat.ltb_lt).
  cbn [strip_sign].
  destruct (strip_radix s) as [radix digits]. intros ->. f_equal; lia.
Qed.

(** The digits of an integer read back as that integer. *)
Lemma parseInt_show_Z (z : Z) : parseInt (show_Z z) = Int z.
Proof.
  unfold show_Z. destruct (Z.ltb_spec z 0) as [Hneg | Hpos].
  - destruct (read_unsigned_show _ (- z) (fuel_for_log2 (- z) ltac:(lia)))
      as (_ & _ & Hread).
    change ("-" +:+ ?s) with (String "-" s).
    rewrite (parseInt_negative _ _ Hread). f_equal; lia.
  - destruct (read_unsigned_show _ z (fuel_for_log2 z Hpos))
      as (Hskip & Hsign & Hread).
    by apply parseInt_unsigned.
Qed.

Lemma show_Z_not_empty (z : Z) : is_empty (show_Z z) = false.
Proof.
  unfold show_Z. destruct (Z.ltb_spec z 0) as [Hneg | Hpos]; [done |].
  destruct (show_digits_head _ z "" (fuel_for_log2 z Hpos))
    as [[_ ->] | (m & rest & _ & ->)]; done.
Qed.

(** Below 2^53 an integer is its own double. *)
Lemma nearest_double_safe (z : Z) : safe z -> nearest_double z = z.
Proof.
  intros Hz. unfold nearest_double, safe in *.
  change (2 ^ 53) with 9007199254740992.
  destruct (Z.ltb_spec (Z.abs z) 9007199254740992); [done | lia].
Qed.

(** From 2^53 on, the double an integer is read as is 2^53 at least in
    size. *)
Lemma nearest_double_large (a : Z) :
  9007199254740992 <= Z.abs a ->
  9007199254740992 <= Z.abs (nearest_double a).
Proof.
  intros Ha. unfold nearest_double.
  change (2 ^ 53) with 9007199254740992.
  destruct (Z.ltb_spec (Z.abs a) 9007199254740992) as [| _]; [lia |].
  set (e := Z.log2 (Z.abs a) - 52).
  assert (Hlog : 53 <= Z.log2 (Z.abs a)).
  { change 53 with (Z.log2 9007199254740992). by apply Z.log2_le_mono. }
  assert (He : 1 <= e) by (unfold e; lia).
  assert (Hpow : 2 <= 2 ^ e).
  { change 2 with (2 ^ 1) at 1. apply Z.pow_le_mono_r; lia. }
  assert (Hq : 4503599627370496 <= Z.abs a / 2 ^ e).
  { apply Z.div_le_lower_bound; [lia |].
    change 4503599627370496 with (2 ^ 52).
    rewrite <- Z.pow_add_r by lia.
    replace (e + 52) with (Z.log2 (Z.abs a)) by (unfold e; lia).
    apply Z.log2_spec. lia. }
  set (q := Z.abs a / 2 ^ e) in *.
  set (q' := if (2 ^ (e - 1) <? Z.abs a mod 2 ^ e)
                || (Z.abs a mod 2 ^ e =? 2 ^ (e - 1)) && Z.odd q
             then q + 1 else q).
  assert (Hq' : q <= q') by (unfold q'; case_match; lia).
  assert (Hprod : 9007199254740992 <= q' * 2 ^ e) by nia.
  assert (Hinf : 9007199254740992 <= infinity) by (vm_compute; discriminate).
  assert (Hmin : 9007199254740992 <= Z.min (q' * 2 ^ e) infinity) by lia.
  destruct (Z.sgn_spec a) as [[? ->] | [[? ->] | [? ->]]]; lia.
Qed.

(** A double that is a safe integer is read from that integer only. *)
Lemma nearest_double_inv (a z : Z) :
  safe z -> nearest_double a = z -> a = z.
Proof.
  intros Hz Ha. unfold safe in Hz.
  destruct (Z.lt_ge_cases (Z.abs a) 9007199254740992) as [Hlt | Hge].
  - rewrite nearest_double_safe in Ha by (unfold safe; lia). done.
  - pose proof (nearest_double_large a Hge). lia.
Qed.

(** [n === 0] for the double of an integer. *)
Lemma strict_eq_zero (z : Z) :
  strict_eq_number (Num (Int z)) (Int 0) = (z =? 0).
Proof.
  cbn [strict_eq_number].
  rewrite (nearest_double_safe 0) by (unfold safe; lia).
  destruct (Z.eqb_spec z 0) as [-> | Hne].
  - by rewrite nearest_double_safe by (unfold safe; lia).
  - destruct (Z.eqb_spec (nearest_double z) 0) as [Hz | ?]; [| done].
    apply nearest_double_inv in Hz; [done | unfold safe; lia].
Qed.

(** [String(n)] writes the digits of a safe integer. *)
Lemma show_number_safe (z : Z) : safe z -> show_number (Int z) = show_Z z.
Proof.
  intros Hz. unfold show_number. rewrite nearest_double_safe by done.
  unfold safe in Hz. unfold show_double.
  change (2 ^ 53) with 9007199254740992.
  destruct (Z.ltb_spec z 0) as [Hneg | Hpos].
  - destruct (Z.ltb_spec (- z) 9007199254740992); [| lia].
    unfold show_Z. destruct (Z.ltb_spec z 0); [| lia].
    destruct (Z.ltb_spec (- z) 0); [lia | done].
  - destruct (Z.ltb_spec z 9007199254740992); [done | lia].
Qed.

(** Beyond the safe integers the text does not lead back: 2^53 + 1 is
    written as 2^53, and 10^21 in exponent form, of which [parseInt] reads
    the 1. *)
Example beyond_safe_integers :
  to_string (Num (Int 9007199254740993)) = inr "9007199254740992"
  /\ to_string (Num (Int (10 ^ 21))) = inr "1e+21"
  /\ parseInt "1e+21" = Int 1
  /\ to_string (Num (Int (2 ^ 64))) = inr "18446744073709552000"
  /\ to_string (Num (Int (2 ^ 70))) = inr "1.1805916207174113e+21"
  /\ to_string (Num (Int (- 2 ^ 1024))) = inr "-Infinity".
Proof. vm_compute. done. Qed.

(** A string counts its UTF-16 code units: a letter with an accent one,
    an emoji two; white space beyond ASCII is skipped by [parseInt]. *)
Example text_lengths :
  length_of (Str "Tahadhari") = inr (Num (Int 9))
  /\ length_of (Str "Évacuez") = inr (Num (Int 7))
  /\ length_of (Str "Mafuriko 🌊") = inr (Num (Int 11))
  /\ parseInt "   42" = Int 42.
Proof. vm_compute. done. Qed.

End NumberFacts.

(** ** More on the download script *)

Section DownloadMore.
Import Download.

(** The run of the script, whatever the network does. *)
Lemma main_run (net : nat -> outcome) :
  main net
  = Some ([Log [Text "Downloading from:"; Text url]; Get url]
          ++ match net 0%nat with
             | Failed message => [LogError [Text "Error:"; Text message]]
             | Response c =>
                 if c =? 200
                 then [Written "./public/kenya-counties.json";
                       Log [Text "Downloaded successfully to";
                            Text "./public/kenya-counties.json"];
                       Log [Text "Done"]]
                 else [Log [Text "Failed:"; Code c]; Log [Text "Done"]]
             | Broken message => [Uncaught message]
             end).
Proof.
  unfold main. cbn [download].
  destruct (net 0%nat) as [m | c | m]; [done | | done].
  destruct (c =? 200); cbn [negb]; [done |].
  by rewrite String.eqb_refl.
Qed.

(** X1: the script makes one request in every run: whatever the first
    request comes to, no second request follows. *)
Theorem script_requests_once (net : nat -> outcome) :
  exists t, main net = Some t /\ requests t = [Get url].
Proof.
  rewrite main_run. eexists. split; [done |].
  destruct (net 0%nat) as [m | c | m]; [done | | done].
  by destruct (c =? 200).
Qed.

(** X2: "Done" is printed exactly when a response arrived and, if its
    status is 200, its body reached the file; it is then printed once, as
    the last line. A request that errors never reaches the callback, and
    neither does a response 200 whose streams emit an error: that run ends
    with the uncaught error. The file is written through exactly when the
    status is 200 and no stream fails. *)
Theorem script_callback_and_file (net : nat -> outcome) :
  exists t,
    main net = Some t
    /\ ((exists c, net 0%nat = Response c)
        <-> exists before, t = before ++ [Log [Text "Done"]]
                           /\ filter is_done before = [])
    /\ ((forall c, net 0%nat <> Response c) <-> filter is_done t = [])
    /\ (net 0%nat = Response 200
        <-> written t = [Written "./public/kenya-counties.json"])
    /\ (net 0%nat <> Response 200 <-> written t = [])
    /\ (forall m, net 0%nat = Broken m <-> last t = Some (Uncaught m)).
Proof.
  rewrite main_run. eexists. split; [done |].
  destruct (net 0%nat) as [m | c | m].
  - split; [| split; [| split; [| split]]].
    + split; [by intros [c ?] |].
      intros (before & Heq & _).
      destruct before as [| e1 [| e2 [| e3 [| e4 ?]]]]; done.
    + done.
    + done.
    + done.
    + done.
  - destruct (Z.eqb_spec c 200) as [-> | Hc].
    + split; [| split; [| split; [| split]]].
      * split; [| eauto]. intros _. eexists [_; _; _; _]. done.
      * split; [intros H; by destruct (H 200) | done].
      * done.
      * split; [done | done].
      * done.
    + split; [| split; [| split; [| split]]].
      * split; [| eauto]. intros _. eexists [_; _; _]. done.
      * split; [intros H; by destruct (H c) | done].
      * split; [intros [= ->]; done | done].
      * split; [done | intros _ [= ->]; done].
      * done.
  - split; [| split; [| split; [| split]]].
    + split; [by intros [c ?] |].
      intros (before & Heq & _).
      destruct before as [| e1 [| e2 [| e3 [| e4 ?]]]]; done.
    + done.
    + done.
    + done.
    + intros m'. split; [by intros [= ->] | by intros [= ->]].
Qed.

(** X3: [download] from any URL, with a callback that prints "Done": the
    call ends after at most two requests, whatever fuel beyond two it is
    given, and the callback runs at most once. For a URL other than the
    fallback one, answered with a status other than 200, the fallback URL
    is requested next, once; the file is written through exactly when that
    second request is answered 200 and no stream fails, and the callback
    is skipped exactly when that second request errors or its streams
    do. *)
Theorem download_falls_back_once (net : nat -> outcome) (k : nat)
    (u dest : string) :
  exists t,
    download 2 net k u dest [Log [Text "Done"]] = Some t
    /\ (forall more,
          download (2 + more) net k u dest [Log [Text "Done"]] = Some t)
    /\ (length (requests t) <= 2)%nat
    /\ (length (filter is_done t) <= 1)%nat
    /\ (String.eqb u fallbackUrl = false ->
        forall c, net k = Response c -> c <> 200 ->
          requests t = [Get u; Get fallbackUrl]
          /\ (net (S k) = Response 200 <-> written t = [Written dest])
          /\ ((exists m, net (S k) = Failed m \/ net (S k) = Broken m)
              <-> filter is_done t = [])).
Proof.
  cbn [download Nat.add].
  destruct (net k) as [m | c | m] eqn:Hk.
  { eexists. split; [done |]. split; [done |]. split; [cbv; lia |].
    split; [cbv; lia |]. intros _ c [=]. }
  2: { eexists. split; [done |]. split; [done |]. split; [cbv; lia |].
       split; [cbv; lia |]. intros _ c [=]. }
  destruct (Z.eqb_spec c 200) as [-> | Hc]; cbn [negb].
  { eexists. split; [done |]. split; [done |]. split; [cbv; lia |].
    split; [cbv; lia |]. intros _ c [= <-] ?. done. }
  destruct (String.eqb u fallbackUrl) eqn:Hu.
  { eexists. split; [done |]. split; [done |]. split; [cbv; lia |].
    split; [cbv; lia |]. done. }
  destruct (net (S k)) as [m' | c' | m'] eqn:Hk'.
  { eexists. split; [done |]. split; [by intros []|]. split; [cbv; lia |].
    split; [cbv; lia |]. intros _ c0 _ _.
    split; [done |]. split; [done |]. split; [done | eauto]. }
  2: { eexists. split; [done |]. split; [by intros []|]. split; [cbv; lia |].
       split; [cbv; lia |]. intros _ c0 _ _.
       split; [done |]. split; [done |]. split; [done | eauto]. }
  destruct (Z.eqb_spec c' 200) as [-> | Hc']; cbn [negb].
  { eexists. split; [done |]. split; [by intros [] |]. split; [cbv; lia |].
    split; [cbv; lia |]. intros _ c0 _ _.
    split; [done |]. split; [done |].
    split; [by intros [? [? | ?]] | done]. }
  rewrite String.eqb_refl.
  eexists. split; [done |]. split; [by intros [] |]. split; [cbv; lia |].
  split; [cbv; lia |]. intros _ c0 _ _.
  split; [done |]. split; [| split; [by intros [? [? | ?]] | done]].
  split; [intros [= ->]; done | done].
Qed.

End DownloadMore.

(** ** More on the alert console *)

Section AlertConsoleMore.
Import Js Http AlertConsole.

(** X4: every click with a disaster selected, whatever the two replies,
    ends with [generating] back to false (the button is enabled again),
    one toast of type success or error, one four-second timer, and the
    selection and the list of disasters as they were. *)
Theorem click_always_settles (api : string) (send alerts : reply)
    (st : state) :
  is_empty (disId st) = false ->
  let w := click api send alerts st in
  generating (ui w) = false
  /\ send_disabled (ui w) = false
  /\ (exists n, toast (ui w) = Some n
                /\ (type n = "success" \/ type n = "error"))
  /\ filter is_timer (effects w) = [Timer 4000]
  /\ disId (ui w) = disId st /\ disasters (ui w) = disasters st.
Proof.
  intros He w. pose proof (click_outcomes api send alerts st He) as Hw.
  cbn zeta in Hw. fold w in Hw. unfold send_disabled.
  destruct (json_of send) as [e | data]; rewrite Hw; cbn -[is_empty];
    rewrite He.
  - repeat (split; [done |]). split; [eauto | done].
  - repeat (split; [done |]). split; [| done].
    destruct (get data "recipients") as [e | n]; [eauto |].
    destruct (sent_message n); eauto.
Qed.

Lemma click_always_settles_witness :
  let w := click "/api" (Reply 504 None) Unreachable (choose "7" initial) in
  generating (ui w) = false
  /\ send_disabled (ui w) = false
  /\ (exists n, toast (ui w) = Some n
                /\ (type n = "success" \/ type n = "error"))
  /\ filter is_timer (effects w) = [Timer 4000]
  /\ disId (ui w) = "7" /\ disasters (ui w) = Arr [].
Proof.
  apply (click_always_settles "/api" (Reply 504 None) Unreachable
           (choose "7" initial)).
  reflexivity.
Defined.

(** X5: when the send request is rejected or its body is not JSON, the
    failure toast is shown, the preview is empty, the alert history is
    neither requested nor changed: the POST and the toast's timer are the
    only effects. *)
Theorem failed_send_reported (api : string) (send alerts : reply)
    (st : state) (e : exn) :
  is_empty (disId st) = false -> json_of send = inl e ->
  let w := click api send alerts st in
  toast (ui w) = Some {| msg := "❌ Failed to send alert"; type := "error" |}
  /\ preview (ui w) = Null
  /\ preview_pane (ui w) = inr EmptyState
  /\ pastAlerts (ui w) = pastAlerts st
  /\ effects w = [send_request api st; Timer 4000].
Proof.
  intros He Hs w. pose proof (click_outcomes api send alerts st He) as Hw.
  cbn zeta in Hw. fold w in Hw. rewrite Hs in Hw. by rewrite Hw.
Qed.

Lemma failed_send_reported_witness :
  let w := click "/api" Unreachable (Reply 200 (Some (Arr [Null])))
             (choose "7" initial) in
  toast (ui w) = Some {| msg := "❌ Failed to send alert"; type := "error" |}
  /\ preview (ui w) = Null
  /\ preview_pane (ui w) = inr EmptyState
  /\ pastAlerts (ui w) = Arr []
  /\ effects w = [send_request "/api" (choose "7" initial); Timer 4000].
Proof.
  apply (failed_send_reported "/api" Unreachable
           (Reply 200 (Some (Arr [Null]))) (choose "7" initial) NetworkError);
    reflexivity.
Defined.

(** X6: when the body of the send reply is JSON, the alert history is
    requested once, after the POST; the list is replaced by the reply
    when that is JSON and kept otherwise; the toast and the preview do not
    depend on how the history request goes. *)
Theorem history_follows_send (api : string) (send alerts : reply)
    (st : state) (data : value) :
  is_empty (disId st) = false -> json_of send = inr data ->
  let w := click api send alerts st in
  effects w = [send_request api st; GetReq (api +:+ "/alerts"); Timer 4000]
  /\ pastAlerts (ui w)
     = match json_of alerts with inr l => l | inl _ => pastAlerts st end
  /\ preview (ui w) = data
  /\ forall other,
       toast (ui (click api send other st)) = toast (ui w)
       /\ preview (ui (click api send other st)) = preview (ui w).
Proof.
  intros He Hs w. pose proof (click_outcomes api send alerts st He) as Hw.
  cbn zeta in Hw. fold w in Hw. rewrite Hs in Hw. rewrite Hw.
  repeat (split; [done |]). intros other.
  pose proof (click_outcomes api send other st He) as Ho.
  cbn zeta in Ho. rewrite Hs in Ho. by rewrite Ho.
Qed.

Lemma history_follows_send_witness :
  let send := Reply 200 (Some Null) in
  let alerts := Reply 200 (Some (Arr [Obj [("id", Num (Int 9))]])) in
  let w := click "/api" send alerts (choose "7" initial) in
  effects w = [send_request "/api" (choose "7" initial);
               GetReq ("/api" +:+ "/alerts"); Timer 4000]
  /\ pastAlerts (ui w) = Arr [Obj [("id", Num (Int 9))]]
  /\ preview (ui w) = Null
  /\ forall other,
       toast (ui (click "/api" send other (choose "7" initial)))
       = toast (ui w)
       /\ preview (ui (click "/api" send other (choose "7" initial)))
          = preview (ui w).
Proof.
  apply (history_follows_send "/api" (Reply 200 (Some Null))
           (Reply 200 (Some (Arr [Obj [("id", Num (Int 9))]])))
           (choose "7" initial) Null); reflexivity.
Defined.

(** X7: on mount the two lists are fetched side by side: both requests go
    out whatever happens; each list is replaced when its own reply is JSON
    and kept otherwise, whatever the other request comes to; no toast is
    shown and nothing else changes. The "Refresh" button does the same for
    the history alone. *)
Theorem mount_loads_independently (api : string) (active alerts : reply)
    (st : state) :
  let w := mounted api active alerts st in
  effects w = [GetReq (api +:+ "/disasters?status=active");
               GetReq (api +:+ "/alerts")]
  /\ disasters (ui w)
     = match json_of active with inr v => v | inl _ => disasters st end
  /\ pastAlerts (ui w)
     = match json_of alerts with inr v => v | inl _ => pastAlerts st end
  /\ toast (ui w) = toast st /\ preview (ui w) = preview st
  /\ disId (ui w) = disId st /\ generating (ui w) = generating st
  /\ effects (refreshed api alerts st) = [GetReq (api +:+ "/alerts")]
  /\ ui (refreshed api alerts st)
     = match json_of alerts with
       | inr v => setPastAlerts v st
       | inl _ => st
       end.
Proof.
  unfold mounted, mount, refreshed, refreshAlerts. eff_unfold. cbn.
  destruct (json_of active), (json_of alerts); cbn; done.
Qed.

End AlertConsoleMore.

(** ** Selecting a disaster *)

Section SelectionFacts.
Import Js Http AlertConsole.

(** X8: the text of an id that is a safe integer reads back as that id:
    [parseInt(String(n)) === n] for every integer [n] up to
    [Number.MAX_SAFE_INTEGER] in size, so the value of an option leads
    back to the id it was made from. *)
Theorem parseInt_reads_id_back (z : Z) :
  safe z ->
  exists text,
    to_string (Num (Int z)) = inr text
    /\ parseInt text = Int z
    /\ strict_eq_number (Num (Int z)) (parseInt text) = true
    /\ is_empty text = false.
Proof.
  intros Hz. exists (show_Z z). cbn [to_string].
  rewrite show_number_safe by done. rewrite parseInt_show_Z.
  split; [done |]. split; [done |].
  split; [cbn; apply Z.eqb_refl | apply show_Z_not_empty].
Qed.

Lemma parseInt_reads_id_back_witness :
  exists text,
    to_string (Num (Int 9007199254740991)) = inr text
    /\ parseInt text = Int 9007199254740991
    /\ strict_eq_number (Num (Int 9007199254740991)) (parseInt text) = true
    /\ is_empty text = false.
Proof.
  apply (parseInt_reads_id_back 9007199254740991). unfold safe. lia.
Defined.

Lemma option_value_of_id (d : value) (z : Z) :
  get d "id" = inr (Num (Int z)) -> safe z ->
  option_value d = inr (Attribute (show_Z z)).
Proof.
  intros Hid Hz. unfold option_value. rewrite Hid. cbn [nullish to_string].
  by rewrite show_number_safe.
Qed.

(** X9: choosing the option of a disaster whose id is a safe integer and
    clicking posts that id: the one POST of the click carries
    [{disaster_id: id}], whatever the replies, and the choice clears the
    preview and enables the button unless a send is under way. *)
Theorem chosen_disaster_is_posted (api : string) (send alerts : reply)
    (st : state) (d : value) (z : Z) :
  get d "id" = inr (Num (Int z)) -> safe z ->
  exists s,
    option_value d = inr (Attribute s)
    /\ preview (choose s st) = Null
    /\ send_disabled (choose s st) = generating st
    /\ filter is_post (effects (click api send alerts (choose s st)))
       = [Post (api +:+ "/alert/send") (Obj [("disaster_id", Num (Int z))])].
Proof.
  intros Hid Hz. exists (show_Z z).
  pose proof (parseInt_show_Z z) as Hparse.
  pose proof (show_Z_not_empty z) as Hne.
  split; [by apply option_value_of_id |]. split; [done |].
  split; [unfold send_disabled; cbn [disId generating choose]; by rewrite Hne |].
  destruct (click_effects api send alerts (choose (show_Z z) st) Hne)
    as (rest & -> & Hrest).
  destruct (no_post_no_send api rest Hrest) as [H1 _].
  rewrite filter_cons_True by done. rewrite H1.
  unfold send_request. cbn [disId choose]. by rewrite Hparse.
Qed.

Lemma chosen_disaster_is_posted_witness :
  exists s,
    option_value (Obj [("id", Num (Int 42)); ("type", Str "Flood")])
    = inr (Attribute s)
    /\ preview (choose s initial) = Null
    /\ send_disabled (choose s initial) = generating initial
    /\ filter is_post
         (effects (click "/api" Unreachable Unreachable (choose s initial)))
       = [Post ("/api" +:+ "/alert/send")
            (Obj [("disaster_id", Num (Int 42))])].
Proof.
  apply (chosen_disaster_is_posted "/api" Unreachable Unreachable initial
           (Obj [("id", Num (Int 42)); ("type", Str "Flood")]) 42).
  - reflexivity.
  - unfold safe. lia.
Defined.

Lemma find_by_id_found (z : Z) (items : list value) (d : value) :
  safe z ->
  Forall (fun x => nullish x = false) items ->
  d ∈ items -> get d "id" = inr (Num (Int z)) ->
  exists d', find_by_id (Int z) items = inr d' /\ d' ∈ items
             /\ get d' "id" = inr (Num (Int z)).
Proof.
  intros Hz.
  induction 1 as [| x items Hx Hitems IH]; intros Hin Hid;
    [by apply elem_of_nil in Hin |].
  cbn [find_by_id].
  destruct (get_not_nullish x "id" Hx) as [i Hi]. rewrite Hi.
  destruct (strict_eq_number i (Int z)) eqn:Heq.
  - exists x. split; [done |]. split; [by left |].
    destruct i as [| | | [| a | t] | | |]; try done.
    cbn in Heq. apply Z.eqb_eq in Heq.
    rewrite (nearest_double_safe z Hz) in Heq.
    by rewrite (nearest_double_inv a z Hz Heq) in Hi.
  - apply elem_of_cons in Hin as [-> | Hin].
    + rewrite Hid in Hi. injection Hi as <-. cbn in Heq.
      by rewrite Z.eqb_refl in Heq.
    + destruct (IH Hin Hid) as (d' & Hf & Hin' & Hid').
      exists d'. split; [done |]. split; [by right | done].
Qed.

Lemma find_by_id_absent (n : number) (items : list value) :
  Forall (fun x => nullish x = false) items ->
  (forall x i, x ∈ items -> get x "id" = inr i ->
               strict_eq_number i n = false) ->
  find_by_id n items = inr Undefined.
Proof.
  induction 1 as [| x items Hx Hitems IH]; intros Hno; [done |].
  cbn [find_by_id].
  destruct (get_not_nullish x "id" Hx) as [i Hi]. rewrite Hi.
  rewrite (Hno x i) by (done || by left).
  apply IH. intros y j Hy. apply Hno. by right.
Qed.

(** X10: with the list of disasters an array of objects, choosing the
    option of one of them whose id is a safe integer selects a disaster of
    the list with that id, and that very one when no other has the id. *)
Theorem chosen_disaster_is_selected (st : state) (items : list value)
    (d : value) (z : Z) :
  disasters st = Arr items ->
  Forall (fun x => nullish x = false) items ->
  d ∈ items -> get d "id" = inr (Num (Int z)) -> safe z ->
  exists s d',
    option_value d = inr (Attribute s)
    /\ selectedDisaster (choose s st) = inr d'
    /\ d' ∈ items /\ get d' "id" = inr (Num (Int z)) /\ truthy d' = true
    /\ ((forall x, x ∈ items -> get x "id" = inr (Num (Int z)) -> x = d) ->
        d' = d).
Proof.
  intros Hd Hitems Hin Hid Hz.
  destruct (find_by_id_found z items d Hz Hitems Hin Hid)
    as (d' & Hfind & Hin' & Hid').
  exists (show_Z z), d'.
  split; [by apply option_value_of_id |]. split.
  { unfold selectedDisaster. cbn [disasters disId choose]. rewrite Hd.
    by rewrite parseInt_show_Z. }
  split; [done |]. split; [done |]. split; [| by intros Hu; apply Hu].
  destruct d'; try done.
Qed.

Lemma chosen_disaster_is_selected_witness :
  let flood := Obj [("id", Num (Int 3)); ("type", Str "Flood")] in
  let fire := Obj [("id", Num (Int 8)); ("type", Str "Wildfire")] in
  exists s d',
    option_value fire = inr (Attribute s)
    /\ selectedDisaster (choose s (setDisasters (Arr [flood; fire]) initial))
       = inr d'
    /\ d' ∈ [flood; fire] /\ get d' "id" = inr (Num (Int 8))
    /\ truthy d' = true
    /\ ((forall x, x ∈ [flood; fire] -> get x "id" = inr (Num (Int 8)) ->
                   x = fire) -> d' = fire).
Proof.
  apply (chosen_disaster_is_selected
           (setDisasters (Arr [Obj [("id", Num (Int 3)); ("type", Str "Flood")];
                               Obj [("id", Num (Int 8));
                                    ("type", Str "Wildfire")]]) initial)
           [Obj [("id", Num (Int 3)); ("type", Str "Flood")];
            Obj [("id", Num (Int 8)); ("type", Str "Wildfire")]]
           (Obj [("id", Num (Int 8)); ("type", Str "Wildfire")]) 8).
  - reflexivity.
  - repeat constructor.
  - apply list_elem_of_In. cbn. tauto.
  - reflexivity.
  - unfold safe. lia.
Defined.

(** X11: a selection that does not start with a number (the placeholder's
    empty value above all) selects nothing in an array of objects: no
    disaster is found, whatever the ids; and when the list of disasters is
    not an array, as after an error reply with a JSON body, looking the
    selection up throws, whatever is selected. *)
Theorem nothing_selected (st : state) :
  (forall items,
      disasters st = Arr items ->
      Forall (fun x => nullish x = false) items ->
      parseInt (disId st) = NaN ->
      selectedDisaster st = inr Undefined)
  /\ parseInt "" = NaN
  /\ ((forall items, disasters st <> Arr items) ->
      forall s, selectedDisaster (choose s st) = inl TypeError).
Proof.
  split; [| split; [done |]].
  - intros items Hd Hitems Hnan. unfold selectedDisaster. rewrite Hd, Hnan.
    apply find_by_id_absent; [done |].
    intros x i _ _. by destruct i as [| | | [| |] | | |].
  - intros Hno s. unfold selectedDisaster. cbn [disasters choose].
    destruct (disasters st) as [| | | | | items |]; try done.
    by destruct (Hno items).
Qed.

End SelectionFacts.

(** ** The alert history *)

Section HistoryFacts.
Import Js Http AlertConsole.

(** Induction on values that reaches the items of an array. *)
Lemma value_items_ind (P : value -> Prop) :
  P Undefined -> P Null -> (forall b, P (Bool b)) -> (forall n, P (Num n)) ->
  (forall s, P (Str s)) ->
  (forall items, Forall P items -> P (Arr items)) ->
  (forall fields, P (Obj fields)) ->
  forall v, P v.
Proof.
  intros HU HN HB HNum HS HA HO. fix IH 1. intros [| | b | n | s | items | fields];
    [done | done | done | done | done | | done].
  apply HA. induction items as [| x items IHitems]; constructor;
    [apply IH | exact IHitems].
Qed.

(** Writing a value as a string fails with a TypeError only. *)
Lemma to_string_error (v : value) (e : exn) :
  to_string v = inl e -> e = TypeError.
Proof.
  revert e. induction v as [| | b | n | s | items IH | fields]
    using value_items_ind; intros e; cbn [to_string];
    try discriminate.
  - destruct b; discriminate.
  - induction IH as [| x items Hx _ IHitems]; cbn; [discriminate |].
    destruct (match x with
              | Undefined | Null => inr ""
              | _ => to_string x
              end) as [e' | text] eqn:Hhead.
    + intros [= <-]. destruct x; try discriminate; by apply Hx.
    + revert IHitems.
      match goal with
      | |- context [match ?parts with inl _ => _ | inr _ => _ end] =>
          destruct parts as [e' | texts]
      end; [| discriminate].
      intros IHitems [= <-]. by apply IHitems.
  - destruct (lookup_field "toString" fields); [by intros [= <-] | discriminate].
Qed.

(** A primitive value can be written as a string and shown as a child. *)
Lemma primitive_shown (v : value) :
  primitive v = true ->
  renderable v = true /\ exists text, to_string v = inr text.
Proof.
  destruct v as [| | [] | | | |]; cbn; try discriminate; eauto.
Qed.

Lemma lookup_field_primitive (k : string) (fields : list (string * value))
    (v : value) :
  forallb (fun kv => primitive kv.2) fields = true ->
  lookup_field k fields = Some v -> primitive v = true.
Proof.
  induction fields as [| [k' v'] fields IH]; [done |].
  cbn. intros [Hv Hrest]%andb_prop.
  destruct (lookup_field k fields) as [later |].
  - intros [= <-]. by apply IH.
  - destruct (String.eqb k k'); [by intros [= <-] | done].
Qed.

(** What is read from an object with primitive fields is primitive. *)
Lemma get_flat (a : value) (k : string) :
  flat a = true -> exists v, get a k = inr v /\ primitive v = true.
Proof.
  destruct a as [| | | | | | fields]; try discriminate. cbn. intros Hf.
  destruct (lookup_field k fields) as [v |] eqn:Hk; cbn.
  - exists v. split; [done |]. by eapply lookup_field_primitive.
  - by exists Undefined.
Qed.

(** The row of an alert with primitive fields: each cell is the field read,
    and React accepts the cells. *)
Lemma history_row_flat (a : value) :
  flat a = true ->
  exists r,
    history_row a = inr r /\ row_renders r = true
    /\ get a "id" = inr (row_key r) /\ get a "sent_at" = inr (sent_at r)
    /\ get a "disaster_id" = inr (disaster_id r)
    /\ get a "message_en" = inr (message_en r)
    /\ get a "recipients_count" = inr (recipients_count r)
    /\ get a "status" = inr (status r).
Proof.
  intros Ha. unfold history_row.
  destruct (get_flat a "id" Ha) as (k & -> & Hk).
  destruct (get_flat a "sent_at" Ha) as (t & -> & Ht).
  destruct (get_flat a "disaster_id" Ha) as (d & -> & Hd).
  destruct (get_flat a "message_en" Ha) as (m & -> & Hm).
  destruct (get_flat a "recipients_count" Ha) as (n & -> & Hn).
  destruct (get_flat a "status" Ha) as (s & -> & Hs).
  destruct (primitive_shown k Hk) as (_ & tk & ->).
  destruct (primitive_shown t Ht) as (_ & tt & ->).
  eexists. split; [done |]. unfold row_renders. cbn.
  destruct (primitive_shown d Hd) as (-> & _).
  destruct (primitive_shown m Hm) as (-> & _).
  destruct (primitive_shown n Hn) as (-> & _).
  destruct (primitive_shown s Hs) as (-> & _). done.
Qed.

Lemma history_row_nullish (a : value) :
  nullish a = true -> history_row a = inl TypeError.
Proof. by destruct a. Qed.

(** Building a row fails with a TypeError only. *)
Lemma history_row_error (a : value) (e : exn) :
  history_row a = inl e -> e = TypeError.
Proof.
  unfold history_row.
  destruct (get a "id") as [e1 | k] eqn:Hk.
  { destruct a; cbn in Hk; try discriminate; injection Hk as <-;
      repeat case_match; congruence. }
  assert (Hget : forall key, exists v, get a key = inr v).
  { intros key. destruct a; cbn in *; try discriminate; eauto. }
  destruct (Hget "sent_at") as [t ->].
  destruct (Hget "disaster_id") as [d ->].
  destruct (Hget "message_en") as [m ->].
  destruct (Hget "recipients_count") as [n ->].
  destruct (Hget "status") as [s ->].
  destruct (to_string t) as [e2 | ?] eqn:Ht.
  { intros [= <-]. by eapply to_string_error. }
  destruct (to_string k) as [e3 | ?] eqn:Hk'; [| discriminate].
  intros [= <-]. by eapply to_string_error.
Qed.

Lemma history_rows_error (items : list value) (e : exn) :
  history_rows items = inl e -> e = TypeError.
Proof.
  induction items as [| a items IH]; [discriminate |]. cbn [history_rows].
  destruct (history_row a) as [e' | r] eqn:Ha.
  - intros [= <-]. by eapply history_row_error.
  - destruct (history_rows items); [| discriminate].
    intros [= <-]. by apply IH.
Qed.

(** The rows of a list of alerts that can each be built. *)
Lemma history_rows_built (items : list value) :
  Forall (fun a => exists r, history_row a = inr r) items ->
  exists rs, history_rows items = inr rs
             /\ length rs = length items
             /\ forall i a, items !! i = Some a ->
                  exists r, rs !! i = Some r /\ history_row a = inr r.
Proof.
  induction 1 as [| a items [r Hr] _ (rs & Hrs & Hlen & Hrow)].
  - exists []. by repeat split.
  - exists (r :: rs). cbn [history_rows]. rewrite Hr, Hrs.
    split; [done |]. split; [cbn; by rewrite Hlen |].
    intros [| i] x Hx.
    + injection Hx as <-. eauto.
    + by apply Hrow.
Qed.

Lemma history_rows_nullish (items : list value) (a : value) :
  a ∈ items -> nullish a = true -> history_rows items = inl TypeError.
Proof.
  intros Hin Ha. induction items as [| x items IH];
    [by apply elem_of_nil in Hin |].
  cbn [history_rows]. apply elem_of_cons in Hin as [<- | Hin].
  - by rewrite history_row_nullish.
  - destruct (history_row x) as [e | r] eqn:Hx.
    + by rewrite (history_row_error x e Hx).
    + by rewrite IH.
Qed.

(** An alert whose status is an object: the row is built, and React throws
    on the object when the table is shown. *)
Example object_status_breaks_table :
  let alert := Obj [("id", Num (Int 1)); ("disaster_id", Num (Int 7));
                    ("status", Obj [("code", Str "sent")])] in
  (exists r, history_row alert = inr r)
  /\ history_table (setPastAlerts (Arr [alert]) initial) = inl RenderError.
Proof. split; [eexists |]; reflexivity. Qed.

(** X12: with the alert history an array: the empty array shows the line
    "No alerts sent yet"; an array of objects whose fields are primitive
    values (strings, numbers, booleans, null) shows one row per alert, in
    order, each cell the field read from its alert; an array holding
    [null] makes the table throw a TypeError; and when every row can be
    built but a cell of one is an object, React throws on it. *)
Theorem history_of_array (st : state) (items : list value) :
  pastAlerts st = Arr items ->
  (items = [] -> history_table st = inr NoAlerts)
  /\ (items <> [] -> Forall (fun a => flat a = true) items ->
      exists rs,
        history_table st = inr (Rows rs)
        /\ length rs = length items
        /\ forall i a, items !! i = Some a ->
             exists r, rs !! i = Some r /\ history_row a = inr r
                       /\ get a "id" = inr (row_key r)
                       /\ get a "sent_at" = inr (sent_at r)
                       /\ get a "disaster_id" = inr (disaster_id r)
                       /\ get a "message_en" = inr (message_en r)
                       /\ get a "recipients_count" = inr (recipients_count r)
                       /\ get a "status" = inr (status r))
  /\ (forall a, a ∈ items -> nullish a = true ->
                history_table st = inl TypeError)
  /\ (Forall (fun a => exists r, history_row a = inr r) items ->
      forall a r, a ∈ items -> history_row a = inr r ->
                  row_renders r = false ->
                  history_table st = inl RenderError).
Proof.
  intros Hp. unfold history_table. rewrite Hp. cbn [length_of].
  rewrite strict_eq_zero.
  split; [by intros -> |]. split; [| split].
  - intros Hne Hitems.
    assert (Hbuilt : Forall (fun a => exists r, history_row a = inr r) items).
    { eapply Forall_impl; [exact Hitems |]. cbn. intros a Ha.
      destruct (history_row_flat a Ha) as (r & Hr & _). eauto. }
    destruct (history_rows_built items Hbuilt) as (rs & Hrs & Hlen & Hrow).
    exists rs. rewrite Hrs.
    assert (Hall : forallb row_renders rs = true).
    { apply forallb_forall. intros r Hin.
      apply list_elem_of_In, list_elem_of_lookup in Hin as [i Hi].
      destruct (lookup_lt_is_Some_2 items i) as [a Ha];
        [rewrite <- Hlen; by eapply lookup_lt_Some |].
      destruct (Hrow i a Ha) as (r' & Hi' & Hr').
      assert (r' = r) as -> by congruence.
      destruct (history_row_flat a) as (r'' & Hr'' & Hrend & _).
      { by eapply (Forall_lookup_1 _ _ _ _ Hitems). }
      congruence. }
    rewrite Hall. split.
    { destruct items; [done |]. done. }
    split; [done |]. intros i a Ha.
    destruct (Hrow i a Ha) as (r & Hi & Hr). exists r.
    split; [done |]. split; [done |].
    destruct (history_row_flat a) as (r' & Hr' & _ & Hcells).
    { by eapply (Forall_lookup_1 _ _ _ _ Hitems). }
    assert (r' = r) as -> by congruence. exact Hcells.
  - intros a Hin Ha. rewrite (history_rows_nullish items a Hin Ha).
    destruct items; [by apply elem_of_nil in Hin | done].
  - intros Hbuilt a r Hin Hr Hrend.
    destruct (history_rows_built items Hbuilt) as (rs & Hrs & Hlen & Hrow).
    rewrite Hrs.
    assert (Hall : forallb row_renders rs = false).
    { apply list_elem_of_lookup in Hin as [i Hi].
      destruct (Hrow i a Hi) as (r' & Hi' & Hr').
      assert (r' = r) as -> by congruence.
      destruct (forallb row_renders rs) eqn:Hf; [| done].
      rewrite forallb_forall in Hf.
      rewrite Hf in Hrend; [done |].
      by eapply list_elem_of_In, list_elem_of_lookup_2. }
    rewrite Hall. destruct items; [by apply elem_of_nil in Hin | done].
Qed.

Lemma history_of_array_witness :
  let first := Obj [("id", Num (Int 1)); ("disaster_id", Num (Int 7));
                    ("status", Str "sent")] in
  let st := setPastAlerts (Arr [first; Obj []]) initial in
  ([first; Obj []] = [] -> history_table st = inr NoAlerts)
  /\ ([first; Obj []] <> [] ->
      Forall (fun a => flat a = true) [first; Obj []] ->
      exists rs,
        history_table st = inr (Rows rs)
        /\ length rs = length [first; Obj []]
        /\ forall i a, [first; Obj []] !! i = Some a ->
             exists r, rs !! i = Some r /\ history_row a = inr r
                       /\ get a "id" = inr (row_key r)
                       /\ get a "sent_at" = inr (sent_at r)
                       /\ get a "disaster_id" = inr (disaster_id r)
                       /\ get a "message_en" = inr (message_en r)
                       /\ get a "recipients_count" = inr (recipients_count r)
                       /\ get a "status" = inr (status r))
  /\ (forall a, a ∈ [first; Obj []] -> nullish a = true ->
                history_table st = inl TypeError)
  /\ (Forall (fun a => exists r, history_row a = inr r) [first; Obj []] ->
      forall a r, a ∈ [first; Obj []] -> history_row a = inr r ->
                  row_renders r = false ->
                  history_table st = inl RenderError).
Proof.
  apply (history_of_array
           (setPastAlerts
              (Arr [Obj [("id", Num (Int 1)); ("disaster_id", Num (Int 7));
                         ("status", Str "sent")]; Obj []]) initial)).
  reflexivity.
Defined.

Lemma table_of_object (st : state) (fields : list (string * value)) :
  pastAlerts st = Obj fields ->
  lookup_field "length" fields <> Some (Num (Int 0)) ->
  history_table st = inl TypeError.
Proof.
  intros Hp Hlen. unfold history_table. rewrite Hp. cbn [length_of].
  destruct (lookup_field "length" fields) as [[| | | [| z | t] | | |] |];
    try done.
  change (default Undefined (Some (Num (Int z)))) with (Num (Int z)).
  rewrite strict_eq_zero.
  destruct (Z.eqb_spec z 0) as [-> | ?]; done.
Qed.

(** X13: a reply with a JSON object for body, as an error reply has, is
    taken for the list: after it the history table throws instead of
    showing rows (unless the object has a [length] of 0), be it loaded on
    mount or by the "Refresh" button; and when the list of disasters was
    answered that way, looking up the selected disaster throws. *)
Theorem object_body_breaks_the_lists (api : string) (status : Z)
    (fields : list (string * value)) (other : reply) (st : state) :
  lookup_field "length" fields <> Some (Num (Int 0)) ->
  let broken := Reply status (Some (Obj fields)) in
  history_table (ui (refreshed api broken st)) = inl TypeError
  /\ history_table (ui (mounted api other broken st)) = inl TypeError
  /\ forall s,
       selectedDisaster (choose s (ui (mounted api broken other st)))
       = inl TypeError.
Proof.
  intros Hlen broken. subst broken.
  unfold mounted, mount, refreshed, refreshAlerts. eff_unfold.
  cbn -[history_table selectedDisaster].
  split; [| split].
  - by apply (table_of_object _ fields).
  - destruct (json_of other); by apply (table_of_object _ fields).
  - intros s. by destruct (json_of other).
Qed.

Lemma object_body_breaks_the_lists_witness :
  let broken := Reply 500 (Some (Obj [("detail", Str "database is locked")])) in
  history_table (ui (refreshed "/api" broken initial)) = inl TypeError
  /\ history_table (ui (mounted "/api" Unreachable broken initial))
     = inl TypeError
  /\ forall s,
       selectedDisaster
         (choose s (ui (mounted "/api" broken Unreachable initial)))
       = inl TypeError.
Proof.
  apply (object_body_breaks_the_lists "/api" 500
           [("detail", Str "database is locked")] Unreachable initial).
  discriminate.
Defined.

End HistoryFacts.

(** ** More on the AI report panel *)

Section AIReportMore.
Import Js Http AIReport.

(** The four ways a refresh can go: a request is rejected; the national
    body is [null]; the predictions body is [null]; both bodies can be
    read. *)
Lemma reload_cases api national predict st :
  let w := reload api national predict st in
  (exists e,
      promise_all (json_of national) (json_of predict) = inl e
      /\ w = {| ui := setLoading false st;
                effects := both_requests api ++ [ConsoleError e] |})
  \/ (exists natRes predRes,
         json_of national = inr natRes /\ json_of predict = inr predRes
         /\ AlertConsole.nullish natRes = true
         /\ w = {| ui := setLoading false st;
                   effects := both_requests api ++ [ConsoleError TypeError] |})
  \/ (exists natRes predRes r s g,
         json_of national = inr natRes /\ json_of predict = inr predRes
         /\ get natRes "report" = inr r /\ get natRes "stats" = inr s
         /\ get natRes "generated_at" = inr g /\ AlertConsole.nullish predRes = true
         /\ w = {| ui := {| report := r; predictions := predictions st;
                            stats := s; loading := false; tab := tab st;
                            generatedAt := g |};
                   effects := both_requests api ++ [ConsoleError TypeError] |})
  \/ (exists natRes predRes r s g p,
         json_of national = inr natRes /\ json_of predict = inr predRes
         /\ get natRes "report" = inr r /\ get natRes "stats" = inr s
         /\ get natRes "generated_at" = inr g
         /\ get predRes "predictions" = inr p
         /\ w = {| ui := {| report := r; predictions := or p (Arr []);
                            stats := s; loading := false; tab := tab st;
                            generatedAt := g |};
                   effects := both_requests api |}).
Proof.
  intros w. subst w. unfold reload, loadAll. eff_unfold.
  destruct (json_of national) as [e | natRes] eqn:Hn.
  { left. exists e. split; [done |]. cbn. done. }
  destruct (json_of predict) as [e | predRes] eqn:Hp.
  { left. exists e. split; [done |]. cbn. done. }
  right. cbn [promise_all fst snd].
  destruct (AlertConsole.nullish natRes) eqn:Hnull.
  { left. exists natRes, predRes. repeat (split; [done |]).
    by destruct natRes. }
  right.
  destruct (get_not_nullish natRes "report" Hnull) as [r Hr].
  destruct (get_not_nullish natRes "stats" Hnull) as [s Hs].
  destruct (get_not_nullish natRes "generated_at" Hnull) as [g Hg].
  rewrite Hr, Hs, Hg.
  destruct (AlertConsole.nullish predRes) eqn:Hpnull.
  { left. exists natRes, predRes, r, s, g. repeat (split; [done |]).
    by destruct predRes. }
  right. destruct (get_not_nullish predRes "predictions" Hpnull) as [p Hpp].
  exists natRes, predRes, r, s, g, p. repeat (split; [done |]).
  by rewrite Hpp.
Qed.

(** The spinner is shown while [loading] is set only. *)
Lemma body_not_spinner (st : state) :
  loading st = false -> body st <> inr Spinner.
Proof.
  intros Hl. unfold body. rewrite Hl.
  destruct (String.eqb (tab st) "sitRep");
    [by destruct (truthy (report st)) |].
  destruct (length_of (predictions st)) as [e | n]; [done |].
  destruct (strict_eq_number n (Int 0)); [done |].
  destruct (predictions st) as [| | | | | items |]; try done.
  by destruct (forallb _ items).
Qed.

(** X14: every refresh, whatever the two replies, makes the two GET
    requests, both of them and in that order, logs at most one error after
    them, leaves the tab where it was and ends with [loading] back to
    false, so that the spinner is never left on. *)
Theorem refresh_always_settles (api : string) (national predict : reply)
    (st : state) :
  let w := reload api national predict st in
  filter is_get_request (effects w) = both_requests api
  /\ (effects w = both_requests api
      \/ exists e, effects w = both_requests api ++ [ConsoleError e])
  /\ loading (ui w) = false /\ tab (ui w) = tab st
  /\ body (ui w) <> inr Spinner.
Proof.
  intros w.
  destruct (reload_cases api national predict st)
    as [(e & _ & Hw) | [(n & p & _ & _ & _ & Hw)
        | [(n & p & r & s & g & _ & _ & _ & _ & _ & _ & Hw)
           | (n & p & r & s & g & q & _ & _ & _ & _ & _ & _ & Hw)]]];
    cbn zeta in Hw; fold w in Hw; rewrite Hw;
    (split; [done |]); (split; [eauto |]); (split; [done |]);
    (split; [done |]); by apply body_not_spinner.
Qed.

(** X15: error replies are not told from data. When both bodies are JSON
    objects without the fields the panel reads (the body of an error
    reply, whatever the status), the refresh puts [undefined] for the
    report, the statistics and the time of generation and the empty list
    for the predictions, without logging anything: what the panel held is
    gone, and both tabs show their empty state. *)
Theorem error_bodies_erase_panel (api : string) (s1 s2 : Z)
    (f1 f2 : list (string * value)) (st : state) :
  lookup_field "report" f1 = None -> lookup_field "stats" f1 = None ->
  lookup_field "generated_at" f1 = None ->
  lookup_field "predictions" f2 = None ->
  let w := reload api (Reply s1 (Some (Obj f1))) (Reply s2 (Some (Obj f2)))
             st in
  ui w = {| report := Undefined; predictions := Arr []; stats := Undefined;
            loading := false; tab := tab st; generatedAt := Undefined |}
  /\ effects w = both_requests api
  /\ body (setTab "sitRep" (ui w)) = inr NoReport
  /\ body (setTab "predict" (ui w)) = inr NoPredictions.
Proof.
  intros Hr Hs Hg Hp w. subst w. unfold reload, loadAll. eff_unfold. cbn.
  rewrite Hr, Hs, Hg, Hp. cbn. done.
Qed.

Lemma error_bodies_erase_panel_witness :
  let held := setPredictions (Arr [Obj [("county", Str "Tana River")]])
                (setReport (Str "# Situation") initial) in
  let w := reload "/api"
             (Reply 500 (Some (Obj [("detail", Str "quota exceeded")])))
             (Reply 500 (Some (Obj [("detail", Str "quota exceeded")])))
             held in
  ui w = {| report := Undefined; predictions := Arr []; stats := Undefined;
            loading := false; tab := tab held; generatedAt := Undefined |}
  /\ effects w = both_requests "/api"
  /\ body (setTab "sitRep" (ui w)) = inr NoReport
  /\ body (setTab "predict" (ui w)) = inr NoPredictions.
Proof.
  apply (error_bodies_erase_panel "/api" 500 500
           [("detail", Str "quota exceeded")]
           [("detail", Str "quota exceeded")]); reflexivity.
Defined.

(** X16: a [null] body is read as far as the first field. With the
    predictions answered [null], the national result (report, statistics,
    time of generation) is applied, the predictions stay and a TypeError
    is logged; with the national report answered [null], nothing is
    applied, the predictions of the other reply included. *)
Theorem null_bodies_stop_the_refresh (api : string) (s1 s2 : Z)
    (st : state) :
  (forall natRes r s g,
      get natRes "report" = inr r -> get natRes "stats" = inr s ->
      get natRes "generated_at" = inr g ->
      reload api (Reply s1 (Some natRes)) (Reply s2 (Some Null)) st
      = {| ui := {| report := r; predictions := predictions st; stats := s;
                    loading := false; tab := tab st; generatedAt := g |};
           effects := both_requests api ++ [ConsoleError TypeError] |})
  /\ (forall predRes,
        reload api (Reply s1 (Some Null)) (Reply s2 (Some predRes)) st
        = {| ui := setLoading false st;
             effects := both_requests api ++ [ConsoleError TypeError] |}).
Proof.
  split.
  - intros natRes r s g Hr Hs Hg. unfold reload, loadAll. eff_unfold. cbn.
    rewrite Hr. cbn. rewrite Hs. cbn. rewrite Hg. cbn. done.
  - intros predRes. unfold reload, loadAll. eff_unfold. cbn. done.
Qed.

(** X17: the predictions cell never holds [null], [undefined] or another
    falsy value once it holds a truthy one, as it does from the start:
    whatever the replies of a refresh, reading [predictions.length] in the
    render does not throw. *)
Theorem predictions_stay_defined (api : string) (national predict : reply)
    (st : state) :
  truthy (predictions st) = true ->
  truthy (predictions (refresh api national predict st)) = true
  /\ exists n, length_of (predictions (refresh api national predict st))
               = inr n.
Proof.
  intros Ht.
  assert (Hgoal : truthy (predictions (refresh api national predict st))
                  = true).
  { change (refresh api national predict st)
      with (ui (reload api national predict st)).
    destruct (reload_cases api national predict st)
      as [(e & _ & Hw) | [(n & p & _ & _ & _ & Hw)
          | [(n & p & r & s & g & _ & _ & _ & _ & _ & _ & Hw)
             | (n & p & r & s & g & q & _ & _ & _ & _ & _ & _ & Hw)]]];
      cbn zeta in Hw; rewrite Hw; cbn [ui predictions setLoading]; try done.
    unfold or. by destruct (truthy q) eqn:Hq. }
  split; [done |].
  destruct (predictions (refresh api national predict st)); cbn; eauto;
    discriminate.
Qed.

Lemma predictions_stay_defined_witness :
  truthy (predictions (refresh "/api" (Reply 200 (Some (Obj [])))
                         (Reply 200 (Some (Obj [("predictions", Null)])))
                         initial)) = true
  /\ exists n,
      length_of (predictions (refresh "/api" (Reply 200 (Some (Obj [])))
                                (Reply 200 (Some (Obj [("predictions", Null)])))
                                initial)) = inr n.
Proof.
  apply (predictions_stay_defined "/api" (Reply 200 (Some (Obj [])))
           (Reply 200 (Some (Obj [("predictions", Null)]))) initial).
  reflexivity.
Defined.

End AIReportMore.

(** ** The preview pane *)

Section PaneFacts.
Import Js Http AlertConsole.

(** X18: the pane shows a preview that is set as it came, provided its two
    messages and its recipients are valid React children (on an object
    among them React throws): both messages uncut, each with its length in
    UTF-16 code units when it is a string, whatever that length is against
    160, and with 0 when it is missing or empty; a preview that is not set
    shows the empty state. *)
Theorem pane_counts_characters (st : state) (en sw n : value) :
  truthy (preview st) = true ->
  get (preview st) "message_en" = inr en ->
  get (preview st) "message_sw" = inr sw ->
  get (preview st) "recipients" = inr n ->
  exists en_chars sw_chars,
    length_of (or en (Str "")) = inr en_chars
    /\ length_of (or sw (Str "")) = inr sw_chars
    /\ preview_pane st
       = (if renderable en && renderable sw && renderable n
          then inr (SentAlert en en_chars sw sw_chars n (strict_neq_num n 1))
          else inl RenderError)
    /\ (forall m, en = Str m ->
                  en_chars = Num (Int (Z.of_nat (utf16_length m))))
    /\ (truthy en = false -> en_chars = Num (Int 0))
    /\ (forall m, sw = Str m ->
                  sw_chars = Num (Int (Z.of_nat (utf16_length m))))
    /\ (truthy sw = false -> sw_chars = Num (Int 0))
    /\ preview_pane (choose (disId st) st) = inr EmptyState.
Proof.
  intros Ht Hen Hsw Hn.
  destruct (length_of_or_text en) as [ec Hec].
  destruct (length_of_or_text sw) as [sc Hsc].
  exists ec, sc. split; [done |]. split; [done |].
  split; [| split; [| split; [| split; [| split]]]].
  - unfold preview_pane. rewrite Ht, Hen, Hsw, Hn, Hec, Hsc. cbn [negb].
    destruct (renderable en) eqn:Ren; cbn [andb]; [| done].
    rewrite (renderable_length en ec Ren Hec). cbn [andb].
    destruct (renderable sw) eqn:Rsw; cbn [andb]; [| done].
    by rewrite (renderable_length sw sc Rsw Hsc).
  - intros m ->. unfold or in Hec. cbn in Hec.
    destruct m; cbn in Hec; by injection Hec as <-.
  - intros Hf. unfold or in Hec. rewrite Hf in Hec. cbn in Hec.
    by injection Hec as <-.
  - intros m ->. unfold or in Hsc. cbn in Hsc.
    destruct m; cbn in Hsc; by injection Hsc as <-.
  - intros Hf. unfold or in Hsc. rewrite Hf in Hsc. cbn in Hsc.
    by injection Hsc as <-.
  - done.
Qed.

Lemma pane_counts_characters_witness :
  let long := "FLOOD ALERT Tana River: water is rising fast near Garissa road. Move to higher ground now. Refuge is open at Hola Primary School and Bura Health Centre. Carry water, medicines and documents. Avoid every bridge." in
  let st := setPreview (Obj [("message_en", Str long);
                             ("recipients", Num (Int 1200))]) initial in
  exists en_chars sw_chars,
    length_of (or (Str long) (Str "")) = inr en_chars
    /\ length_of (or Undefined (Str "")) = inr sw_chars
    /\ preview_pane st
       = (if renderable (Str long) && renderable Undefined
             && renderable (Num (Int 1200))
          then inr (SentAlert (Str long) en_chars Undefined sw_chars
                      (Num (Int 1200)) (strict_neq_num (Num (Int 1200)) 1))
          else inl RenderError)
    /\ (forall m, Str long = Str m ->
                  en_chars = Num (Int (Z.of_nat (utf16_length m))))
    /\ (truthy (Str long) = false -> en_chars = Num (Int 0))
    /\ (forall m, Undefined = Str m ->
                  sw_chars = Num (Int (Z.of_nat (utf16_length m))))
    /\ (truthy Undefined = false -> sw_chars = Num (Int 0))
    /\ preview_pane (choose (disId st) st) = inr EmptyState.
Proof.
  apply (pane_counts_characters
           (setPreview
              (Obj [("message_en", Str "FLOOD ALERT Tana River: water is rising fast near Garissa road. Move to higher ground now. Refuge is open at Hola Primary School and Bura Health Centre. Carry water, medicines and documents. Avoid every bridge.");
                    ("recipients", Num (Int 1200))]) initial));
    reflexivity.
Defined.

(** A Swahili message with a character beyond the Basic Multilingual
    Plane: the pane counts it twice, as [length] does. *)
Example pane_counts_code_units :
  preview_pane
    (setPreview (Obj [("message_sw", Str "Mafuriko 🌊 Garissa");
                      ("recipients", Num (Int 1))]) initial)
  = inr (SentAlert Undefined (Num (Int 0)) (Str "Mafuriko 🌊 Garissa")
           (Num (Int 19)) (Num (Int 1)) false).
Proof. reflexivity. Qed.

End PaneFacts.
